(** * Cron-Price-Fetcher: the multi-provider price resolution pipeline

    A shallow embedding of the TypeScript sources
      - types.ts            (SheetTokenRow, PriceResult)
      - core/normalize.ts   (toPriceResult)
      - storage.ts          (cacheKey, cacheGet)
      - vendors/dexscreener.ts, vendors/coingecko.ts, vendors/cmc.ts
      - core/fetchPrice.ts  (fetchAllPrices)
      - the HTTP front end  (summarize)
    and the properties of the specification that are stated about them.

    Modelling conventions.
      - JavaScript numbers read from JSON are finite; they are modelled as
        rationals [Q] with exact comparison.  [null] and [undefined] are
        [None].  The [priceUsd] of a Dexscreener pair, declared
        [string | number | null], is read as the number [Number(priceUsd)].
      - Strings are [string]; [toLowerCase] and [trim] act on the ASCII
        range (addresses and slugs are ASCII).
      - [Record<string, number | null>] is [gmap string (option Q)]: a key
        can be absent, present with [None] (null) or present with a price.
        Keys inherited from [Object.prototype] are outside the model.
      - The results array with holes is [list (option PriceResult)].
      - Network, clock and cache are oracles.  The network answers a
        request as a function of the log so far, so that an attempt can
        fail and its retry succeed; the cache is the snapshot a run reads.
        Every upstream request, every adapter invocation (with the key list
        it receives) and every clock read is appended to an event log, the
        state that the computation threads.  A rejected promise is the
        result [Thrown].
      - Waiting (back-off, inter-batch delays, timeouts) is not modelled: a
        call that times out is a call that fails.  The lookups that
        [Promise.all] starts together are run in array order. *)

From Stdlib Require Import Ascii String QArith Lqa.
From stdpp Require Import gmap strings list fin_maps.

Open Scope string_scope.
Open Scope list_scope.

(** ** Strings *)

Definition lower_ascii (c : ascii) : ascii :=
  let n := nat_of_ascii c in
  if ((65 <=? n)%nat && (n <=? 90)%nat)%bool then ascii_of_nat (n + 32) else c.

Fixpoint toLowerCase (s : string) : string :=
  match s with
  | EmptyString => EmptyString
  | String c r => String (lower_ascii c) (toLowerCase r)
  end.

Definition is_ws (c : ascii) : bool :=
  let n := nat_of_ascii c in
  ((n =? 32)%nat || ((9 <=? n)%nat && (n <=? 13)%nat))%bool.

Fixpoint trimStart (s : string) : string :=
  match s with
  | EmptyString => EmptyString
  | String c r => if is_ws c then trimStart r else s
  end.

Fixpoint trimEnd (s : string) : string :=
  match s with
  | EmptyString => EmptyString
  | String c r =>
      match trimEnd r with
      | EmptyString => if is_ws c then EmptyString else String c EmptyString
      | r' => String c r'
      end
  end.

Definition trim (s : string) : string := trimEnd (trimStart s).

(** A string that is empty or starts with a non-blank character. *)
Definition starts_clean (s : string) : Prop :=
  match s with
  | EmptyString => True
  | String c _ => is_ws c = false
  end.

(** Truthiness of a string: [!!s], [if (s)], [filter(Boolean)]. *)
Definition nonempty (s : string) : bool :=
  match s with EmptyString => false | _ => true end.

(** Truthiness of a number: [x || 0], [!x]. *)
Definition truthy (q : Q) : bool := negb (Qeq_bool q 0).

(** ** types.ts *)

Inductive Source := Dexscreener | Coingecko | Cmc.

#[global] Instance Source_eq_dec : EqDecision Source.
Proof. solve_decision. Defined.

(** [SheetTokenRow]; the cosmetic columns (cmcChain, decimals, cmc_id, logo,
    allocationPct) are never read by the pipeline and are left out. *)
Record SheetTokenRow := {
  tok_chain : string;
  contract_address : string;
  tok_symbol : option string;
  coingecko_id : option string;
  cmc_slug : option string
}.

Record PriceResult := {
  chain : string;
  address : string;
  symbol : option string;
  priceUsd : option Q;
  source : option Source;
  at_ : string
}.

(** ** server.ts: summarize *)

Record BySource := { n_dexscreener : Z; n_coingecko : Z; n_cmc : Z }.
Record Totals := { total : Z; withPrice : Z; nulls : Z }.
Record Summary := { totals : Totals; bySource : BySource }.

(** One iteration of the [for (const p of prices)] loop; the state is
    [(bySource, withPrice)].  A hole in the array is [None] ([p &&]). *)
Definition summarize_step (acc : BySource * Z) (p : option PriceResult)
  : BySource * Z :=
  let '(bs, wp) := acc in
  match p with
  | Some r =>
      match priceUsd r with
      | Some _ =>
          let bs' :=
            match source r with
            | Some Dexscreener =>
                {| n_dexscreener := n_dexscreener bs + 1;
                   n_coingecko := n_coingecko bs; n_cmc := n_cmc bs |}
            | Some Coingecko =>
                {| n_dexscreener := n_dexscreener bs;
                   n_coingecko := n_coingecko bs + 1; n_cmc := n_cmc bs |}
            | Some Cmc =>
                {| n_dexscreener := n_dexscreener bs;
                   n_coingecko := n_coingecko bs; n_cmc := n_cmc bs + 1 |}
            | None => bs
            end in
          (bs', wp + 1)
      | None => acc
      end
  | None => acc
  end%Z.

Definition summarize (prices : list (option PriceResult)) : Summary :=
  let '(bs, wp) :=
    fold_left summarize_step prices
      ({| n_dexscreener := 0; n_coingecko := 0; n_cmc := 0 |}, 0%Z) in
  {| totals := {| total := Z.of_nat (length prices);
                  withPrice := wp;
                  nulls := Z.of_nat (length prices) - wp |};
     bySource := bs |}.

(** The number of entries that are present and carry a price. *)
Definition priced (p : option PriceResult) : bool :=
  match p with
  | Some r => match priceUsd r with Some _ => true | None => false end
  | None => false
  end.

Definition count_priced (prices : list (option PriceResult)) : Z :=
  Z.of_nat (length (List.filter priced prices)).

Definition bySource_sum (bs : BySource) : Z :=
  (n_dexscreener bs + n_coingecko bs + n_cmc bs)%Z.

(** A priced entry names one of the three providers. *)
Definition sourced (p : option PriceResult) : Prop :=
  match p with
  | Some r => priceUsd r <> None -> source r <> None
  | None => True
  end.

(** ** vendors/dexscreener.ts: pair selection *)

(** [DexPair], with the fields the adapter reads.  [liquidity?.usd],
    [volume?.h24], [baseToken?.address] and [quoteToken?.address] are
    flattened: an absent parent object is an absent field. *)
Record DexPair := {
  pair_priceUsd : option Q;
  liquidity_usd : option Q;
  fdv : option Q;
  marketCap : option Q;
  volume_h24 : option Q;
  baseToken_address : option string;
  quoteToken_address : option string
}.

(** [Number(x || 0)] *)
Definition num_or0 (x : option Q) : Q :=
  match x with
  | Some q => if truthy q then q else 0
  | None => 0
  end.

(** [Number(a?.marketCap || a?.fdv || 0)] *)
Definition cap_of (p : DexPair) : Q :=
  match marketCap p with
  | Some q => if truthy q then q else num_or0 (fdv p)
  | None => num_or0 (fdv p)
  end.

Definition liq_of (p : DexPair) : Q := num_or0 (liquidity_usd p).
Definition vol_of (p : DexPair) : Q := num_or0 (volume_h24 p).

(** The comparator handed to [sort]: negative when [a] goes first. *)
Definition comparePairs (a b : DexPair) : Q :=
  let liqA := liq_of a in
  let liqB := liq_of b in
  if negb (Qeq_bool liqB liqA) then liqB - liqA
  else
    let volA := vol_of a in
    let volB := vol_of b in
    if negb (Qeq_bool volB volA) then volB - volA
    else cap_of b - cap_of a.

Definition Qltb (x y : Q) : bool := negb (Qle_bool y x).

(** [Array.prototype.sort] with a comparator: a stable sort.  [x] is moved
    behind [y] only when [cmp x y > 0]. *)
Fixpoint insert_sorted {A} (cmp : A -> A -> Q) (x : A) (l : list A) : list A :=
  match l with
  | [] => [x]
  | y :: r => if Qltb 0 (cmp x y) then y :: insert_sorted cmp x r else x :: l
  end.

Definition sort {A} (cmp : A -> A -> Q) (l : list A) : list A :=
  foldr (insert_sorted cmp) [] l.

Definition has_price (p : DexPair) : bool :=
  match pair_priceUsd p with Some _ => true | None => false end.

Definition pickBestPair (pairs : list DexPair) : option DexPair :=
  let candidates := List.filter has_price pairs in
  head (sort comparePairs candidates).

(** [a] is at least as good as [b]: more liquidity; at equal liquidity more
    24h volume; at equal volume at least the market cap (or FDV). *)
Definition at_least_as_good (a b : DexPair) : Prop :=
  (liq_of b < liq_of a)%Q \/
  (liq_of a == liq_of b /\
   ((vol_of b < vol_of a)%Q \/
    (vol_of a == vol_of b /\ (cap_of b <= cap_of a)%Q))).

(** ** The world: upstream requests, replies, the event log *)

Inductive Req :=
| DexTokens (addresses : list string)
    (* GET /latest/dex/tokens/a,b,...  built by the batch function *)
| DexToken (address : string)
    (* GET /latest/dex/tokens/a  built by fetchDexscreenerPairsByToken *)
| GeckoSimplePrice (ids : list string)
| CmcQuoteBySlug (slug : string)
| CmcHtml (slug : string)
| CmcQuoteById (id : N).

(** A reply body.  The CMC parsers ([readUsdPriceFromAny],
    [extractIdFromHtml], [parseFromNextData]) are pure functions of the
    body; a CMC body is represented by what they read from it. *)
Inductive Body :=
| DexBody (pairs : list DexPair)
| GeckoBody (usd : gmap string Q)
| CmcQuoteBody (usd : option Q)
| CmcHtmlBody (id : option N) (nextData : option Q)
| NoBody.

(** [Failed]: the call throws (timeout, network error, a status the call
    site rejects). *)
Inductive Outcome := Failed | Replied (b : Body).

Inductive Event :=
| Http (r : Req)
| Invoke (p : Source) (keys : list string)
| ClockRead.

Definition World := list Event.

Record Env := {
  net : World -> Req -> Outcome;
  cacheGet : string -> option PriceResult;
  clock : World -> string
}.

Inductive Res (A : Type) := Ok (a : A) | Thrown.
Arguments Ok {A} a.
Arguments Thrown {A}.

Definition Run (A : Type) : Type := World -> Res A * World.

Definition ret {A} (a : A) : Run A := fun w => (Ok a, w).

Definition bind {A B} (m : Run A) (k : A -> Run B) : Run B :=
  fun w =>
    match m w with
    | (Ok a, w') => k a w'
    | (Thrown, w') => (Thrown, w')
    end.

Definition throw {A} : Run A := fun w => (Thrown, w).

(** [try { m } catch { h }] and [m.catch(() => h)] *)
Definition catch {A} (m : Run A) (h : Run A) : Run A :=
  fun w =>
    match m w with
    | (Ok a, w') => (Ok a, w')
    | (Thrown, w') => h w'
    end.

Definition emit (e : Event) : Run unit := fun w => (Ok tt, w ++ [e]).

Notation "x <- c1 ;; c2" := (bind c1 (fun x => c2))
  (at level 100, c1 at next level, right associativity).

Fixpoint mapM {A B} (f : A -> Run B) (l : list A) : Run (list B) :=
  match l with
  | [] => ret []
  | x :: r => y <- f x ;; ys <- mapM f r ;; ret (y :: ys)
  end.

(** [axios.get(url)] *)
Definition request (E : Env) (r : Req) : Run Body :=
  fun w =>
    (match net E w r with Failed => Thrown | Replied b => Ok b end,
     w ++ [Http r]).

(** [pRetry(action, { retries })]: one attempt and up to [retries] more. *)
Fixpoint pRetry {A} (retries : nat) (action : Run A) : Run A :=
  fun w =>
    match action w with
    | (Ok a, w') => (Ok a, w')
    | (Thrown, w') =>
        match retries with
        | O => (Thrown, w')
        | S r => pRetry r action w'
        end
    end.

(** [for (let i = 0; i < arr.length; i += size) out.push(arr.slice(i, i + size))].
    The callers clamp [size] to at least 1, so [length arr] rounds suffice. *)
Fixpoint chunk_rounds {A} (rounds size : nat) (arr : list A) : list (list A) :=
  match rounds with
  | O => []
  | S n =>
      match arr with
      | [] => []
      | _ => take size arr :: chunk_rounds n size (drop size arr)
      end
  end.

Definition chunk {A} (arr : list A) (size : nat) : list (list A) :=
  chunk_rounds (length arr) size arr.

(** Insertion-ordered de-duplication: the [seen] loop of the Dexscreener
    adapter and [Array.from(new Set(...))] of the other two. *)
Fixpoint uniq_loop {A} (key : A -> string) (seen : gset string) (l : list A)
  : list A :=
  match l with
  | [] => []
  | r :: rest =>
      if decide (key r ∈ seen) then uniq_loop key seen rest
      else r :: uniq_loop key ({[key r]} ∪ seen) rest
  end.

Definition prefill {A} (key : A -> string) (uniq : list A)
  : gmap string (option Q) :=
  fold_left (fun out r => <[key r := None]> out) uniq ∅.

Definition pairs_of (b : Body) : list DexPair :=
  match b with DexBody ps => ps | _ => [] end.

(** ** vendors/dexscreener.ts: the adapter *)

Definition fetchDexscreenerPairsByToken (E : Env) (address : string)
  : Run (list DexPair) :=
  res <- request E (DexToken address) ;;
  ret (pairs_of res).

Definition fetchDexscreenerPrice (E : Env) (address : string) : Run (option Q) :=
  pRetry 2
    (pairs <- fetchDexscreenerPairsByToken E address ;;
     ret (match pickBestPair pairs with
          | Some best =>
              match pair_priceUsd best with
              | Some n => if truthy n then Some n else None
              | None => None
              end
          | None => None
          end)).

Record BatchOpts := {
  batchSize : option nat;
  delayMs : option N;
  timeoutMs : option N;
  retries : option nat
}.

Record ReqKey := { original : string; key : string }.

Definition dex_req (addresses : list string) : list ReqKey :=
  List.filter (fun x => nonempty (original x))
    (map (fun a => {| original := trim a; key := toLowerCase (trim a) |})
         addresses).

Definition dex_uniq (addresses : list string) : list ReqKey :=
  uniq_loop key ∅ (dex_req addresses).

Definition push_pair (grouped : gmap string (list DexPair)) (k : string)
    (p : DexPair) : gmap string (list DexPair) :=
  <[k := default [] (grouped !! k) ++ [p]]> grouped.

Definition group_pairs (chunk : list ReqKey) (pairs : list DexPair)
  : gmap string (list DexPair) :=
  let setReq : gset string := list_to_set (map key chunk) in
  fold_left
    (fun grouped p =>
       let bKey := toLowerCase (default "" (baseToken_address p)) in
       let qKey := toLowerCase (default "" (quoteToken_address p)) in
       let g1 := if decide (bKey ∈ setReq) then push_pair grouped bKey p
                 else grouped in
       if decide (qKey ∈ setReq) then push_pair g1 qKey p else g1)
    pairs ∅.

Definition best_price (grouped : gmap string (list DexPair)) (k : string)
  : option Q :=
  match grouped !! k with
  | Some ps =>
      match pickBestPair ps with
      | Some best => pair_priceUsd best
      | None => None
      end
  | None => None
  end.

Definition assign_chunk (grouped : gmap string (list DexPair))
    (chunk : list ReqKey) (out : gmap string (option Q))
  : gmap string (option Q) :=
  fold_left (fun out c => <[key c := best_price grouped (key c)]> out) chunk out.

(** [out[k] == null] *)
Definition no_price (out : gmap string (option Q)) (k : string) : bool :=
  match out !! k with Some (Some _) => false | _ => true end.

(** [!pairs.length || chunk.every(c => out[c.key] == null)] *)
Definition needs_fallback (pairs : list DexPair) (chunk : list ReqKey)
    (out : gmap string (option Q)) : bool :=
  match pairs with
  | [] => true
  | _ => forallb (fun c => no_price out (key c)) chunk
  end.

Fixpoint dex_fallback (E : Env) (retries : nat) (chunk : list ReqKey)
    (out : gmap string (option Q)) : Run (gmap string (option Q)) :=
  match chunk with
  | [] => ret out
  | c :: rest =>
      out' <- catch
                (price <- pRetry retries (fetchDexscreenerPrice E (original c)) ;;
                 ret (match price with
                      | Some v => <[key c := Some v]> out
                      | None => out
                      end))
                (ret out) ;;
      dex_fallback E retries rest out'
  end.

Fixpoint dex_loop (E : Env) (retries : nat) (chunks : list (list ReqKey))
    (out : gmap string (option Q)) : Run (gmap string (option Q)) :=
  match chunks with
  | [] => ret out
  | chunk :: rest =>
      res <- pRetry retries (request E (DexTokens (map original chunk))) ;;
      let pairs := pairs_of res in
      let out1 := assign_chunk (group_pairs chunk pairs) chunk out in
      out2 <- (if needs_fallback pairs chunk out1
               then dex_fallback E retries chunk out1
               else ret out1) ;;
      dex_loop E retries rest out2
  end.

Definition dex_batchSize (opts : BatchOpts) : nat :=
  Nat.max 1 (Nat.min 30 (default 30%nat (batchSize opts))).

Definition fetchDexscreenerBatchByTokens (E : Env) (addresses : list string)
    (opts : BatchOpts) : Run (gmap string (option Q)) :=
  let retries := default 2%nat (retries opts) in
  let uniq := dex_uniq addresses in
  let out := prefill key uniq in
  dex_loop E retries (chunk uniq (dex_batchSize opts)) out.

(** ** vendors/coingecko.ts *)

Definition gecko_batchSize (opts : BatchOpts) : nat :=
  Nat.max 1 (Nat.min 250 (default 150%nat (batchSize opts))).

(** [Array.from(new Set(ids.map(i => String(i || "").toLowerCase()).filter(Boolean)))],
    also the first line of the CMC batch function. *)
Definition slug_uniq (ids : list string) : list string :=
  uniq_loop (fun s => s) ∅ (List.filter nonempty (map toLowerCase ids)).

(** [data?.[id]?.usd] *)
Definition gecko_usd (res : option Body) (id : string) : option Q :=
  match res with
  | Some (GeckoBody data) => data !! id
  | _ => None
  end.

Fixpoint gecko_loop (E : Env) (retries : nat) (parts : list (list string))
    (out : gmap string (option Q)) : Run (gmap string (option Q)) :=
  match parts with
  | [] => ret out
  | part :: rest =>
      res <- catch
               (b <- pRetry retries (request E (GeckoSimplePrice part)) ;;
                ret (Some b))
               (ret None) ;;
      let out' :=
        fold_left
          (fun out id =>
             <[id := match gecko_usd res id with
                     | Some v => Some v
                     | None => default None (out !! id)
                     end]> out)
          part out in
      gecko_loop E retries rest out'
  end.

Definition fetchCoingeckoBatchByIds (E : Env) (ids : list string)
    (opts : BatchOpts) : Run (gmap string (option Q)) :=
  let retries := default 2%nat (retries opts) in
  let uniq := slug_uniq ids in
  let out := prefill (fun s => s) uniq in
  gecko_loop E retries (chunk uniq (gecko_batchSize opts)) out.

(** ** vendors/cmc.ts *)

Definition cmcDataApiQuoteBySlug (E : Env) (slug : string) : Run Body :=
  request E (CmcQuoteBySlug slug).

Definition cmcDataApiQuoteById (E : Env) (id : N) : Run Body :=
  request E (CmcQuoteById id).

Definition fetchHtml (E : Env) (slug : string) : Run Body :=
  request E (CmcHtml slug).

Definition readUsdPriceFromAny (data : Body) : option Q :=
  match data with CmcQuoteBody p => p | _ => None end.

Definition extractIdFromHtml (html : Body) : option N :=
  match html with CmcHtmlBody id _ => id | _ => None end.

Definition parseFromNextData (html : Body) : option Q :=
  match html with CmcHtmlBody _ p => p | _ => None end.

Definition fetchCmcPriceBySlug (E : Env) (slug : string) : Run (option Q) :=
  if negb (nonempty slug) then ret None
  else
    (* 1) data-api by slug *)
    p <- catch
           (data <- pRetry 2 (cmcDataApiQuoteBySlug E slug) ;;
            ret (readUsdPriceFromAny data))
           (ret None) ;;
    match p with
    | Some v => ret (Some v)
    | None =>
        (* 2) HTML -> id -> data-api by id;  3) __NEXT_DATA__ *)
        catch
          (html <- pRetry 1 (fetchHtml E slug) ;;
           p2 <- match extractIdFromHtml html with
                 | Some id =>
                     if negb (id =? 0)%N
                     then data2 <- pRetry 2 (cmcDataApiQuoteById E id) ;;
                          ret (readUsdPriceFromAny data2)
                     else ret None
                 | None => ret None
                 end ;;
           match p2 with
           | Some v => ret (Some v)
           | None => ret (parseFromNextData html)
           end)
          (ret None)
    end.

Record CmcOpts := {
  concurrency : option nat;
  cmc_delayMs : option N;
  cmc_retries : option nat
}.

Definition cmc_concurrency (opts : CmcOpts) : nat :=
  Nat.max 1 (Nat.min 10 (default 4%nat (concurrency opts))).

(** [Promise.all(part.map(...))] is run in array order: one schedule of the
    concurrent lookups.  [for (j ...) out[part[j]] = results[j]]. *)
Fixpoint cmc_loop (E : Env) (retries : nat) (parts : list (list string))
    (out : gmap string (option Q)) : Run (gmap string (option Q)) :=
  match parts with
  | [] => ret out
  | part :: rest =>
      results <- mapM (fun slug => pRetry retries (fetchCmcPriceBySlug E slug))
                      part ;;
      let out' :=
        fold_left (fun out jr => <[fst jr := snd jr]> out) (zip part results) out in
      cmc_loop E retries rest out'
  end.

Definition fetchCmcBatchBySlugs (E : Env) (slugs : list string)
    (opts : CmcOpts) : Run (gmap string (option Q)) :=
  let retries := default 2%nat (cmc_retries opts) in
  let uniq := slug_uniq slugs in
  let out := prefill (fun s => s) uniq in
  cmc_loop E retries (chunk uniq (cmc_concurrency opts)) out.

(** ** core/normalize.ts *)

Definition toPriceResult (E : Env) (c a : string) (p : option Q)
    (s : option Source) (sym : option string) : Run PriceResult :=
  fun w =>
    (Ok {| chain := c;
           address := toLowerCase a;
           symbol := sym;
           priceUsd := p;
           source := match p with None => None | Some _ => s end;
           at_ := clock E w |},
     w ++ [ClockRead]).

(** ** storage.ts *)

Definition cacheKey (c a : string) : string :=
  "price:" ++ c ++ ":" ++ toLowerCase a.

(** ** core/fetchPrice.ts: fetchAllPrices *)

(** [tokens[i]] followed by a property read: a [TypeError] out of range. *)
Definition token_at (tokens : list SheetTokenRow) (i : nat) : Run SheetTokenRow :=
  match tokens !! i with
  | Some t => ret t
  | None => throw
  end.

(** [if (results[i])] *)
Definition filled (results : list (option PriceResult)) (i : nat) : bool :=
  match results !! i with Some (Some _) => true | _ => false end.

(** Step 0, the cache pass. *)
Fixpoint cache_loop (E : Env) (tokens : list SheetTokenRow) (i : nat)
    (results : list (option PriceResult)) (needFetchIdx : list nat)
  : list (option PriceResult) * list nat :=
  match tokens with
  | [] => (results, needFetchIdx)
  | t :: rest =>
      match cacheGet E (cacheKey (tok_chain t) (contract_address t)) with
      | Some c => cache_loop E rest (S i) (<[i := Some c]> results) needFetchIdx
      | None => cache_loop E rest (S i) results (needFetchIdx ++ [i])
      end
  end.

Definition cache_pass (E : Env) (tokens : list SheetTokenRow)
  : list (option PriceResult) * list nat :=
  cache_loop E tokens 0 (replicate (length tokens) None) [].

(** The [applyMap] helper (its returned mark set is never read). *)
Fixpoint applyMap (E : Env) (tokens : list SheetTokenRow)
    (map : gmap string (option Q)) (src : option Source)
    (idxs : list nat) (results : list (option PriceResult))
  : Run (list (option PriceResult)) :=
  match idxs with
  | [] => ret results
  | i :: rest =>
      if filled results i then applyMap E tokens map src rest results
      else
        t <- token_at tokens i ;;
        match map !! toLowerCase (contract_address t) with
        | Some (Some v) =>
            r <- toPriceResult E (tok_chain t) (contract_address t) (Some v)
                   src (tok_symbol t) ;;
            applyMap E tokens map src rest (<[i := Some r]> results)
        | _ => applyMap E tokens map src rest results
        end
  end.

(** The key-collecting loop of steps 2 and 3: [slug] is
    [coingecko_id] or [cmc_slug]; the result is [(ids, idxForId)]. *)
Fixpoint collect_keys (slug : SheetTokenRow -> option string)
    (tokens : list SheetTokenRow) (idxs : list nat)
    (results : list (option PriceResult)) : Run (list string * list nat) :=
  match idxs with
  | [] => ret ([], [])
  | i :: rest =>
      if filled results i then collect_keys slug tokens rest results
      else
        t <- token_at tokens i ;;
        acc <- collect_keys slug tokens rest results ;;
        match slug t with
        | Some s =>
            if nonempty (toLowerCase s)
            then ret (toLowerCase s :: fst acc, i :: snd acc)
            else ret acc
        | None => ret acc
        end
  end.

(** The write-back loop of steps 2 and 3 over [idxForId]. *)
Fixpoint apply_slugs (E : Env) (slug : SheetTokenRow -> option string)
    (tokens : list SheetTokenRow) (map : gmap string (option Q))
    (src : Source) (idxs : list nat) (results : list (option PriceResult))
  : Run (list (option PriceResult)) :=
  match idxs with
  | [] => ret results
  | i :: rest =>
      if filled results i then apply_slugs E slug tokens map src rest results
      else
        t <- token_at tokens i ;;
        match slug t with
        | None => throw          (* [tokens[i].coingecko_id!.toLowerCase()] *)
        | Some s =>
            match map !! toLowerCase s with
            | Some (Some v) =>
                r <- toPriceResult E (tok_chain t) (contract_address t) (Some v)
                       (Some src) (tok_symbol t) ;;
                apply_slugs E slug tokens map src rest (<[i := Some r]> results)
            | _ => apply_slugs E slug tokens map src rest results
            end
        end
  end.

(** Step 4. *)
Fixpoint fill_remaining (E : Env) (tokens : list SheetTokenRow)
    (idxs : list nat) (results : list (option PriceResult))
  : Run (list (option PriceResult)) :=
  match idxs with
  | [] => ret results
  | i :: rest =>
      if filled results i then fill_remaining E tokens rest results
      else
        t <- token_at tokens i ;;
        r <- toPriceResult E (tok_chain t) (contract_address t) None None
               (tok_symbol t) ;;
        fill_remaining E tokens rest (<[i := Some r]> results)
  end.

Definition dexOpts : BatchOpts :=
  {| batchSize := Some 30%nat; delayMs := Some 300%N;
     timeoutMs := Some 8000%N; retries := Some 2%nat |}.

Definition geckoOpts : BatchOpts :=
  {| batchSize := Some 150%nat; delayMs := Some 250%N;
     timeoutMs := Some 8000%N; retries := Some 2%nat |}.

Definition cmcOpts : CmcOpts :=
  {| concurrency := Some 4%nat; cmc_delayMs := Some 0%N;
     cmc_retries := Some 2%nat |}.

(** Step 1.  [Invoke] records the key list handed to the adapter. *)
Definition dex_pass (E : Env) (tokens : list SheetTokenRow)
    (needFetchIdx : list nat) (results : list (option PriceResult))
  : Run (list (option PriceResult)) :=
  addresses <- mapM (fun i => t <- token_at tokens i ;; ret (contract_address t))
                    needFetchIdx ;;
  _ <- emit (Invoke Dexscreener addresses) ;;
  dexMap <- catch (fetchDexscreenerBatchByTokens E addresses dexOpts) (ret ∅) ;;
  applyMap E tokens dexMap (Some Dexscreener) needFetchIdx results.

(** Step 2. *)
Definition gecko_pass (E : Env) (tokens : list SheetTokenRow)
    (needFetchIdx : list nat) (results : list (option PriceResult))
  : Run (list (option PriceResult)) :=
  ks <- collect_keys coingecko_id tokens needFetchIdx results ;;
  match fst ks with
  | [] => ret results
  | ids =>
      _ <- emit (Invoke Coingecko ids) ;;
      geckoMap <- catch (fetchCoingeckoBatchByIds E ids geckoOpts) (ret ∅) ;;
      apply_slugs E coingecko_id tokens geckoMap Coingecko (snd ks) results
  end.

(** Step 3. *)
Definition cmc_pass (E : Env) (tokens : list SheetTokenRow)
    (needFetchIdx : list nat) (results : list (option PriceResult))
  : Run (list (option PriceResult)) :=
  ks <- collect_keys cmc_slug tokens needFetchIdx results ;;
  match fst ks with
  | [] => ret results
  | slugs =>
      _ <- emit (Invoke Cmc slugs) ;;
      cmcMap <- catch (fetchCmcBatchBySlugs E slugs cmcOpts) (ret ∅) ;;
      apply_slugs E cmc_slug tokens cmcMap Cmc (snd ks) results
  end.

Definition fetchAllPrices (E : Env) (tokens : list SheetTokenRow)
  : Run (list (option PriceResult)) :=
  let '(results, needFetchIdx) := cache_pass E tokens in
  match needFetchIdx with
  | [] => ret results
  | _ =>
      results1 <- dex_pass E tokens needFetchIdx results ;;
      results2 <- gecko_pass E tokens needFetchIdx results1 ;;
      results3 <- cmc_pass E tokens needFetchIdx results2 ;;
      fill_remaining E tokens needFetchIdx results3
  end.

(** ** Predicates on runs

    [appends P m]: [m] only appends events that satisfy [P] to the log.
    [returns Q m]: [m] never throws and its result satisfies [Q].
    [on_ok Q m]: when [m] does not throw, its result satisfies [Q]. *)

Definition appends {A} (P : Event -> Prop) (m : Run A) : Prop :=
  forall w, exists evs, snd (m w) = w ++ evs /\ Forall P evs.

Definition returns {A} (Q : A -> Prop) (m : Run A) : Prop :=
  forall w, exists a w', m w = (Ok a, w') /\ Q a.

Definition on_ok {A} (Q : A -> Prop) (m : Run A) : Prop :=
  forall w a w', m w = (Ok a, w') -> Q a.

Definition is_http (e : Event) : Prop :=
  match e with Http _ => True | _ => False end.

Definition is_clock (e : Event) : Prop :=
  match e with ClockRead => True | _ => False end.

(** The identifiers a request names. *)
Definition req_ids (r : Req) : list string :=
  match r with
  | DexTokens l => l
  | DexToken a => [a]
  | GeckoSimplePrice l => l
  | CmcQuoteBySlug s => [s]
  | CmcHtml s => [s]
  | CmcQuoteById _ => []
  end.

Definition requests (w : World) : list Req :=
  omap (fun e => match e with Http r => Some r | _ => None end) w.

(** The identifiers the upstream requests of a log name, in order. *)
Definition identifiers_sent (w : World) : list string :=
  concat (map req_ids (requests w)).

(** The grouped Dexscreener requests of a log, in order. *)
Definition grouped_requests (w : World) : list (list string) :=
  omap (fun e => match e with Http (DexTokens l) => Some l | _ => None end) w.

(** The adapter invocations of a log, in order. *)
Definition invocations (w : World) : list (Source * list string) :=
  omap (fun e => match e with Invoke p ks => Some (p, ks) | _ => None end) w.

Definition at_most_30 (e : Event) : Prop :=
  match e with
  | Http r => (length (req_ids r) <= 30)%nat
  | _ => False
  end.

(** A grouped response leaves the sub-batch [chunk] unanswered: it has no
    pairs, or no usable price for any address of the sub-batch. *)
Definition unanswered (pairs : list DexPair) (chunk : list ReqKey) : bool :=
  match pairs with
  | [] => true
  | _ =>
      forallb
        (fun c =>
           match best_price (group_pairs chunk pairs) (key c) with
           | Some _ => false
           | None => true
           end)
        chunk
  end.

Definition not_grouped (e : Event) : Prop :=
  match e with
  | Http (DexTokens _) => False
  | Http _ => True
  | _ => False
  end.

(** [runs Q m]: [m] never throws; [Q] relates its result to the adapter
    invocations it appends to the log. *)
Definition runs {A} (Q : A -> list (Source * list string) -> Prop)
    (m : Run A) : Prop :=
  forall w, exists a evs, m w = (Ok a, w ++ evs) /\ Q a (invocations evs).

(** ** Vocabulary for the pipeline properties *)

(** The cache entry of a token. *)
Definition cached (E : Env) (t : SheetTokenRow) : option PriceResult :=
  cacheGet E (cacheKey (tok_chain t) (contract_address t)).

(** The indices, from [i] on, of the tokens without a cache entry. *)
Fixpoint misses (E : Env) (tokens : list SheetTokenRow) (i : nat) : list nat :=
  match tokens with
  | [] => []
  | t :: rest =>
      match cached E t with
      | Some _ => misses E rest (S i)
      | None => i :: misses E rest (S i)
      end
  end.

(** [map[k]] when it is a price. *)
Definition price_in (m : gmap string (option Q)) (k : string) : option Q :=
  match m !! k with Some (Some v) => Some v | _ => None end.

(** The record [toPriceResult] builds for token [t] at clock value [ts]. *)
Definition mkResult (t : SheetTokenRow) (p : option Q) (s : option Source)
    (ts : string) : PriceResult :=
  {| chain := tok_chain t;
     address := toLowerCase (contract_address t);
     symbol := tok_symbol t;
     priceUsd := p;
     source := match p with None => None | Some _ => s end;
     at_ := ts |}.

Definition slug_key (slug : SheetTokenRow -> option string) (t : SheetTokenRow)
  : option string :=
  match slug t with
  | Some s => if nonempty (toLowerCase s) then Some (toLowerCase s) else None
  | None => None
  end.

(** The key under which provider [p] is asked about token [t]. *)
Definition provider_key (p : Source) (t : SheetTokenRow) : option string :=
  match p with
  | Dexscreener => Some (contract_address t)
  | Coingecko => slug_key coingecko_id t
  | Cmc => slug_key cmc_slug t
  end.

Definition key_at (f : SheetTokenRow -> option string)
    (tokens : list SheetTokenRow) (i : nat) : option string :=
  match tokens !! i with Some t => f t | None => None end.

(** The key list the indices [idxs] give rise to for provider [p]. *)
Definition keys_for (p : Source) (tokens : list SheetTokenRow)
    (idxs : list nat) : list string :=
  omap (key_at (provider_key p) tokens) idxs.

(** The indices of [idxs] whose slot is still empty. *)
Definition unfilled (results : list (option PriceResult)) (idxs : list nat)
  : list nat :=
  List.filter (fun i => negb (filled results i)) idxs.

(** The token at [i] has a usable slug. *)
Definition has_key (slug : SheetTokenRow -> option string)
    (tokens : list SheetTokenRow) (i : nat) : bool :=
  match key_at (slug_key slug) tokens i with Some _ => true | None => false end.

(** The output slot [i] carries a price from one of the providers [ps]. *)
Definition resolved_by (ps : list Source) (out : list (option PriceResult))
    (i : nat) : bool :=
  match out !! i with
  | Some (Some r) =>
      match source r with
      | Some s => bool_decide (s ∈ ps)
      | None => false
      end
  | _ => false
  end.

Definition still_pending (ps : list Source) (out : list (option PriceResult))
    (idxs : list nat) : list nat :=
  List.filter (fun i => negb (resolved_by ps out i)) idxs.

Definition invocation (p : Source) (ks : list string)
  : list (Source * list string) :=
  match ks with [] => [] | _ => [(p, ks)] end.

Definition dex_price (m : gmap string (option Q)) (t : SheetTokenRow) : option Q :=
  price_in m (toLowerCase (contract_address t)).

Definition slug_price (slug : SheetTokenRow -> option string)
    (m : gmap string (option Q)) (t : SheetTokenRow) : option Q :=
  slug_key slug t ≫= price_in m.

(** What the three passes make of an uncached token, given the maps the
    adapters returned. *)
Definition resolve (t : SheetTokenRow) (dm gm cm : gmap string (option Q))
    (ts : string) : PriceResult :=
  match dex_price dm t with
  | Some v => mkResult t (Some v) (Some Dexscreener) ts
  | None =>
      match slug_price coingecko_id gm t with
      | Some v => mkResult t (Some v) (Some Coingecko) ts
      | None =>
          match slug_price cmc_slug cm t with
          | Some v => mkResult t (Some v) (Some Cmc) ts
          | None => mkResult t None None ts
          end
      end
  end.

(** [m] is the map a call of the adapter returned, or the empty map the
    pipeline substitutes when the call raised or was skipped. *)
Definition map_from (adapter : Run (gmap string (option Q)))
    (m : gmap string (option Q)) : Prop :=
  m = ∅ \/ exists w0 w1, adapter w0 = (Ok m, w1).

(** The decision a write-back loop takes for a token: leave the slot, or
    fill it with a price and a source; [Thrown] for a [TypeError]. *)
Definition Pick : Type := SheetTokenRow -> Res (option (option Q * option Source)).

(** The common shape of the four write-back loops of [fetchAllPrices]. *)
Fixpoint visit (E : Env) (tokens : list SheetTokenRow) (pick : Pick)
    (idxs : list nat) (results : list (option PriceResult))
  : Run (list (option PriceResult)) :=
  match idxs with
  | [] => ret results
  | i :: rest =>
      if filled results i then visit E tokens pick rest results
      else
        t <- token_at tokens i ;;
        match pick t with
        | Thrown => throw
        | Ok None => visit E tokens pick rest results
        | Ok (Some (p, s)) =>
            r <- toPriceResult E (tok_chain t) (contract_address t) p s
                   (tok_symbol t) ;;
            visit E tokens pick rest (<[i := Some r]> results)
        end
  end.

(** Fill with the price [price_of t], when there is one. *)
Definition pick_price (price_of : SheetTokenRow -> option Q)
    (src : option Source) : Pick :=
  fun t =>
    Ok (match price_of t with
        | Some v => Some (Some v, src)
        | None => None
        end).

Definition pick_map (m : gmap string (option Q)) (src : option Source) : Pick :=
  pick_price (dex_price m) src.

Definition pick_slug (slug : SheetTokenRow -> option string)
    (m : gmap string (option Q)) (src : Source) : Pick :=
  fun t =>
    match slug t with
    | None => Thrown
    | Some s =>
        Ok (match price_in m (toLowerCase s) with
            | Some v => Some (Some v, Some src)
            | None => None
            end)
    end.

Definition pick_null : Pick := fun _ => Ok (Some (None, None)).

(** The slot [j] after a write-back loop over [idxs] that started from
    [results]. *)
Definition slot_after (tokens : list SheetTokenRow) (pick : Pick)
    (idxs : list nat) (results : list (option PriceResult)) (j : nat)
    (x : option (option PriceResult)) : Prop :=
  match tokens !! j with
  | Some t =>
      if filled results j then x = results !! j
      else if bool_decide (j ∈ idxs) then
        match pick t with
        | Ok (Some (p, s)) => exists ts, x = Some (Some (mkResult t p s ts))
        | _ => x = results !! j
        end
      else x = results !! j
  | None => x = results !! j
  end.

Definition stage (tokens : list SheetTokenRow) (pick : Pick) (idxs : list nat)
    (results results' : list (option PriceResult)) : Prop :=
  length results' = length results /\
  forall j, slot_after tokens pick idxs results j (results' !! j).

Definition is_priced (p : option Q) : bool :=
  match p with Some _ => true | None => false end.

(** What a run of [fetchAllPrices] on [tokens] yields: the output [out] and
    the adapter invocations [inv], in terms of the maps the adapters
    returned in that run. *)
Definition pipeline_outcome (E : Env) (tokens : list SheetTokenRow)
    (out : list (option PriceResult)) (inv : list (Source * list string))
  : Prop :=
  let need := misses E tokens 0 in
  let ids := keys_for Coingecko tokens (still_pending [Dexscreener] out need) in
  let slugs :=
    keys_for Cmc tokens (still_pending [Dexscreener; Coingecko] out need) in
  exists dm gm cm,
    map_from (fetchDexscreenerBatchByTokens E
                (keys_for Dexscreener tokens need) dexOpts) dm /\
    map_from (fetchCoingeckoBatchByIds E ids geckoOpts) gm /\
    map_from (fetchCmcBatchBySlugs E slugs cmcOpts) cm /\
    length out = length tokens /\
    (forall j t, tokens !! j = Some t ->
       match cached E t with
       | Some c => out !! j = Some (Some c)
       | None => exists ts, out !! j = Some (Some (resolve t dm gm cm ts))
       end) /\
    inv = match need with
          | [] => []
          | _ => (Dexscreener, keys_for Dexscreener tokens need)
                 :: invocation Coingecko ids ++ invocation Cmc slugs
          end.

(** Every map an adapter returns maps every key to unknown. *)
Definition adapters_know_nothing (E : Env) : Prop :=
  (forall ks opts w m w',
     fetchDexscreenerBatchByTokens E ks opts w = (Ok m, w') ->
     forall k, price_in m k = None) /\
  (forall ks opts w m w',
     fetchCoingeckoBatchByIds E ks opts w = (Ok m, w') ->
     forall k, price_in m k = None) /\
  (forall ks opts w m w',
     fetchCmcBatchBySlugs E ks opts w = (Ok m, w') ->
     forall k, price_in m k = None).

(** [source] is unknown exactly when [priceUsd] is. *)
Definition consistent (r : PriceResult) : Prop :=
  source r = None <-> priceUsd r = None.

(** * Further functions of the cited files *)

(** ** vendors/coingecko.ts: single-id lookup *)

(** [fetchCoingeckoPriceById]: the id is sent as given and looked up
    lower-cased in the reply. *)
Definition fetchCoingeckoPriceById (E : Env) (id : string) : Run (option Q) :=
  if negb (nonempty id) then ret None
  else
    res <- catch
             (b <- pRetry 2 (request E (GeckoSimplePrice [id])) ;; ret (Some b))
             (ret None) ;;
    ret (gecko_usd res (toLowerCase id)).

(** [fetchCoingeckoPrice(_chain, _address, fallbackId?)] *)
Definition fetchCoingeckoPrice (E : Env) (_chain _address : string)
    (fallbackId : option string) : Run (option Q) :=
  match fallbackId with
  | Some id => if nonempty id then fetchCoingeckoPriceById E id else ret None
  | None => ret None
  end.

(** ** vendors/dexscreener.ts: fetchDexscreenerQuote *)

(** The quote record; [pairUrl], [dexId] and [pairChainId] are copied from
    fields of the pair that [DexPair] leaves out. *)
Record DexQuote := {
  quote_price : option Q;
  quote_marketCap : option Q;
  quote_volume24h : option Q;
  quote_liquidityUsd : option Q
}.

(** [a ?? b] *)
Definition nullish {A} (a b : option A) : option A :=
  match a with Some _ => a | None => b end.

Definition fetchDexscreenerQuote (E : Env) (address : string) : Run DexQuote :=
  pairs <- fetchDexscreenerPairsByToken E address ;;
  match pickBestPair pairs with
  | None =>
      ret {| quote_price := None; quote_marketCap := None;
             quote_volume24h := None; quote_liquidityUsd := None |}
  | Some best =>
      (* [Number.isFinite(Number(price)) ? Number(price) : null], where
         [Number(null)] is 0 *)
      ret {| quote_price := Some (match pair_priceUsd best with
                                  | Some n => n
                                  | None => 0%Q
                                  end);
             quote_marketCap := nullish (marketCap best) (fdv best);
             quote_volume24h := volume_h24 best;
             quote_liquidityUsd := liquidity_usd best |}
  end.

(** ** core/fetchPrice.ts: fetchPriceForToken *)

(** [if (slug) { p = await lookup(slug).catch(() => null) }] *)
Definition lookup_if_truthy (slug : option string)
    (lookup : string -> Run (option Q)) : Run (option Q) :=
  match slug with
  | Some s => if nonempty s then catch (lookup s) (ret None) else ret None
  | None => ret None
  end.

Definition fetchPriceForToken (E : Env) (t : SheetTokenRow) : Run PriceResult :=
  match cacheGet E (cacheKey (tok_chain t) (contract_address t)) with
  | Some c => ret c
  | None =>
      (* 1) Dexscreener (single) *)
      p1 <- catch (fetchDexscreenerPrice E (contract_address t)) (ret None) ;;
      match p1 with
      | Some v =>
          toPriceResult E (tok_chain t) (contract_address t) (Some v)
            (Some Dexscreener) (tok_symbol t)
      | None =>
          (* 2) CoinGecko by id *)
          p2 <- lookup_if_truthy (coingecko_id t)
                  (fun id => fetchCoingeckoPrice E "" "" (Some id)) ;;
          match p2 with
          | Some v =>
              toPriceResult E (tok_chain t) (contract_address t) (Some v)
                (Some Coingecko) (tok_symbol t)
          | None =>
              (* 3) CMC by slug *)
              p3 <- lookup_if_truthy (cmc_slug t) (fetchCmcPriceBySlug E) ;;
              match p3 with
              | Some v =>
                  toPriceResult E (tok_chain t) (contract_address t) (Some v)
                    (Some Cmc) (tok_symbol t)
              | None =>
                  toPriceResult E (tok_chain t) (contract_address t) None None
                    (tok_symbol t)
              end
          end
      end
  end.

(** ** The token source: normalizeToken of index.ts and of the HTTP front end *)

(** A row of the token list, as the JSON of the web hook carries it: each
    field a string, or absent. *)
Record RawRow := {
  raw_chain : option string;
  raw_cmcChain : option string;
  raw_contract : option string;
  raw_address : option string;
  raw_name : option string;
  raw_symbol : option string;
  raw_geckoId : option string;
  raw_cmcSlug : option string
}.

(** [a || b] on strings that may be absent. *)
Definition or_else (a b : option string) : option string :=
  match a with
  | Some s => if nonempty s then a else b
  | None => b
  end.

(** [String(a || "")] *)
Definition or_empty (a : option string) : string :=
  match a with
  | Some s => s
  | None => ""
  end.

(** [s.replace(/^\$/, "")] *)
Definition strip_dollar (s : string) : string :=
  match s with
  | String c r => if Ascii.eqb c "$"%char then r else s
  | EmptyString => s
  end.

(** [s || undefined] *)
Definition truthy_string (s : string) : option string :=
  if nonempty s then Some s else None.

(** [x.f ? String(x.f).toLowerCase() : null] *)
Definition lower_slug (f : option string) : option string :=
  match f with
  | Some s => if nonempty s then Some (toLowerCase s) else None
  | None => None
  end.

Definition row_chain (x : RawRow) : string :=
  toLowerCase (trim (or_empty (or_else (raw_chain x) (raw_cmcChain x)))).

Definition row_symbol (x : RawRow) : option string :=
  truthy_string (strip_dollar (or_empty (or_else (raw_name x) (raw_symbol x)))).

Module Cron.
  (** index.ts: the address is lower-cased. *)
Definition normalizeToken (x : RawRow) : option SheetTokenRow :=
  let chain := row_chain x in
  let address :=
    toLowerCase (trim (or_empty (or_else (raw_contract x) (raw_address x)))) in
  if (negb (nonempty chain) || negb (nonempty address))%bool then None
  else Some {| tok_chain := chain;
               contract_address := address;
               tok_symbol := row_symbol x;
               coingecko_id := lower_slug (raw_geckoId x);
               cmc_slug := lower_slug (raw_cmcSlug x) |}.

  (** [arr.map(normalizeToken).filter(Boolean)] *)
Definition tokens_of (rows : list RawRow) : list SheetTokenRow :=
  omap normalizeToken rows.
End Cron.

Module Server.
  (** The HTTP front end: the address keeps its case. *)
Definition normalizeToken (x : RawRow) : option SheetTokenRow :=
  let chain := row_chain x in
  let address := trim (or_empty (or_else (raw_contract x) (raw_address x))) in
  if (negb (nonempty chain) || negb (nonempty address))%bool then None
  else Some {| tok_chain := chain;
               contract_address := address;
               tok_symbol := row_symbol x;
               coingecko_id := lower_slug (raw_geckoId x);
               cmc_slug := lower_slug (raw_cmcSlug x) |}.

Definition tokens_of (rows : list RawRow) : list SheetTokenRow :=
  omap normalizeToken rows.
End Server.

(** ** Vocabulary for the further properties *)

(** [m] appends at most [k] events to the log. *)
Definition bounded {A} (k : nat) (m : Run A) : Prop :=
  forall w, exists evs, snd (m w) = w ++ evs /\ (length evs <= k)%nat.

(** The chain tag holds no colon. *)
Fixpoint colon_free (s : string) : bool :=
  match s with
  | EmptyString => true
  | String c r => (negb (Ascii.eqb c ":"%char) && colon_free r)%bool
  end.

(** An entry with a price whose source is [s]. *)
Definition priced_by (s : Source) (p : option PriceResult) : bool :=
  match p with
  | Some r =>
      match priceUsd r, source r with
      | Some _, Some s' => bool_decide (s' = s)
      | _, _ => false
      end
  | None => false
  end.

Definition count_by (s : Source) (prices : list (option PriceResult)) : Z :=
  Z.of_nat (length (List.filter (priced_by s) prices)).

(** The provider a request goes to. *)
Definition asks (p : Source) (e : Event) : Prop :=
  match e with
  | Http (DexTokens _) | Http (DexToken _) => p = Dexscreener
  | Http (GeckoSimplePrice _) => p = Coingecko
  | Http (CmcQuoteBySlug _) | Http (CmcHtml _) | Http (CmcQuoteById _) => p = Cmc
  | _ => False
  end.

(** A request of the CMC lookup of [slug]. *)
Definition cmc_about (slug : string) (e : Event) : Prop :=
  match e with
  | Http (CmcQuoteBySlug s) | Http (CmcHtml s) => s = slug
  | Http (CmcQuoteById _) => True
  | _ => False
  end.

(** [if (slug)] *)
Definition has_slug (slug : option string) : bool :=
  match slug with Some s => nonempty s | None => false end.

(** The first price, in priority order. *)
Definition first_price (d g c : option Q) : option Q * option Source :=
  match d with
  | Some v => (Some v, Some Dexscreener)
  | None =>
      match g with
      | Some v => (Some v, Some Coingecko)
      | None =>
          match c with
          | Some v => (Some v, Some Cmc)
          | None => (None, None)
          end
      end
  end.

(** What both variants of [normalizeToken] guarantee about a token. *)
Definition well_formed_token (t : SheetTokenRow) : Prop :=
  nonempty (tok_chain t) = true /\
  toLowerCase (tok_chain t) = tok_chain t /\
  trim (tok_chain t) = tok_chain t /\
  nonempty (contract_address t) = true /\
  trim (contract_address t) = contract_address t /\
  (forall s, coingecko_id t = Some s -> nonempty s = true /\ toLowerCase s = s) /\
  (forall s, cmc_slug t = Some s -> nonempty s = true /\ toLowerCase s = s).

(** The token with its address lower-cased. *)
Definition with_lower_address (t : SheetTokenRow) : SheetTokenRow :=
  {| tok_chain := tok_chain t;
     contract_address := toLowerCase (contract_address t);
     tok_symbol := tok_symbol t;
     coingecko_id := coingecko_id t;
     cmc_slug := cmc_slug t |}.

(** The pair [p] has [k] as its base or quote token address, case aside. *)
Definition trades (k : string) (p : DexPair) : Prop :=
  toLowerCase (default "" (baseToken_address p)) = k \/
  toLowerCase (default "" (quoteToken_address p)) = k.

(** The token has no cache entry. *)
Definition uncached (E : Env) (t : SheetTokenRow) : bool :=
  match cached E t with Some _ => false | None => true end.

(** Splits a statement about every event of a log into its parts. *)
Ltac split_events :=
  cbn [replicate app]; rewrite ?app_nil_r;
  repeat first
    [ apply Forall_nil_2
    | apply Forall_app; split
    | apply Forall_replicate
    | apply Forall_cons; split ];
  simpl.

(** ** Scenarios used to evaluate the model *)

Definition quiet_clock : World -> string := fun _ => "2025-01-01T00:00:00.000Z".

Definition no_cache : string -> option PriceResult := fun _ => None.

(** Every upstream call fails. *)
Definition net_down : World -> Req -> Outcome := fun _ _ => Failed.

(** Every upstream call is answered, with a body that carries no data. *)
Definition net_silent : World -> Req -> Outcome := fun _ _ => Replied NoBody.

Definition env_down : Env :=
  {| net := net_down; cacheGet := no_cache; clock := quiet_clock |}.

Definition env_silent : Env :=
  {| net := net_silent; cacheGet := no_cache; clock := quiet_clock |}.

(** The example of the specification: Dexscreener knows nothing, CoinGecko
    knows [pepe]. *)
Definition net_pepe : World -> Req -> Outcome :=
  fun _ r =>
    match r with
    | GeckoSimplePrice _ => Replied (GeckoBody {[ "pepe" := 1 # 100000 ]})
    | _ => Replied NoBody
    end.

Definition env_pepe : Env :=
  {| net := net_pepe; cacheGet := no_cache; clock := quiet_clock |}.

Definition tok_pepe : SheetTokenRow :=
  {| tok_chain := "eth"; contract_address := "0xAA"; tok_symbol := None;
     coingecko_id := Some "pepe"; cmc_slug := None |}.

Definition result_sample (p : option Q) (s : option Source) : PriceResult :=
  {| chain := "eth"; address := "0xaa"; symbol := None; priceUsd := p;
     source := s; at_ := "2025-01-01T00:00:00.000Z" |}.

Definition summary_sample : list (option PriceResult) :=
  [ Some (result_sample (Some 1%Q) (Some Dexscreener));
    Some (result_sample None None);
    Some (result_sample (Some (1 # 2)) (Some Cmc));
    None ].

Definition mkPair (addr : string) (price liq vol cap : option Q) : DexPair :=
  {| pair_priceUsd := price; liquidity_usd := liq; fdv := cap;
     marketCap := None; volume_h24 := vol;
     baseToken_address := Some addr; quoteToken_address := None |}.

Definition pair_thin : DexPair := mkPair "0xaa" (Some 2%Q) (Some 10%Q) (Some 5%Q) None.
Definition pair_deep : DexPair := mkPair "0xaa" (Some 3%Q) (Some 900%Q) (Some 1%Q) None.
Definition pair_unpriced : DexPair := mkPair "0xaa" None (Some 5000%Q) None None.

Definition pairs_sample : list DexPair := [pair_thin; pair_deep; pair_unpriced].

(** Thirty-one distinct addresses. *)
Definition addresses31 : list string :=
  [ "0xA01"; "0xA02"; "0xA03"; "0xA04"; "0xA05"; "0xA06"; "0xA07";
    "0xA08"; "0xA09"; "0xA10"; "0xA11"; "0xA12"; "0xA13"; "0xA14";
    "0xA15"; "0xA16"; "0xA17"; "0xA18"; "0xA19"; "0xA20"; "0xA21";
    "0xA22"; "0xA23"; "0xA24"; "0xA25"; "0xA26"; "0xA27"; "0xA28";
    "0xA29"; "0xA30"; "0xA31" ].

(** How many upstream requests of a log name the identifier [id]. *)
Definition times_queried (id : string) (w : World) : nat :=
  length (List.filter (fun r => bool_decide (id ∈ req_ids r)) (requests w)).

(** A cache that holds a priced record for [eth:0xaa], with the upstream
    unreachable. *)
Definition cached_pepe : PriceResult :=
  {| chain := "eth"; address := "0xaa"; symbol := None; priceUsd := Some 1%Q;
     source := Some Dexscreener; at_ := "2024-12-31T23:58:00.000Z" |}.

Definition cache_pepe : string -> option PriceResult :=
  fun k => if String.eqb k "price:eth:0xaa" then Some cached_pepe else None.

Definition env_cached : Env :=
  {| net := net_down; cacheGet := cache_pepe; clock := quiet_clock |}.

(** The same address on another chain, not cached. *)
Definition tok_pepe_bsc : SheetTokenRow :=
  {| tok_chain := "bsc"; contract_address := "0xAA"; tok_symbol := None;
     coingecko_id := None; cmc_slug := None |}.

(** One asset on two chains: two addresses, one CoinGecko id.  Dexscreener
    knows the first address only. *)
Definition tok_usdc_eth : SheetTokenRow :=
  {| tok_chain := "eth"; contract_address := "0xaa"; tok_symbol := None;
     coingecko_id := Some "usd-coin"; cmc_slug := None |}.

Definition tok_usdc_bsc : SheetTokenRow :=
  {| tok_chain := "bsc"; contract_address := "0xbb"; tok_symbol := None;
     coingecko_id := Some "usd-coin"; cmc_slug := None |}.

Definition net_dex_knows_aa : World -> Req -> Outcome :=
  fun _ r =>
    match r with
    | DexTokens _ =>
        Replied (DexBody [mkPair "0xaa" (Some 1%Q) (Some 100%Q) None None])
    | _ => Replied NoBody
    end.

Definition env_usdc : Env :=
  {| net := net_dex_knows_aa; cacheGet := no_cache; clock := quiet_clock |}.

(** The first upstream call is answered with a priced pair for [0xaa];
    every later call fails. *)
Definition net_flaky : World -> Req -> Outcome :=
  fun h _ =>
    match h with
    | [] => Replied (DexBody [mkPair "0xaa" (Some 1%Q) (Some 100%Q) None None])
    | _ => Failed
    end.

Definition env_flaky : Env :=
  {| net := net_flaky; cacheGet := no_cache; clock := quiet_clock |}.

Definition one_by_one : BatchOpts :=
  {| batchSize := Some 1%nat; delayMs := None; timeoutMs := None;
     retries := Some 0%nat |}.

(** An upstream that prices every address it is asked about. *)
Definition generous_pair (a : string) : DexPair :=
  mkPair a (Some 1%Q) (Some 100%Q) None None.

Definition net_generous : World -> Req -> Outcome :=
  fun _ r =>
    match r with
    | DexTokens ids => Replied (DexBody (map generous_pair ids))
    | _ => Replied NoBody
    end.

Definition env_generous : Env :=
  {| net := net_generous; cacheGet := no_cache; clock := quiet_clock |}.

(** A row of the token list as the web hook sends it. *)
Definition row_pepe : RawRow :=
  {| raw_chain := Some " ETH "; raw_cmcChain := None;
     raw_contract := Some " 0xAA "; raw_address := None;
     raw_name := Some "$PEPE"; raw_symbol := None;
     raw_geckoId := Some "Pepe"; raw_cmcSlug := None |}.

(** Every provider answers the single lookups. *)
Definition net_single : World -> Req -> Outcome :=
  fun _ r =>
    match r with
    | DexToken _ => Replied (DexBody pairs_sample)
    | GeckoSimplePrice _ => Replied (GeckoBody {[ "pepe" := 1 # 100000 ]})
    | CmcQuoteBySlug _ => Replied (CmcQuoteBody (Some 2%Q))
    | _ => Replied NoBody
    end.

Definition env_single : Env :=
  {| net := net_single; cacheGet := no_cache; clock := quiet_clock |}.

(** * Properties *)

(** ** summarize *)

Lemma summarize_step_withPrice acc p :
  snd (summarize_step acc p) = (snd acc + if priced p then 1 else 0)%Z.
Proof.
  destruct acc as [bs wp]; destruct p as [r|]; simpl; [|lia].
  destruct (priceUsd r); simpl; lia.
Qed.

Lemma summarize_step_bySource acc p :
  sourced p ->
  bySource_sum (fst (summarize_step acc p))
  = (bySource_sum (fst acc) + if priced p then 1 else 0)%Z.
Proof.
  destruct acc as [bs wp]; destruct p as [r|]; simpl; [|lia].
  unfold bySource_sum. destruct (priceUsd r) as [q|]; simpl; [|lia].
  intros Hs. destruct (source r) as [[]|]; simpl; try lia.
  exfalso. by apply Hs.
Qed.

Lemma fold_summarize_withPrice prices acc :
  snd (fold_left summarize_step prices acc) = (snd acc + count_priced prices)%Z.
Proof.
  revert acc. unfold count_priced.
  induction prices as [|p prices IH]; intros acc; simpl; [lia|].
  rewrite IH, summarize_step_withPrice.
  destruct (priced p); simpl; lia.
Qed.

Lemma fold_summarize_bySource prices acc :
  Forall sourced prices ->
  bySource_sum (fst (fold_left summarize_step prices acc))
  = (bySource_sum (fst acc) + count_priced prices)%Z.
Proof.
  revert acc. unfold count_priced.
  induction prices as [|p prices IH]; intros acc Hall; simpl; [lia|].
  inversion Hall as [|? ? Hp Hrest]; subst.
  rewrite (IH _ Hrest), (summarize_step_bySource _ _ Hp).
  destruct (priced p); simpl; lia.
Qed.

(** C10. For every list of results, [summarize] reports [total] = the length
    of the list, [withPrice] = the number of entries with a non-null price,
    [nulls] = [total - withPrice], and the three [bySource] counters add up
    to [withPrice] whenever every priced entry names one of the three
    providers. *)
Theorem summarize_counts (prices : list (option PriceResult)) :
  total (totals (summarize prices)) = Z.of_nat (length prices) /\
  withPrice (totals (summarize prices)) = count_priced prices /\
  nulls (totals (summarize prices))
  = (total (totals (summarize prices)) - withPrice (totals (summarize prices)))%Z /\
  (Forall sourced prices ->
   bySource_sum (bySource (summarize prices))
   = withPrice (totals (summarize prices))).
Proof.
  unfold summarize.
  pose proof (fold_summarize_withPrice prices
    ({| n_dexscreener := 0; n_coingecko := 0; n_cmc := 0 |}, 0%Z)) as Hw.
  pose proof (fold_summarize_bySource prices
    ({| n_dexscreener := 0; n_coingecko := 0; n_cmc := 0 |}, 0%Z)) as Hb.
  destruct (fold_left summarize_step prices _) as [bs wp]; simpl in *.
  repeat split; try lia.
  intros Hall. rewrite (Hb Hall). unfold bySource_sum; simpl. lia.
Qed.

Lemma summarize_counts_witness :
  bySource_sum (bySource (summarize summary_sample))
  = withPrice (totals (summarize summary_sample)).
Proof.
  apply (proj2 (proj2 (proj2 (summarize_counts summary_sample)))).
  unfold summary_sample. repeat constructor; simpl; congruence.
Defined.

(** ** pickBestPair *)

Section Sorting.
Context {A : Type} (cmp : A -> A -> Q).
Hypothesis cmp_refl : forall a, (cmp a a <= 0)%Q.
Hypothesis cmp_flip : forall a b, (0 < cmp a b)%Q -> (cmp b a <= 0)%Q.
Hypothesis cmp_trans :
  forall a b c, (cmp a b <= 0)%Q -> (cmp b c <= 0)%Q -> (cmp a c <= 0)%Q.

Lemma Qltb_true x y : Qltb x y = true <-> (x < y)%Q.
Proof.
  unfold Qltb. rewrite negb_true_iff.
  destruct (Qle_bool y x) eqn:Hle.
  - apply Qle_bool_iff in Hle. split; [discriminate|]. intros Hlt.
    exfalso. exact (Qlt_not_le _ _ Hlt Hle).
  - split; [|reflexivity]. intros _. apply Qnot_le_lt. intros Hle'.
    apply Qle_bool_iff in Hle'. congruence.
Qed.

Lemma Qltb_false x y : Qltb x y = false <-> (y <= x)%Q.
Proof.
  unfold Qltb. rewrite negb_false_iff. apply Qle_bool_iff.
Qed.

Lemma insert_sorted_elem x y l : y ∈ insert_sorted cmp x l <-> y = x \/ y ∈ l.
Proof.
  induction l as [|z l IH]; simpl.
  - rewrite list_elem_of_singleton, elem_of_nil. tauto.
  - destruct (Qltb 0 (cmp x z)); rewrite !elem_of_cons; [rewrite IH|]; tauto.
Qed.

Lemma sort_elem y l : y ∈ sort cmp l <-> y ∈ l.
Proof.
  induction l as [|x l IH]; simpl; [reflexivity|].
  rewrite insert_sorted_elem, elem_of_cons, IH. tauto.
Qed.

Lemma sort_head_first l b :
  head (sort cmp l) = Some b -> b ∈ l /\ forall p, p ∈ l -> (cmp b p <= 0)%Q.
Proof.
  revert b. induction l as [|x l IH]; intros b; simpl; [discriminate|].
  destruct (sort cmp l) as [|h s] eqn:Hs; simpl.
  - intros [= <-]. split; [left|]. intros p Hp.
    apply elem_of_cons in Hp as [->|Hp]; [apply cmp_refl|].
    apply sort_elem in Hp. rewrite Hs in Hp. by apply elem_of_nil in Hp.
  - destruct (IH h eq_refl) as [Hh Hmin].
    destruct (Qltb 0 (cmp x h)) eqn:Hc; simpl; intros [= <-].
    + apply Qltb_true in Hc. split; [by right|]. intros p Hp.
      apply elem_of_cons in Hp as [->|Hp]; [by apply cmp_flip|by apply Hmin].
    + apply Qltb_false in Hc. split; [left|]. intros p Hp.
      apply elem_of_cons in Hp as [->|Hp]; [apply cmp_refl|].
      eapply cmp_trans; [exact Hc|by apply Hmin].
Qed.

Lemma sort_head_nonempty l : l <> [] -> head (sort cmp l) <> None.
Proof.
  destruct l as [|x l]; [congruence|]. intros _ Hnone.
  assert (x ∈ sort cmp (x :: l)) as Hx by (apply sort_elem; left).
  destruct (sort cmp (x :: l)); [by apply elem_of_nil in Hx|discriminate].
Qed.
End Sorting.

Lemma comparePairs_le a b :
  (comparePairs a b <= 0)%Q <-> at_least_as_good a b.
Proof.
  unfold comparePairs, at_least_as_good.
  destruct (Qeq_bool (liq_of b) (liq_of a)) eqn:Hl; simpl.
  - apply Qeq_bool_iff in Hl.
    destruct (Qeq_bool (vol_of b) (vol_of a)) eqn:Hv; simpl.
    + apply Qeq_bool_iff in Hv. split.
      * intros H. right. split; [lra|]. right. split; lra.
      * intros [H|[_ [H|[_ H]]]]; lra.
    + apply Qeq_bool_neq in Hv. split.
      * intros H. right. split; [lra|]. left.
        destruct (Q_dec (vol_of b) (vol_of a)) as [[H'|H']|H']; [lra|lra|].
        by destruct Hv.
      * intros [H|[_ [H|[H _]]]]; [lra|lra|].
        destruct Hv. lra.
  - apply Qeq_bool_neq in Hl. split.
    + intros H. left.
      destruct (Q_dec (liq_of b) (liq_of a)) as [[H'|H']|H']; [lra|lra|].
      by destruct Hl.
    + intros [H|[H _]]; [lra|]. destruct Hl. lra.
Qed.

Lemma at_least_as_good_refl a : at_least_as_good a a.
Proof. unfold at_least_as_good. right. split; [lra|]. right. split; lra. Qed.

Lemma at_least_as_good_total a b :
  at_least_as_good a b \/ at_least_as_good b a.
Proof.
  unfold at_least_as_good.
  destruct (Q_dec (liq_of a) (liq_of b)) as [[H|H]|H]; [right; left; lra|left; left; lra|].
  destruct (Q_dec (vol_of a) (vol_of b)) as [[H'|H']|H'].
  - right. right. split; [lra|]. left. lra.
  - left. right. split; [lra|]. left. lra.
  - destruct (Qlt_le_dec (cap_of a) (cap_of b)).
    + right. right. split; [lra|]. right. split; lra.
    + left. right. split; [lra|]. right. split; lra.
Qed.

Lemma at_least_as_good_trans a b c :
  at_least_as_good a b -> at_least_as_good b c -> at_least_as_good a c.
Proof.
  unfold at_least_as_good.
  intros [H1|[H1 [H1'|[H1' H1'']]]] [H2|[H2 [H2'|[H2' H2'']]]];
    try (left; lra);
    try (right; split; [lra|]; left; lra).
  right. split; [lra|]. right. split; lra.
Qed.

Lemma has_price_true p : has_price p = true <-> pair_priceUsd p <> None.
Proof. unfold has_price. destruct (pair_priceUsd p); split; congruence. Qed.

(** C9. Among the pairs with a known price, [pickBestPair] returns one with
    the highest USD liquidity; among those with equal liquidity one with the
    highest 24h volume; among those with equal volume one with the highest
    market cap (FDV when there is no market cap); and whenever some pair has
    a price the selection is not null. *)
Theorem pickBestPair_best (pairs : list DexPair) :
  (forall best, pickBestPair pairs = Some best ->
     best ∈ pairs /\ pair_priceUsd best <> None /\
     forall p, p ∈ pairs -> pair_priceUsd p <> None -> at_least_as_good best p) /\
  ((exists p, p ∈ pairs /\ pair_priceUsd p <> None) -> pickBestPair pairs <> None).
Proof.
  unfold pickBestPair. split.
  - intros best Hbest.
    apply (sort_head_first comparePairs) in Hbest as [Hin Hmin].
    + apply list_elem_of_In, filter_In in Hin as [Hin Hp].
      split; [by apply list_elem_of_In|]. split; [by apply has_price_true|].
      intros p Hpin Hpp. apply comparePairs_le. apply Hmin.
      apply list_elem_of_In, filter_In. split; [by apply list_elem_of_In|].
      by apply has_price_true.
    + intros a. apply comparePairs_le, at_least_as_good_refl.
    + intros a b Hab. apply comparePairs_le.
      destruct (at_least_as_good_total b a) as [H|H]; [done|].
      apply comparePairs_le in H. lra.
    + intros a b c Hab Hbc. apply comparePairs_le.
      eapply at_least_as_good_trans; by apply comparePairs_le.
  - intros (p & Hin & Hp). apply sort_head_nonempty.
    intros Hnil.
    assert (In p (List.filter has_price pairs)) as Hf.
    { apply filter_In. split; [by apply list_elem_of_In|by apply has_price_true]. }
    rewrite Hnil in Hf. destruct Hf.
Qed.

Lemma pickBestPair_best_witness :
  exists best, pickBestPair pairs_sample = Some best /\
               at_least_as_good best pair_deep.
Proof.
  exists pair_deep. split; [reflexivity|].
  apply (proj1 (pickBestPair_best pairs_sample) pair_deep eq_refl).
  - unfold pairs_sample. apply elem_of_cons. right. apply elem_of_cons. by left.
  - discriminate.
Defined.

(** ** Strings *)

Lemma lower_ascii_idem c : lower_ascii (lower_ascii c) = lower_ascii c.
Proof. destruct c as [[] [] [] [] [] [] [] []]; reflexivity. Qed.

Lemma toLowerCase_idem s : toLowerCase (toLowerCase s) = toLowerCase s.
Proof. induction s as [|c s IH]; simpl; [done|]. by rewrite lower_ascii_idem, IH. Qed.

Lemma nonempty_toLowerCase s : nonempty (toLowerCase s) = nonempty s.
Proof. by destruct s. Qed.

Lemma nonempty_true s : nonempty s = true <-> s <> "".
Proof. destruct s; simpl; split; congruence. Qed.

Lemma trimStart_clean s : starts_clean (trimStart s).
Proof.
  induction s as [|c s IH]; simpl; [done|].
  destruct (is_ws c) eqn:Hc; [done|]. simpl. done.
Qed.

Lemma trimStart_of_clean s : starts_clean s -> trimStart s = s.
Proof. destruct s as [|c s]; simpl; [done|]. by intros ->. Qed.

Lemma trimEnd_clean s : starts_clean s -> starts_clean (trimEnd s).
Proof.
  destruct s as [|c s]; simpl; [done|]. intros Hc.
  destruct (trimEnd s); simpl; by rewrite ?Hc.
Qed.

Lemma trimEnd_idem s : trimEnd (trimEnd s) = trimEnd s.
Proof.
  induction s as [|c s IH]; simpl; [done|].
  destruct (trimEnd s) as [|d r] eqn:Hr.
  - destruct (is_ws c) eqn:Hc; simpl; [done|]. by rewrite Hc.
  - simpl. simpl in IH. by rewrite IH.
Qed.

Lemma trim_idem s : trim (trim s) = trim s.
Proof.
  unfold trim. rewrite (trimStart_of_clean (trimEnd (trimStart s))).
  - apply trimEnd_idem.
  - apply trimEnd_clean, trimStart_clean.
Qed.

(** ** The run predicates *)

Lemma appends_mono {A} (P P' : Event -> Prop) (m : Run A) :
  (forall e, P e -> P' e) -> appends P m -> appends P' m.
Proof.
  intros HP Hm w. destruct (Hm w) as (evs & Hw & Hall).
  exists evs. split; [done|]. eapply Forall_impl; eauto.
Qed.

Lemma appends_ret {A} P (a : A) : appends P (ret a).
Proof. intros w. exists []. simpl. by rewrite app_nil_r. Qed.

Lemma appends_throw {A} P : appends P (@throw A).
Proof. intros w. exists []. simpl. by rewrite app_nil_r. Qed.

Lemma appends_emit P e : P e -> appends P (emit e).
Proof. intros He w. exists [e]. simpl. split; [done|]. by constructor. Qed.

Lemma appends_request P E r : P (Http r) -> appends P (request E r).
Proof. intros He w. exists [Http r]. simpl. split; [done|]. by constructor. Qed.

Lemma appends_bind {A B} P (m : Run A) (k : A -> Run B) :
  appends P m -> (forall a, appends P (k a)) -> appends P (bind m k).
Proof.
  intros Hm Hk w. unfold bind. destruct (Hm w) as (evs & Hw & Hall).
  destruct (m w) as [[a|] w1]; simpl in *; subst w1.
  - destruct (Hk a (w ++ evs)) as (evs' & Hw' & Hall').
    exists (evs ++ evs'). rewrite Hw', app_assoc. split; [done|].
    by apply Forall_app.
  - by exists evs.
Qed.

Lemma appends_catch {A} P (m h : Run A) :
  appends P m -> appends P h -> appends P (catch m h).
Proof.
  intros Hm Hh w. unfold catch. destruct (Hm w) as (evs & Hw & Hall).
  destruct (m w) as [[a|] w1]; simpl in *; subst w1.
  - by exists evs.
  - destruct (Hh (w ++ evs)) as (evs' & Hw' & Hall').
    exists (evs ++ evs'). rewrite Hw', app_assoc. split; [done|].
    by apply Forall_app.
Qed.

Lemma appends_pRetry {A} P n (action : Run A) :
  appends P action -> appends P (pRetry n action).
Proof.
  intros Ha. induction n as [|n IH]; intros w; simpl;
    destruct (Ha w) as (evs & Hw & Hall);
    destruct (action w) as [[a|] w1]; simpl in *; subst w1;
    try (by exists evs).
  destruct (IH (w ++ evs)) as (evs' & Hw' & Hall').
  exists (evs ++ evs'). rewrite Hw', app_assoc. split; [done|].
  by apply Forall_app.
Qed.

Lemma appends_mapM {A B} P (f : A -> Run B) l :
  (forall x, appends P (f x)) -> appends P (mapM f l).
Proof.
  intros Hf. induction l as [|x l IH]; simpl; [apply appends_ret|].
  apply appends_bind; [apply Hf|]. intros y.
  apply appends_bind; [apply IH|]. intros ys. apply appends_ret.
Qed.

Lemma appends_if {A} P (b : bool) (m1 m2 : Run A) :
  appends P m1 -> appends P m2 -> appends P (if b then m1 else m2).
Proof. by destruct b. Qed.

Lemma returns_ret {A} (Q : A -> Prop) a : Q a -> returns Q (ret a).
Proof. intros Ha w. by exists a, w. Qed.

Lemma returns_mono {A} (Q Q' : A -> Prop) (m : Run A) :
  (forall a, Q a -> Q' a) -> returns Q m -> returns Q' m.
Proof.
  intros HQ Hm w. destruct (Hm w) as (a & w' & Hr & Ha). exists a, w'. auto.
Qed.

Lemma returns_bind {A B} (Q1 : A -> Prop) (Q2 : B -> Prop) (m : Run A)
    (k : A -> Run B) :
  returns Q1 m -> (forall a, Q1 a -> returns Q2 (k a)) -> returns Q2 (bind m k).
Proof.
  intros Hm Hk w. unfold bind. destruct (Hm w) as (a & w1 & -> & Ha).
  apply (Hk a Ha).
Qed.

Lemma on_ok_ret {A} (Q : A -> Prop) a : Q a -> on_ok Q (ret a).
Proof. intros Ha w a' w' [= <- <-]. done. Qed.

Lemma on_ok_throw {A} (Q : A -> Prop) : on_ok Q throw.
Proof. intros w a w' [=]. Qed.

Lemma on_ok_bind {A B} (Q1 : A -> Prop) (Q2 : B -> Prop) (m : Run A)
    (k : A -> Run B) :
  on_ok Q1 m -> (forall a, Q1 a -> on_ok Q2 (k a)) -> on_ok Q2 (bind m k).
Proof.
  intros Hm Hk w b w'. unfold bind.
  destruct (m w) as [[a|] w1] eqn:Hmw; [|discriminate].
  intros Hkw. eapply Hk; eauto.
Qed.

Lemma on_ok_catch {A} (Q : A -> Prop) (m h : Run A) :
  on_ok Q m -> on_ok Q h -> on_ok Q (catch m h).
Proof.
  intros Hm Hh w a w'. unfold catch.
  destruct (m w) as [[a1|] w1] eqn:Hmw.
  - intros [= <- <-]. eauto.
  - intros Hhw. eauto.
Qed.

Lemma on_ok_pRetry {A} (Q : A -> Prop) n (action : Run A) :
  on_ok Q action -> on_ok Q (pRetry n action).
Proof.
  intros Ha. induction n as [|n IH]; intros w a w'; simpl;
    destruct (action w) as [[a1|] w1] eqn:Haw;
    try (intros [= <- <-]; eauto); try discriminate.
  intros Hr. eauto.
Qed.

Lemma on_ok_true {A} (m : Run A) : on_ok (fun _ => True) m.
Proof. by intros w a w' _. Qed.

Lemma returns_on_ok {A} (Q : A -> Prop) (m : Run A) : returns Q m -> on_ok Q m.
Proof.
  intros Hm w a w' Hr. destruct (Hm w) as (a' & w'' & Hr' & Ha).
  rewrite Hr in Hr'. by injection Hr' as <- <-.
Qed.

(** [try { m } catch { h }] never throws when the handler never does. *)
Lemma returns_catch {A} (Q : A -> Prop) (m h : Run A) :
  on_ok Q m -> returns Q h -> returns Q (catch m h).
Proof.
  intros Hm Hh w. unfold catch. destruct (m w) as [[a|] w1] eqn:Hmw.
  - exists a, w1. eauto.
  - apply Hh.
Qed.

Lemma returns_pRetry {A} (Q : A -> Prop) n (action : Run A) :
  returns Q action -> returns Q (pRetry n action).
Proof.
  intros Ha w. destruct (Ha w) as (a & w' & Hr & HQ).
  exists a, w'. split; [|done]. destruct n; simpl; by rewrite Hr.
Qed.

Lemma returns_mapM {A B} (f : A -> Run B) l :
  (forall x, returns (fun _ => True) (f x)) ->
  returns (fun ys => length ys = length l) (mapM f l).
Proof.
  intros Hf. induction l as [|x l IH]; simpl; [by apply returns_ret|].
  eapply returns_bind; [apply Hf|]. intros y _.
  eapply returns_bind; [apply IH|]. intros ys Hys.
  apply returns_ret. simpl. by rewrite Hys.
Qed.

(** ** De-duplication, sub-batches, prefill *)

Section Uniq.
Context {A : Type} (key : A -> string).

Lemma uniq_loop_elem seen l x :
  x ∈ uniq_loop key seen l -> x ∈ l /\ key x ∉ seen.
Proof.
  revert seen. induction l as [|r l IH]; intros seen; simpl.
  - intros H. by apply elem_of_nil in H.
  - destruct (decide (key r ∈ seen)) as [Hin|Hnin].
    + intros H. apply IH in H as [H1 H2]. split; [by right|done].
    + intros H. apply elem_of_cons in H as [Heq|H].
      * subst x. split; [by left|done].
      * apply IH in H as [H1 H2]. split; [by right|].
        intros Hk. apply H2, elem_of_union. by right.
Qed.

Lemma uniq_loop_NoDup seen l : NoDup (map key (uniq_loop key seen l)).
Proof.
  revert seen. induction l as [|r l IH]; intros seen; simpl; [constructor|].
  destruct (decide (key r ∈ seen)) as [Hin|Hnin]; [apply IH|].
  simpl. constructor; [|apply IH].
  intros Hk. apply list_elem_of_fmap in Hk as (x & Hkx & Hx).
  apply uniq_loop_elem in Hx as [_ Hx]. rewrite <- Hkx in Hx. set_solver.
Qed.

Lemma uniq_loop_covers seen l x :
  x ∈ l -> key x ∈ seen \/ key x ∈ map key (uniq_loop key seen l).
Proof.
  revert seen. induction l as [|r l IH]; intros seen Hx; simpl.
  - by apply elem_of_nil in Hx.
  - apply elem_of_cons in Hx as [->|Hx].
    + destruct (decide (key r ∈ seen)); [by left|]. right. simpl. by left.
    + destruct (decide (key r ∈ seen)) as [Hin|Hnin]; [by apply IH|].
      destruct (IH ({[key r]} ∪ seen) Hx) as [H|H].
      * apply elem_of_union in H as [H|H]; [|by left].
        apply elem_of_singleton in H. right. simpl. rewrite H. by left.
      * right. simpl. by right.
Qed.

Lemma uniq_loop_id seen l :
  NoDup (map key l) -> (forall x, x ∈ l -> key x ∉ seen) ->
  uniq_loop key seen l = l.
Proof.
  revert seen. induction l as [|r l IH]; intros seen Hnd Hseen; simpl; [done|].
  inversion Hnd as [|? ? Hr Hnd']; subst.
  destruct (decide (key r ∈ seen)) as [Hin|Hnin].
  - exfalso. apply (Hseen r); [by left|done].
  - f_equal. apply IH; [done|]. intros x Hx Hk.
    apply elem_of_union in Hk as [Hk|Hk].
    + apply elem_of_singleton in Hk. apply Hr. rewrite <- Hk.
      by apply list_elem_of_fmap_2.
    + apply (Hseen x); [by right|done].
Qed.

Lemma uniq_loop_idem l :
  uniq_loop key ∅ (uniq_loop key ∅ l) = uniq_loop key ∅ l.
Proof.
  apply uniq_loop_id; [apply uniq_loop_NoDup|]. intros x _. set_solver.
Qed.

Lemma prefill_fold_lookup (u : list A) (out : gmap string (option Q)) k :
  is_Some (fold_left (fun out r => <[key r := None]> out) u out !! k)
  <-> is_Some (out !! k) \/ k ∈ map key u.
Proof.
  revert out. induction u as [|r u IH]; intros out; simpl.
  - rewrite elem_of_nil. tauto.
  - rewrite IH, elem_of_cons. destruct (decide (key r = k)) as [->|Hne].
    + rewrite lookup_insert_eq. split; [intros _; right; by left|].
      intros _. left. by eexists.
    + rewrite lookup_insert_ne by done. split; [tauto|].
      intros [H|[H|H]]; [tauto|congruence|tauto].
Qed.

Lemma prefill_lookup (u : list A) k :
  is_Some (prefill key u !! k) <-> k ∈ map key u.
Proof.
  unfold prefill. rewrite prefill_fold_lookup, lookup_empty.
  split; [intros [[? [=]]|H]; done|by right].
Qed.
End Uniq.

Section Chunk.
Context {A : Type}.

Lemma chunk_rounds_concat rounds size (arr : list A) :
  (1 <= size)%nat -> (length arr <= rounds)%nat ->
  concat (chunk_rounds rounds size arr) = arr.
Proof.
  intros Hsize. revert arr.
  induction rounds as [|n IH]; intros arr Hlen; simpl.
  - destruct arr; [done|simpl in Hlen; lia].
  - destruct arr as [|x arr]; [done|]. simpl concat.
    rewrite IH; [apply take_drop|].
    rewrite length_drop. simpl in *. lia.
Qed.

Lemma chunk_concat (arr : list A) size :
  (1 <= size)%nat -> concat (chunk arr size) = arr.
Proof. intros H. by apply chunk_rounds_concat. Qed.

Lemma chunk_rounds_sizes rounds size (arr : list A) :
  Forall (fun c => (length c <= size)%nat) (chunk_rounds rounds size arr).
Proof.
  revert arr. induction rounds as [|n IH]; intros arr; simpl; [constructor|].
  destruct arr as [|x arr]; [constructor|].
  constructor; [|apply IH]. rewrite length_take. lia.
Qed.

Lemma chunk_rounds_enough r1 r2 size (arr : list A) :
  (1 <= size)%nat -> (length arr <= r1)%nat -> (length arr <= r2)%nat ->
  chunk_rounds r1 size arr = chunk_rounds r2 size arr.
Proof.
  intros Hsize. revert r2 arr.
  induction r1 as [|n IH]; intros r2 arr H1 H2.
  - destruct arr; [|simpl in H1; lia]. by destruct r2.
  - destruct arr as [|x arr]; [by destruct r2|].
    destruct r2 as [|m]; [simpl in H2; lia|]. simpl. f_equal.
    apply IH; rewrite length_drop; simpl in *; lia.
Qed.

Lemma chunk_cons (arr : list A) size :
  (1 <= size)%nat -> arr <> [] ->
  chunk arr size = take size arr :: chunk (drop size arr) size.
Proof.
  intros Hsize Hne. unfold chunk.
  destruct arr as [|x arr]; [done|]. simpl length. simpl chunk_rounds.
  f_equal. apply chunk_rounds_enough; [done| |done].
  rewrite length_drop. simpl. lia.
Qed.

Lemma chunk_nil size : chunk (@nil A) size = [].
Proof. reflexivity. Qed.
End Chunk.

(** ** The Dexscreener adapter *)

Lemma fetchDexscreenerPrice_appends P E a :
  P (Http (DexToken a)) -> appends P (fetchDexscreenerPrice E a).
Proof.
  intros HP. unfold fetchDexscreenerPrice, fetchDexscreenerPairsByToken.
  apply appends_pRetry, appends_bind.
  - apply appends_bind; [by apply appends_request|]. intros b. apply appends_ret.
  - intros ps. apply appends_ret.
Qed.

Lemma dex_fallback_appends P E n chunk out :
  (forall a, P (Http (DexToken a))) -> appends P (dex_fallback E n chunk out).
Proof.
  intros HP. revert out. induction chunk as [|c chunk IH]; intros out; simpl.
  - apply appends_ret.
  - apply appends_bind; [|intros out'; apply IH].
    apply appends_catch; [|apply appends_ret].
    apply appends_bind; [|intros p; apply appends_ret].
    apply appends_pRetry, fetchDexscreenerPrice_appends, HP.
Qed.

Lemma dex_loop_appends P E n chunks out :
  (forall chunk, chunk ∈ chunks -> P (Http (DexTokens (map original chunk)))) ->
  (forall a, P (Http (DexToken a))) ->
  appends P (dex_loop E n chunks out).
Proof.
  intros Hg Hs. revert out. induction chunks as [|chunk chunks IH]; intros out; simpl.
  - apply appends_ret.
  - apply appends_bind.
    + apply appends_pRetry, appends_request, Hg. by left.
    + intros res. apply appends_bind.
      * apply appends_if; [by apply dex_fallback_appends|apply appends_ret].
      * intros out2. apply IH. intros c Hc. apply Hg. by right.
Qed.

Lemma dex_batchSize_bounds opts :
  (1 <= dex_batchSize opts)%nat /\ (dex_batchSize opts <= 30)%nat.
Proof. unfold dex_batchSize. lia. Qed.

Lemma fetchDexscreenerBatchByTokens_http E addresses opts :
  appends is_http (fetchDexscreenerBatchByTokens E addresses opts).
Proof.
  unfold fetchDexscreenerBatchByTokens. by apply dex_loop_appends.
Qed.

Lemma fetchDexscreenerBatchByTokens_at_most_30 E addresses opts :
  appends at_most_30 (fetchDexscreenerBatchByTokens E addresses opts).
Proof.
  unfold fetchDexscreenerBatchByTokens. apply dex_loop_appends.
  - intros c Hc. simpl. rewrite length_map.
    pose proof (chunk_rounds_sizes (length (dex_uniq addresses))
                  (dex_batchSize opts) (dex_uniq addresses)) as Hall.
    rewrite Forall_forall in Hall. specialize (Hall c Hc). simpl in Hall.
    pose proof (dex_batchSize_bounds opts). lia.
  - intros a. simpl. lia.
Qed.

Lemma assign_chunk_keeps grouped chunk (out : gmap string (option Q)) k :
  is_Some (out !! k) -> is_Some (assign_chunk grouped chunk out !! k).
Proof.
  unfold assign_chunk. revert out.
  induction chunk as [|c chunk IH]; intros out Hk; simpl; [done|].
  apply IH. destruct (decide (key c = k)) as [->|Hne].
  - rewrite lookup_insert_eq. by eexists.
  - by rewrite lookup_insert_ne.
Qed.

Lemma dex_fallback_returns E n chunk (out : gmap string (option Q)) :
  returns (fun m => forall k, is_Some (out !! k) -> is_Some (m !! k))
          (dex_fallback E n chunk out).
Proof.
  revert out. induction chunk as [|c chunk IH]; intros out; simpl.
  - by apply returns_ret.
  - eapply returns_bind.
    + apply (returns_catch
               (fun m => forall k, is_Some (out !! k) -> is_Some (m !! k)));
        [|by apply returns_ret].
      eapply on_ok_bind; [apply on_ok_true|]. intros [v|] _; apply on_ok_ret; [|done].
      intros k Hk. destruct (decide (key c = k)) as [->|Hne].
      * rewrite lookup_insert_eq. by eexists.
      * by rewrite lookup_insert_ne.
    + intros out' Hout'. eapply returns_mono; [|apply IH].
      intros m Hm k Hk. apply Hm, Hout', Hk.
Qed.

Lemma dex_loop_keeps E n chunks (out : gmap string (option Q)) :
  on_ok (fun m => forall k, is_Some (out !! k) -> is_Some (m !! k))
        (dex_loop E n chunks out).
Proof.
  revert out. induction chunks as [|chunk chunks IH]; intros out; simpl.
  - by apply on_ok_ret.
  - eapply on_ok_bind; [apply on_ok_true|]. intros res _.
    eapply on_ok_bind
      with (Q1 := fun m => forall k, is_Some (out !! k) -> is_Some (m !! k)).
    + destruct (needs_fallback _ _ _).
      * apply returns_on_ok. eapply returns_mono; [|apply dex_fallback_returns].
        intros m Hm k Hk. by apply Hm, assign_chunk_keeps.
      * apply on_ok_ret. intros k Hk. by apply assign_chunk_keeps.
    + intros out2 Hout2 w m w' Hr k Hk.
      eapply IH; [exact Hr|]. by apply Hout2.
Qed.

Lemma dex_req_covers addresses a :
  a ∈ addresses -> trim a <> "" ->
  {| original := trim a; key := toLowerCase (trim a) |} ∈ dex_req addresses.
Proof.
  intros Hin Ha. unfold dex_req. apply list_elem_of_In, filter_In. split.
  - apply list_elem_of_In.
    apply (list_elem_of_fmap_2
             (fun a => {| original := trim a; key := toLowerCase (trim a) |})).
    done.
  - simpl. by apply nonempty_true.
Qed.

Lemma fetchDexscreenerBatchByTokens_keys E addresses opts :
  on_ok (fun m => forall a, a ∈ addresses -> trim a <> "" ->
                           is_Some (m !! toLowerCase (trim a)))
        (fetchDexscreenerBatchByTokens E addresses opts).
Proof.
  unfold fetchDexscreenerBatchByTokens. intros w m w' Hr a Hin Ha.
  eapply dex_loop_keeps; [exact Hr|].
  apply prefill_lookup.
  destruct (uniq_loop_covers key ∅ (dex_req addresses) _
              (dex_req_covers addresses a Hin Ha)) as [H|H]; [|exact H].
  by apply not_elem_of_empty in H.
Qed.

(** The entries of the de-duplicated request list are normalised. *)
Lemma dex_req_normal addresses x :
  x ∈ dex_req addresses ->
  trim (original x) = original x /\ key x = toLowerCase (original x) /\
  nonempty (original x) = true.
Proof.
  unfold dex_req. intros Hx.
  apply list_elem_of_In, filter_In in Hx as [Hx Hne].
  apply list_elem_of_In, list_elem_of_fmap in Hx as (a & -> & _). simpl in *.
  by rewrite trim_idem.
Qed.

Lemma dex_req_of_normal (u : list ReqKey) :
  (forall x, x ∈ u ->
     trim (original x) = original x /\ key x = toLowerCase (original x) /\
     nonempty (original x) = true) ->
  dex_req (map original u) = u.
Proof.
  unfold dex_req. induction u as [|x u IH]; intros Hn; simpl; [done|].
  destruct (Hn x) as (Ht & Hk & Hne); [by left|].
  rewrite Ht, Hne. destruct x as [o k]; simpl in *. rewrite <- Hk. f_equal.
  apply IH. intros y Hy. apply Hn. by right.
Qed.

Lemma dex_uniq_idem addresses :
  dex_uniq (map original (dex_uniq addresses)) = dex_uniq addresses.
Proof.
  unfold dex_uniq at 1. rewrite dex_req_of_normal.
  - apply uniq_loop_idem.
  - intros x Hx. apply (dex_req_normal addresses).
    unfold dex_uniq in Hx. by apply uniq_loop_elem in Hx as [Hx _].
Qed.

(** ** The CoinGecko adapter *)

Lemma slug_uniq_normal ids s :
  s ∈ slug_uniq ids -> toLowerCase s = s /\ nonempty s = true.
Proof.
  unfold slug_uniq. intros Hs. apply uniq_loop_elem in Hs as [Hs _].
  apply list_elem_of_In, filter_In in Hs as [Hs Hne].
  apply list_elem_of_In, list_elem_of_fmap in Hs as (a & -> & _).
  by rewrite toLowerCase_idem.
Qed.

Lemma slug_filter_of_normal (u : list string) :
  (forall s, s ∈ u -> toLowerCase s = s /\ nonempty s = true) ->
  List.filter nonempty (map toLowerCase u) = u.
Proof.
  induction u as [|s u IH]; intros Hn; simpl; [done|].
  destruct (Hn s) as [Hl Hne]; [by left|]. rewrite Hl, Hne. f_equal.
  apply IH. intros y Hy. apply Hn. by right.
Qed.

Lemma slug_uniq_idem ids : slug_uniq (slug_uniq ids) = slug_uniq ids.
Proof.
  unfold slug_uniq at 1. rewrite slug_filter_of_normal.
  - apply uniq_loop_idem.
  - apply slug_uniq_normal.
Qed.

Lemma slug_uniq_NoDup ids : NoDup (slug_uniq ids).
Proof.
  pose proof (uniq_loop_NoDup (fun s : string => s) ∅
                (List.filter nonempty (map toLowerCase ids))) as H.
  by rewrite list_fmap_id in H.
Qed.

Lemma slug_uniq_covers ids a :
  a ∈ ids -> a <> "" -> toLowerCase a ∈ slug_uniq ids.
Proof.
  intros Hin Ha. unfold slug_uniq.
  assert (toLowerCase a ∈ List.filter nonempty (map toLowerCase ids)) as Hf.
  { apply list_elem_of_In, filter_In. split.
    - by apply list_elem_of_In, list_elem_of_fmap_2.
    - rewrite nonempty_toLowerCase. by apply nonempty_true. }
  destruct (uniq_loop_covers (fun s : string => s) ∅ _ _ Hf) as [H|H].
  - by apply not_elem_of_empty in H.
  - by rewrite list_fmap_id in H.
Qed.

Lemma gecko_fold_keeps res part (out : gmap string (option Q)) k :
  is_Some (out !! k) ->
  is_Some (fold_left
             (fun out id =>
                <[id := match gecko_usd res id with
                        | Some v => Some v
                        | None => default None (out !! id)
                        end]> out) part out !! k).
Proof.
  revert out. induction part as [|id part IH]; intros out Hk; simpl; [done|].
  apply IH. destruct (decide (id = k)) as [->|Hne].
  - rewrite lookup_insert_eq. by eexists.
  - by rewrite lookup_insert_ne.
Qed.

Lemma gecko_loop_returns E n parts (out : gmap string (option Q)) :
  returns (fun m => forall k, is_Some (out !! k) -> is_Some (m !! k))
          (gecko_loop E n parts out).
Proof.
  revert out. induction parts as [|part parts IH]; intros out; simpl.
  - by apply returns_ret.
  - eapply returns_bind with (Q1 := fun _ => True).
    + apply returns_catch; [apply on_ok_true|by apply returns_ret].
    + intros res _. eapply returns_mono; [|apply IH].
      intros m Hm k Hk. by apply Hm, gecko_fold_keeps.
Qed.

Lemma gecko_loop_appends P E n parts out :
  (forall part, P (Http (GeckoSimplePrice part))) ->
  appends P (gecko_loop E n parts out).
Proof.
  intros HP. revert out. induction parts as [|part parts IH]; intros out; simpl.
  - apply appends_ret.
  - apply appends_bind; [|intros res; apply IH].
    apply appends_catch; [|apply appends_ret].
    apply appends_bind; [|intros b; apply appends_ret].
    by apply appends_pRetry, appends_request.
Qed.

Lemma fetchCoingeckoBatchByIds_http E ids opts :
  appends is_http (fetchCoingeckoBatchByIds E ids opts).
Proof. unfold fetchCoingeckoBatchByIds. by apply gecko_loop_appends. Qed.

Lemma fetchCoingeckoBatchByIds_returns E ids opts :
  returns (fun m => forall a, a ∈ ids -> a <> "" -> is_Some (m !! toLowerCase a))
          (fetchCoingeckoBatchByIds E ids opts).
Proof.
  unfold fetchCoingeckoBatchByIds.
  eapply returns_mono; [|apply gecko_loop_returns].
  intros m Hm a Hin Ha. apply Hm, prefill_lookup.
  rewrite list_fmap_id. by apply slug_uniq_covers.
Qed.

(** ** The CMC adapter *)

Lemma fetchCmcPriceBySlug_returns E slug :
  returns (fun _ => True) (fetchCmcPriceBySlug E slug).
Proof.
  unfold fetchCmcPriceBySlug. destruct (negb (nonempty slug)); [by apply returns_ret|].
  eapply returns_bind with (Q1 := fun _ => True).
  - apply returns_catch; [apply on_ok_true|by apply returns_ret].
  - intros [v|] _; [by apply returns_ret|].
    apply returns_catch; [apply on_ok_true|by apply returns_ret].
Qed.

Lemma fetchCmcPriceBySlug_http E slug :
  appends is_http (fetchCmcPriceBySlug E slug).
Proof.
  unfold fetchCmcPriceBySlug, cmcDataApiQuoteBySlug, cmcDataApiQuoteById, fetchHtml.
  apply appends_if; [apply appends_ret|].
  apply appends_bind.
  - apply appends_catch; [|apply appends_ret].
    apply appends_bind; [by apply appends_pRetry, appends_request|].
    intros b. apply appends_ret.
  - intros [v|]; [apply appends_ret|].
    apply appends_catch; [|apply appends_ret].
    apply appends_bind; [by apply appends_pRetry, appends_request|].
    intros html. apply appends_bind.
    + destruct (extractIdFromHtml html) as [id|]; [|apply appends_ret].
      apply appends_if; [|apply appends_ret].
      apply appends_bind; [by apply appends_pRetry, appends_request|].
      intros b. apply appends_ret.
    + intros [v|]; apply appends_ret.
Qed.

Lemma cmc_fold_keeps (l : list (string * option Q)) (out : gmap string (option Q)) k :
  is_Some (out !! k) ->
  is_Some (fold_left (fun out jr => <[fst jr := snd jr]> out) l out !! k).
Proof.
  revert out. induction l as [|[s v] l IH]; intros out Hk; simpl; [done|].
  apply IH. destruct (decide (s = k)) as [->|Hne].
  - rewrite lookup_insert_eq. by eexists.
  - by rewrite lookup_insert_ne.
Qed.

Lemma cmc_loop_returns E n parts (out : gmap string (option Q)) :
  returns (fun m => forall k, is_Some (out !! k) -> is_Some (m !! k))
          (cmc_loop E n parts out).
Proof.
  revert out. induction parts as [|part parts IH]; intros out; simpl.
  - by apply returns_ret.
  - eapply returns_bind.
    + apply returns_mapM. intros slug.
      apply returns_pRetry, fetchCmcPriceBySlug_returns.
    + intros results _. eapply returns_mono; [|apply IH].
      intros m Hm k Hk. by apply Hm, cmc_fold_keeps.
Qed.

Lemma cmc_loop_http E n parts out : appends is_http (cmc_loop E n parts out).
Proof.
  revert out. induction parts as [|part parts IH]; intros out; simpl.
  - apply appends_ret.
  - apply appends_bind; [|intros res; apply IH].
    apply appends_mapM. intros slug.
    apply appends_pRetry, fetchCmcPriceBySlug_http.
Qed.

Lemma fetchCmcBatchBySlugs_http E slugs opts :
  appends is_http (fetchCmcBatchBySlugs E slugs opts).
Proof. unfold fetchCmcBatchBySlugs. apply cmc_loop_http. Qed.

Lemma fetchCmcBatchBySlugs_returns E slugs opts :
  returns (fun m => forall a, a ∈ slugs -> a <> "" -> is_Some (m !! toLowerCase a))
          (fetchCmcBatchBySlugs E slugs opts).
Proof.
  unfold fetchCmcBatchBySlugs.
  eapply returns_mono; [|apply cmc_loop_returns].
  intros m Hm a Hin Ha. apply Hm, prefill_lookup.
  rewrite list_fmap_id. by apply slug_uniq_covers.
Qed.

(** ** Claims about the adapters *)

Lemma grouped_requests_app w1 w2 :
  grouped_requests (w1 ++ w2) = grouped_requests w1 ++ grouped_requests w2.
Proof. apply omap_app. Qed.

Lemma grouped_requests_none evs :
  Forall not_grouped evs -> grouped_requests evs = [].
Proof.
  induction 1 as [|e evs He _ IH]; [done|].
  destruct e as [[]| |]; simpl in He; try done; exact IH.
Qed.

Lemma pRetry_first {A} n (action : Run A) w a w' :
  action w = (Ok a, w') -> pRetry n action w = (Ok a, w').
Proof. intros H. destruct n; simpl; by rewrite H. Qed.

Lemma returns_appends {A} (Q : A -> Prop) P (m : Run A) w :
  returns Q m -> appends P m ->
  exists a evs, m w = (Ok a, w ++ evs) /\ Q a /\ Forall P evs.
Proof.
  intros Hr Ha. destruct (Hr w) as (a & w' & Hm & HQ).
  destruct (Ha w) as (evs & Hw & HP). rewrite Hm in Hw. simpl in Hw. subst w'.
  by exists a, evs.
Qed.

(** When no grouped call fails, the grouped requests are the sub-batches. *)
Lemma dex_loop_grouped E n chunks out w :
  (forall h ids, net E h (DexTokens ids) <> Failed) ->
  exists m evs,
    dex_loop E n chunks out w = (Ok m, w ++ evs) /\
    grouped_requests evs = map (map original) chunks.
Proof.
  intros Hnet. revert out w.
  induction chunks as [|chunk chunks IH]; intros out w; simpl.
  - exists out, []. by rewrite app_nil_r.
  - unfold bind.
    assert (exists b, request E (DexTokens (map original chunk)) w
                      = (Ok b, w ++ [Http (DexTokens (map original chunk))]))
      as [b Hb].
    { unfold request. specialize (Hnet w (map original chunk)).
      destruct (net E w (DexTokens (map original chunk))) as [|b]; [done|].
      by exists b. }
    rewrite (pRetry_first n _ _ _ _ Hb).
    set (w1 := w ++ [Http (DexTokens (map original chunk))]).
    set (out1 := assign_chunk (group_pairs chunk (pairs_of b)) chunk out).
    assert (exists out2 evs2,
              (if needs_fallback (pairs_of b) chunk out1
               then dex_fallback E n chunk out1 else ret out1) w1
              = (Ok out2, w1 ++ evs2) /\ Forall not_grouped evs2)
      as (out2 & evs2 & Hf & Hng).
    { destruct (needs_fallback (pairs_of b) chunk out1).
      - destruct (returns_appends _ not_grouped _ w1
                    (dex_fallback_returns E n chunk out1)
                    (dex_fallback_appends not_grouped E n chunk out1
                       (fun _ => I)))
          as (a & evs & Hm & _ & HP).
        by exists a, evs.
      - exists out1, []. unfold ret. by rewrite app_nil_r. }
    rewrite Hf. destruct (IH out2 (w1 ++ evs2)) as (m & evs3 & Hl & Hg).
    exists m, ([Http (DexTokens (map original chunk))] ++ evs2 ++ evs3).
    split.
    + rewrite Hl. unfold w1. by rewrite <- !app_assoc.
    + rewrite !grouped_requests_app, (grouped_requests_none evs2 Hng), Hg. done.
Qed.

Lemma assign_chunk_lookup grouped chunk (out : gmap string (option Q)) k :
  k ∈ map key chunk \/ out !! k = Some (best_price grouped k) ->
  assign_chunk grouped chunk out !! k = Some (best_price grouped k).
Proof.
  unfold assign_chunk. revert out.
  induction chunk as [|c chunk IH]; intros out; simpl.
  - intros [H|H]; [by apply elem_of_nil in H|done].
  - intros H. apply IH. destruct (decide (key c = k)) as [<-|Hne].
    + right. apply lookup_insert_eq.
    + destruct H as [H|H].
      * apply elem_of_cons in H as [H|H]; [congruence|by left].
      * right. by rewrite lookup_insert_ne.
Qed.

Lemma forallb_agree {A} (f g : A -> bool) l :
  (forall x, x ∈ l -> f x = g x) -> forallb f l = forallb g l.
Proof.
  induction l as [|x l IH]; intros H; simpl; [done|].
  rewrite (H x) by (by left). f_equal. apply IH. intros y Hy. apply H. by right.
Qed.

Lemma needs_fallback_assign pairs chunk (out : gmap string (option Q)) :
  needs_fallback pairs chunk
    (assign_chunk (group_pairs chunk pairs) chunk out)
  = unanswered pairs chunk.
Proof.
  unfold needs_fallback, unanswered. destruct pairs as [|p pairs]; [done|].
  apply forallb_agree. intros c Hc. unfold no_price.
  rewrite assign_chunk_lookup.
  - by destruct (best_price _ (key c)).
  - left. by apply list_elem_of_fmap_2.
Qed.

(** When every grouped call is answered at once with a usable price, the
    upstream requests are exactly the grouped ones. *)
Lemma dex_loop_exact E n chunks out w :
  (forall chunk, chunk ∈ chunks -> forall h, exists b,
     net E h (DexTokens (map original chunk)) = Replied b /\
     unanswered (pairs_of b) chunk = false) ->
  exists m evs,
    dex_loop E n chunks out w = (Ok m, w ++ evs) /\
    requests evs = map (fun chunk => DexTokens (map original chunk)) chunks.
Proof.
  revert out w. induction chunks as [|chunk chunks IH]; intros out w Hnet; simpl.
  - exists out, []. by rewrite app_nil_r.
  - destruct (Hnet chunk (list_elem_of_here _ _) w) as (b & Hb & Hans).
    unfold bind.
    assert (request E (DexTokens (map original chunk)) w
            = (Ok b, w ++ [Http (DexTokens (map original chunk))])) as Hreq.
    { unfold request. by rewrite Hb. }
    rewrite (pRetry_first n _ _ _ _ Hreq), needs_fallback_assign, Hans.
    unfold ret at 1.
    destruct (IH (assign_chunk (group_pairs chunk (pairs_of b)) chunk out)
                 (w ++ [Http (DexTokens (map original chunk))]))
      as (m & evs & Hl & Hg).
    { intros c Hc. apply Hnet. by right. }
    exists m, (Http (DexTokens (map original chunk)) :: evs). split.
    + rewrite Hl. by rewrite <- app_assoc.
    + simpl. f_equal. exact Hg.
Qed.

Lemma requests_app w1 w2 : requests (w1 ++ w2) = requests w1 ++ requests w2.
Proof. apply omap_app. Qed.

Lemma gecko_loop_exact E n parts out w :
  (forall h ids, net E h (GeckoSimplePrice ids) <> Failed) ->
  exists m evs,
    gecko_loop E n parts out w = (Ok m, w ++ evs) /\
    requests evs = map GeckoSimplePrice parts.
Proof.
  intros Hnet. revert out w.
  induction parts as [|part parts IH]; intros out w; simpl.
  - exists out, []. by rewrite app_nil_r.
  - assert (exists b, request E (GeckoSimplePrice part) w
                      = (Ok b, w ++ [Http (GeckoSimplePrice part)])) as [b Hb].
    { unfold request. specialize (Hnet w part).
      destruct (net E w (GeckoSimplePrice part)) as [|b]; [done|]. by exists b. }
    unfold bind at 1, catch, bind at 1.
    rewrite (pRetry_first n _ _ _ _ Hb). unfold ret at 1.
    match goal with
    | |- context [gecko_loop E n parts ?o ?w1] =>
        destruct (IH o w1) as (m & evs & Hl & Hg)
    end.
    exists m, (Http (GeckoSimplePrice part) :: evs). split.
    + rewrite Hl. by rewrite <- app_assoc.
    + simpl. f_equal. exact Hg.
Qed.

Lemma fetchCmcPriceBySlug_exact E slug w :
  (forall h s, exists v, net E h (CmcQuoteBySlug s) = Replied (CmcQuoteBody (Some v))) ->
  nonempty slug = true ->
  exists v, fetchCmcPriceBySlug E slug w
            = (Ok (Some v), w ++ [Http (CmcQuoteBySlug slug)]).
Proof.
  intros Hnet Hne. destruct (Hnet w slug) as [v Hv]. exists v.
  unfold fetchCmcPriceBySlug. rewrite Hne. change (negb true) with false.
  cbv iota.
  assert (cmcDataApiQuoteBySlug E slug w
          = (Ok (CmcQuoteBody (Some v)), w ++ [Http (CmcQuoteBySlug slug)])) as Hreq.
  { unfold cmcDataApiQuoteBySlug, request. by rewrite Hv. }
  unfold bind at 1, catch, bind at 1.
  by rewrite (pRetry_first 2 _ _ _ _ Hreq).
Qed.

Lemma cmc_part_exact E n part w :
  (forall h s, exists v, net E h (CmcQuoteBySlug s) = Replied (CmcQuoteBody (Some v))) ->
  (forall s, s ∈ part -> nonempty s = true) ->
  exists results evs,
    mapM (fun slug => pRetry n (fetchCmcPriceBySlug E slug)) part w
    = (Ok results, w ++ evs) /\
    requests evs = map CmcQuoteBySlug part.
Proof.
  intros Hnet. revert w. induction part as [|s part IH]; intros w Hne; simpl.
  - exists [], []. by rewrite app_nil_r.
  - destruct (fetchCmcPriceBySlug_exact E s w Hnet) as [v Hv]; [apply Hne; by left|].
    unfold bind at 1. rewrite (pRetry_first n _ _ _ _ Hv).
    destruct (IH (w ++ [Http (CmcQuoteBySlug s)])) as (results & evs & Hm & Hr).
    { intros s' Hs'. apply Hne. by right. }
    unfold bind at 1. rewrite Hm. unfold ret.
    exists (Some v :: results), (Http (CmcQuoteBySlug s) :: evs). split.
    + by rewrite <- app_assoc.
    + simpl. f_equal. exact Hr.
Qed.

Lemma cmc_loop_exact E n parts out w :
  (forall h s, exists v, net E h (CmcQuoteBySlug s) = Replied (CmcQuoteBody (Some v))) ->
  (forall s, s ∈ concat parts -> nonempty s = true) ->
  exists m evs,
    cmc_loop E n parts out w = (Ok m, w ++ evs) /\
    requests evs = map CmcQuoteBySlug (concat parts).
Proof.
  intros Hnet. revert out w.
  induction parts as [|part parts IH]; intros out w Hne; simpl.
  - exists out, []. by rewrite app_nil_r.
  - destruct (cmc_part_exact E n part w Hnet) as (results & evs & Hm & Hr).
    { intros s Hs. apply Hne. simpl. apply elem_of_app. by left. }
    unfold bind at 1. rewrite Hm.
    match goal with
    | |- context [cmc_loop E n parts ?o ?w1] =>
        destruct (IH o w1) as (m & evs' & Hl & Hg)
    end.
    { intros s Hs. apply Hne. simpl. apply elem_of_app. by right. }
    exists m, (evs ++ evs'). split.
    + rewrite Hl. by rewrite <- app_assoc.
    + by rewrite requests_app, Hr, Hg, map_app.
Qed.

Lemma identifiers_of_grouped (chunks : list (list ReqKey)) :
  concat (map req_ids (map (fun chunk => DexTokens (map original chunk)) chunks))
  = map original (concat chunks).
Proof.
  induction chunks as [|c chunks IH]; simpl; [done|]. by rewrite IH, map_app.
Qed.

Lemma identifiers_of_parts (parts : list (list string)) :
  concat (map req_ids (map GeckoSimplePrice parts)) = concat parts.
Proof. induction parts as [|p parts IH]; simpl; [done|]. by rewrite IH. Qed.

Lemma identifiers_of_slugs (slugs : list string) :
  concat (map req_ids (map CmcQuoteBySlug slugs)) = slugs.
Proof. induction slugs as [|s slugs IH]; simpl; [done|]. by rewrite IH. Qed.

Lemma dex_uniq_originals_NoDup addresses :
  NoDup (map original (dex_uniq addresses)).
Proof.
  pose proof (uniq_loop_NoDup key ∅ (dex_req addresses)) as Hnd.
  fold (dex_uniq addresses) in Hnd.
  assert (forall x, x ∈ dex_uniq addresses -> key x = toLowerCase (original x))
    as Hkey.
  { intros x Hx. unfold dex_uniq in Hx. apply uniq_loop_elem in Hx as [Hx _].
    by apply dex_req_normal in Hx as (_ & Hk & _). }
  induction (dex_uniq addresses) as [|x u IH]; simpl; [constructor|].
  simpl in Hnd. inversion Hnd as [|? ? Hx Hu]; subst. constructor.
  - intros Ho. apply Hx. apply list_elem_of_fmap in Ho as (y & Hoy & Hy).
    apply list_elem_of_fmap. exists y. split; [|done].
    rewrite (Hkey x) by (by left). rewrite (Hkey y) by (by right). by rewrite Hoy.
  - apply IH; [done|]. intros y Hy. apply Hkey. by right.
Qed.

Lemma chunk_31_30 {A} (u : list A) :
  length u = 31%nat -> chunk u 30 = [take 30 u; drop 30 u].
Proof.
  intros Hlen. rewrite chunk_cons; [|lia|by destruct u]. f_equal.
  rewrite chunk_cons; [|lia|].
  - rewrite (take_ge (drop 30 u)) by (rewrite length_drop; lia).
    rewrite (drop_ge (drop 30 u)) by (rewrite length_drop; lia). done.
  - intros Hnil. apply (f_equal length) in Hnil.
    rewrite length_drop in Hnil. simpl in Hnil. lia.
Qed.

(** C5 (defect in the Dexscreener adapter). With the upstream unreachable,
    the grouped call of [fetchDexscreenerBatchByTokens] exhausts its two
    retries and the batch function itself raises to its caller instead of
    returning unknown for the address it covered. *)
Theorem dexscreener_batch_raises :
  fetchDexscreenerBatchByTokens env_down ["0xAA"] dexOpts []
  = (Thrown, [Http (DexTokens ["0xAA"]); Http (DexTokens ["0xAA"]);
              Http (DexTokens ["0xAA"])]).
Proof. reflexivity. Qed.

(** A failure in a later sub-batch also discards the price an earlier
    sub-batch obtained. *)
Lemma dexscreener_batch_loses_earlier_prices :
  fetchDexscreenerBatchByTokens env_flaky ["0xaa"; "0xbb"] one_by_one []
  = (Thrown, [Http (DexTokens ["0xaa"]); Http (DexTokens ["0xbb"])]).
Proof. vm_compute. reflexivity. Qed.

(** The sibling adapters recover locally: they never raise. *)
Lemma coingecko_batch_never_raises E ids opts w :
  exists m w', fetchCoingeckoBatchByIds E ids opts w = (Ok m, w').
Proof.
  destruct (fetchCoingeckoBatchByIds_returns E ids opts w) as (m & w' & H & _).
  by exists m, w'.
Qed.

Lemma cmc_batch_never_raises E slugs opts w :
  exists m w', fetchCmcBatchBySlugs E slugs opts w = (Ok m, w').
Proof.
  destruct (fetchCmcBatchBySlugs_returns E slugs opts w) as (m & w' & H & _).
  by exists m, w'.
Qed.

(** C6, as stated, fails: the key ["Pepe"] handed to the CoinGecko adapter
    is not a key of the returned map (its lower-cased form is). *)
Lemma upper_case_key_absent :
  exists m w',
    fetchCoingeckoBatchByIds env_silent ["Pepe"] geckoOpts [] = (Ok m, w') /\
    m !! "Pepe" = None /\ m !! "pepe" = Some None.
Proof. eexists _, _. split; [reflexivity|]. split; reflexivity. Qed.

(** C6 (amended). Every non-empty key handed to an adapter is a key of the
    map the adapter returns, in its normalised form: trimmed and lower-cased
    for Dexscreener, lower-cased for CoinGecko and CMC.  The CoinGecko and
    CMC functions always return such a map; the Dexscreener function does
    whenever it returns, and it returns when no grouped call fails. *)
Theorem adapter_maps_cover_normalised_keys (E : Env) :
  (forall addresses opts w m w',
     fetchDexscreenerBatchByTokens E addresses opts w = (Ok m, w') ->
     forall a, a ∈ addresses -> trim a <> "" ->
               is_Some (m !! toLowerCase (trim a))) /\
  ((forall h ids, net E h (DexTokens ids) <> Failed) ->
   forall addresses opts w, exists m w',
     fetchDexscreenerBatchByTokens E addresses opts w = (Ok m, w')) /\
  (forall ids opts w, exists m w',
     fetchCoingeckoBatchByIds E ids opts w = (Ok m, w') /\
     forall a, a ∈ ids -> a <> "" -> is_Some (m !! toLowerCase a)) /\
  (forall slugs opts w, exists m w',
     fetchCmcBatchBySlugs E slugs opts w = (Ok m, w') /\
     forall a, a ∈ slugs -> a <> "" -> is_Some (m !! toLowerCase a)).
Proof.
  split; [|split; [|split]].
  - intros addresses opts w m w' Hr.
    exact (fetchDexscreenerBatchByTokens_keys E addresses opts w m w' Hr).
  - intros Hnet addresses opts w. unfold fetchDexscreenerBatchByTokens.
    destruct (dex_loop_grouped E (default 2%nat (retries opts))
                (chunk (dex_uniq addresses) (dex_batchSize opts))
                (prefill key (dex_uniq addresses)) w Hnet) as (m & evs & Hr & _).
    by exists m, (w ++ evs).
  - intros ids opts w. apply fetchCoingeckoBatchByIds_returns.
  - intros slugs opts w. apply fetchCmcBatchBySlugs_returns.
Qed.

Lemma adapter_maps_cover_normalised_keys_witness :
  exists m w',
    fetchDexscreenerBatchByTokens env_silent [" 0xAA "; "0xaa"] dexOpts []
    = (Ok m, w') /\
    is_Some (m !! "0xaa").
Proof.
  eexists _, _. split; [vm_compute; reflexivity|].
  apply (proj1 (adapter_maps_cover_normalised_keys env_silent)
           [" 0xAA "; "0xaa"] dexOpts [] _ _ eq_refl " 0xAA ").
  - by left.
  - discriminate.
Defined.

(** C7, as stated, fails: one invocation of the Dexscreener adapter on the
    single address ["0xaa"] names that address in two upstream requests,
    the grouped one and the per-address fallback. *)
Lemma identifier_queried_twice :
  times_queried "0xaa"
    (snd (fetchDexscreenerBatchByTokens env_silent ["0xaa"] dexOpts [])) = 2%nat.
Proof. reflexivity. Qed.

(** C7 (amended). Every adapter de-duplicates its normalised keys before it
    calls upstream: the list it cuts into sub-batches has no repeated key,
    every key of that list lies in exactly one sub-batch, and a run on an
    input with repeats is the run on the de-duplicated list -- the same
    upstream requests and the same result.  When every upstream call is
    answered at once with a usable price, the identifiers the adapter sends
    upstream in one invocation are exactly the de-duplicated keys, each
    named once. *)
Theorem adapters_deduplicate (E : Env) (keys : list string) (opts : BatchOpts)
    (copts : CmcOpts) (w : World) :
  (NoDup (map key (dex_uniq keys)) /\
   NoDup (map original (dex_uniq keys)) /\
   concat (chunk (dex_uniq keys) (dex_batchSize opts)) = dex_uniq keys /\
   fetchDexscreenerBatchByTokens E keys opts w
   = fetchDexscreenerBatchByTokens E (map original (dex_uniq keys)) opts w /\
   ((forall c, c ∈ chunk (dex_uniq keys) (dex_batchSize opts) ->
       forall h, exists b,
         net E h (DexTokens (map original c)) = Replied b /\
         unanswered (pairs_of b) c = false) ->
    exists m evs,
      fetchDexscreenerBatchByTokens E keys opts w = (Ok m, w ++ evs) /\
      identifiers_sent evs = map original (dex_uniq keys))) /\
  (NoDup (slug_uniq keys) /\
   concat (chunk (slug_uniq keys) (gecko_batchSize opts)) = slug_uniq keys /\
   fetchCoingeckoBatchByIds E keys opts w
   = fetchCoingeckoBatchByIds E (slug_uniq keys) opts w /\
   ((forall h ids, net E h (GeckoSimplePrice ids) <> Failed) ->
    exists m evs,
      fetchCoingeckoBatchByIds E keys opts w = (Ok m, w ++ evs) /\
      identifiers_sent evs = slug_uniq keys)) /\
  (NoDup (slug_uniq keys) /\
   concat (chunk (slug_uniq keys) (cmc_concurrency copts)) = slug_uniq keys /\
   fetchCmcBatchBySlugs E keys copts w
   = fetchCmcBatchBySlugs E (slug_uniq keys) copts w /\
   ((forall h s, exists v,
       net E h (CmcQuoteBySlug s) = Replied (CmcQuoteBody (Some v))) ->
    exists m evs,
      fetchCmcBatchBySlugs E keys copts w = (Ok m, w ++ evs) /\
      identifiers_sent evs = slug_uniq keys)).
Proof.
  assert (1 <= gecko_batchSize opts)%nat as Hg by (unfold gecko_batchSize; lia).
  assert (1 <= cmc_concurrency copts)%nat as Hc by (unfold cmc_concurrency; lia).
  pose proof (proj1 (dex_batchSize_bounds opts)) as Hd.
  split; [|split].
  - split; [apply uniq_loop_NoDup|]. split; [apply dex_uniq_originals_NoDup|].
    split; [by apply chunk_concat|].
    split; [unfold fetchDexscreenerBatchByTokens; by rewrite dex_uniq_idem|].
    intros Hnet. unfold fetchDexscreenerBatchByTokens.
    destruct (dex_loop_exact E (default 2%nat (retries opts))
                (chunk (dex_uniq keys) (dex_batchSize opts))
                (prefill key (dex_uniq keys)) w Hnet) as (m & evs & Hr & Hreq).
    exists m, evs. split; [done|]. unfold identifiers_sent.
    by rewrite Hreq, identifiers_of_grouped, chunk_concat.
  - split; [apply slug_uniq_NoDup|]. split; [by apply chunk_concat|].
    split; [unfold fetchCoingeckoBatchByIds; by rewrite slug_uniq_idem|].
    intros Hnet. unfold fetchCoingeckoBatchByIds.
    destruct (gecko_loop_exact E (default 2%nat (retries opts))
                (chunk (slug_uniq keys) (gecko_batchSize opts))
                (prefill (fun s => s) (slug_uniq keys)) w Hnet)
      as (m & evs & Hr & Hreq).
    exists m, evs. split; [done|]. unfold identifiers_sent.
    by rewrite Hreq, identifiers_of_parts, chunk_concat.
  - split; [apply slug_uniq_NoDup|]. split; [by apply chunk_concat|].
    split; [unfold fetchCmcBatchBySlugs; by rewrite slug_uniq_idem|].
    intros Hnet. unfold fetchCmcBatchBySlugs.
    destruct (cmc_loop_exact E (default 2%nat (cmc_retries copts))
                (chunk (slug_uniq keys) (cmc_concurrency copts))
                (prefill (fun s => s) (slug_uniq keys)) w Hnet)
      as (m & evs & Hr & Hreq).
    { rewrite chunk_concat by done. intros s Hs.
      by apply slug_uniq_normal in Hs as [_ Hs]. }
    exists m, evs. split; [done|]. unfold identifiers_sent.
    by rewrite Hreq, identifiers_of_slugs, chunk_concat.
Qed.

Lemma adapters_deduplicate_witness :
  exists m evs,
    fetchCoingeckoBatchByIds env_pepe ["Pepe"; "pepe"; "PEPE"] geckoOpts []
    = (Ok m, [] ++ evs) /\
    identifiers_sent evs = ["pepe"].
Proof.
  destruct (proj1 (proj2 (adapters_deduplicate env_pepe ["Pepe"; "pepe"; "PEPE"]
                            geckoOpts cmcOpts [])))
    as (_ & _ & _ & Hexact).
  destruct Hexact as (m & evs & Hr & Hids).
  - intros h ids. discriminate.
  - by exists m, evs.
Defined.

(** C8, as stated, fails: for thirty-one distinct addresses that the
    upstream does not know, the adapter issues 33 upstream requests -- the
    two grouped ones and one per-address fallback request per address. *)
Lemma thirty_one_unknown_addresses :
  length (dex_uniq addresses31) = 31%nat /\
  length (requests
            (snd (fetchDexscreenerBatchByTokens env_silent addresses31 dexOpts [])))
  = 33%nat.
Proof. split; vm_compute; reflexivity. Qed.

(** C8 (amended). Every upstream request of the Dexscreener batch adapter
    carries at most 30 identifiers.  For 31 distinct addresses and a
    configured batch size of 30 the adapter cuts two sub-batches, of 30 and
    of 1 identifiers: when no grouped call fails it returns and issues
    exactly two grouped requests, one per sub-batch; and when every grouped
    call is answered at once with a usable price for one of its addresses,
    these two are all the upstream requests it issues. *)
Theorem dexscreener_batching (E : Env) (addresses : list string)
    (opts : BatchOpts) (w : World) :
  (exists evs,
     snd (fetchDexscreenerBatchByTokens E addresses opts w) = w ++ evs /\
     Forall at_most_30 evs) /\
  (length (dex_uniq addresses) = 31%nat ->
   batchSize opts = Some 30%nat ->
   exists first second,
     chunk (dex_uniq addresses) (dex_batchSize opts) = [first; second] /\
     length first = 30%nat /\ length second = 1%nat /\
     ((forall h ids, net E h (DexTokens ids) <> Failed) ->
      exists m evs,
        fetchDexscreenerBatchByTokens E addresses opts w = (Ok m, w ++ evs) /\
        grouped_requests evs = [map original first; map original second]) /\
     ((forall chunk, chunk ∈ [first; second] -> forall h, exists b,
         net E h (DexTokens (map original chunk)) = Replied b /\
         unanswered (pairs_of b) chunk = false) ->
      exists m evs,
        fetchDexscreenerBatchByTokens E addresses opts w = (Ok m, w ++ evs) /\
        requests evs
        = [DexTokens (map original first); DexTokens (map original second)])).
Proof.
  split; [apply fetchDexscreenerBatchByTokens_at_most_30|].
  intros Hlen Hbs. unfold fetchDexscreenerBatchByTokens.
  assert (dex_batchSize opts = 30%nat) as -> by (unfold dex_batchSize; by rewrite Hbs).
  rewrite (chunk_31_30 _ Hlen).
  exists (take 30 (dex_uniq addresses)), (drop 30 (dex_uniq addresses)).
  split; [done|]. rewrite length_take, length_drop.
  split; [lia|]. split; [lia|]. split.
  - intros Hnet. apply dex_loop_grouped, Hnet.
  - intros Hnet. by apply dex_loop_exact.
Qed.

Lemma dexscreener_batching_witness :
  exists m evs first second,
    fetchDexscreenerBatchByTokens env_generous addresses31 dexOpts []
    = (Ok m, [] ++ evs) /\
    length first = 30%nat /\ length second = 1%nat /\
    requests evs
    = [DexTokens (map original first); DexTokens (map original second)].
Proof.
  destruct (proj2 (dexscreener_batching env_generous addresses31 dexOpts []))
    as (first & second & Hchunk & H30 & H1 & _ & Hexact).
  - vm_compute. reflexivity.
  - reflexivity.
  - assert (forallb
              (fun c => negb (unanswered
                                (pairs_of (DexBody (map generous_pair
                                                        (map original c)))) c))
              (chunk (dex_uniq addresses31) (dex_batchSize dexOpts)) = true)
      as Hall by (vm_compute; reflexivity).
    rewrite Hchunk in Hall.
    destruct Hexact as (m & evs & Hr & Hreq).
    + intros c Hc h. apply list_elem_of_In in Hc.
      rewrite forallb_forall in Hall. specialize (Hall c Hc).
      exists (DexBody (map generous_pair (map original c))).
      split; [reflexivity|]. by apply negb_true_iff in Hall.
    + exists m, evs, first, second.
      exact (conj Hr (conj H30 (conj H1 Hreq))).
Defined.

(** ** The pipeline: log bookkeeping *)

Lemma invocations_app w1 w2 :
  invocations (w1 ++ w2) = invocations w1 ++ invocations w2.
Proof. apply omap_app. Qed.

Lemma invocations_http evs : Forall is_http evs -> invocations evs = [].
Proof.
  induction 1 as [|e evs He _ IH]; [done|].
  destruct e; simpl in He; try done; exact IH.
Qed.

Lemma invocations_clock evs : Forall is_clock evs -> invocations evs = [].
Proof.
  induction 1 as [|e evs He _ IH]; [done|].
  destruct e; simpl in He; try done; exact IH.
Qed.

Lemma runs_ret {A} (Q : A -> list (Source * list string) -> Prop) a :
  Q a [] -> runs Q (ret a).
Proof. intros HQ w. exists a, []. by rewrite app_nil_r. Qed.

Lemma runs_mono {A} (Q Q' : A -> list (Source * list string) -> Prop) m :
  (forall a i, Q a i -> Q' a i) -> runs Q m -> runs Q' m.
Proof.
  intros HQ Hm w. destruct (Hm w) as (a & evs & Hr & Ha). exists a, evs. auto.
Qed.

Lemma runs_bind {A B} (Q1 : A -> list (Source * list string) -> Prop)
    (Q2 : B -> list (Source * list string) -> Prop) (m : Run A) (k : A -> Run B) :
  runs Q1 m ->
  (forall a i1, Q1 a i1 -> runs (fun b i2 => Q2 b (i1 ++ i2)) (k a)) ->
  runs Q2 (bind m k).
Proof.
  intros Hm Hk w. unfold bind. destruct (Hm w) as (a & evs & -> & Ha).
  destruct (Hk a _ Ha (w ++ evs)) as (b & evs' & -> & Hb).
  exists b, (evs ++ evs'). rewrite app_assoc, invocations_app. done.
Qed.

Lemma runs_emit_invoke (Q : unit -> list (Source * list string) -> Prop) p ks :
  Q tt [(p, ks)] -> runs Q (emit (Invoke p ks)).
Proof. intros HQ w. exists tt, [Invoke p ks]. done. Qed.

Lemma runs_quiet {A} (Q : A -> Prop) P (m : Run A) :
  (forall evs, Forall P evs -> invocations evs = []) ->
  returns Q m -> appends P m ->
  runs (fun a i => Q a /\ i = []) m.
Proof.
  intros HP Hr Ha w.
  destruct (returns_appends Q P m w Hr Ha) as (a & evs & Hm & HQ & Hevs).
  exists a, evs. rewrite (HP evs Hevs). done.
Qed.

(** [adapter.catch(() => ({}))] *)
Lemma runs_adapter_catch (adapter : Run (gmap string (option Q))) :
  appends is_http adapter ->
  runs (fun m i => map_from adapter m /\ i = []) (catch adapter (ret ∅)).
Proof.
  intros Ha w. unfold catch. destruct (Ha w) as (evs & Hw & Hevs).
  destruct (adapter w) as [[m|] w1] eqn:Hr; simpl in Hw; subst w1.
  - exists m, evs. split; [done|]. split; [|by apply invocations_http].
    right. by exists w, (w ++ evs).
  - exists ∅, evs. split; [done|]. split; [by left|by apply invocations_http].
Qed.

(** ** The write-back loops *)

Lemma toPriceResult_returns E t p s :
  returns (fun r => exists ts, r = mkResult t p s ts)
          (toPriceResult E (tok_chain t) (contract_address t) p s (tok_symbol t)).
Proof. intros w. eexists _, _. split; [reflexivity|]. by eexists. Qed.

Lemma toPriceResult_clock E c a p s sym :
  appends is_clock (toPriceResult E c a p s sym).
Proof. intros w. exists [ClockRead]. split; [done|]. by constructor. Qed.

Lemma token_at_clock tokens i : appends is_clock (token_at tokens i).
Proof.
  unfold token_at. destruct (tokens !! i); [apply appends_ret|apply appends_throw].
Qed.

Lemma visit_clock E tokens pick idxs results :
  appends is_clock (visit E tokens pick idxs results).
Proof.
  revert results. induction idxs as [|i idxs IH]; intros results; simpl.
  - apply appends_ret.
  - apply appends_if; [apply IH|].
    apply appends_bind; [apply token_at_clock|]. intros t.
    destruct (pick t) as [[[p s]|]|]; [|apply IH|apply appends_throw].
    apply appends_bind; [apply toPriceResult_clock|]. intros r. apply IH.
Qed.

Lemma filled_insert_eq (results : list (option PriceResult)) i r :
  (i < length results)%nat -> filled (<[i := Some r]> results) i = true.
Proof. intros Hi. unfold filled. by rewrite list_lookup_insert_eq. Qed.

Lemma filled_insert_ne (results : list (option PriceResult)) i j r :
  i <> j -> filled (<[i := Some r]> results) j = filled results j.
Proof. intros Hne. unfold filled. by rewrite list_lookup_insert_ne. Qed.

Lemma bool_decide_cons_ne (i j : nat) idxs :
  i <> j -> bool_decide (j ∈ i :: idxs) = bool_decide (j ∈ idxs).
Proof.
  intros Hne. apply bool_decide_ext. rewrite elem_of_cons.
  split; [intros [Heq|Hj]; [congruence|done]|by right].
Qed.

Lemma slot_after_skip tokens pick i idxs results j x :
  (i = j -> filled results i = true \/
            (exists t, tokens !! i = Some t /\ pick t = Ok None)) ->
  slot_after tokens pick idxs results j x ->
  slot_after tokens pick (i :: idxs) results j x.
Proof.
  unfold slot_after. intros Hi. destruct (tokens !! j) as [t|] eqn:Ht; [|done].
  destruct (filled results j) eqn:Hf; [done|].
  destruct (decide (i = j)) as [->|Hne].
  - destruct (Hi eq_refl) as [Hfi|(t' & Ht' & Hp)]; [congruence|].
    assert (t' = t) as -> by congruence.
    rewrite Hp. rewrite (bool_decide_eq_true_2 (j ∈ j :: idxs)) by (by left).
    by destruct (bool_decide (j ∈ idxs)).
  - by rewrite bool_decide_cons_ne.
Qed.

Lemma visit_stage E tokens pick idxs results :
  (forall i, i ∈ idxs -> exists t, tokens !! i = Some t /\ pick t <> Thrown) ->
  length results = length tokens ->
  returns (stage tokens pick idxs results) (visit E tokens pick idxs results).
Proof.
  revert results. induction idxs as [|i idxs IH]; intros results Hin Hlen; simpl.
  - apply returns_ret. split; [done|]. intros j. unfold slot_after.
    destruct (tokens !! j); [|done]. by destruct (filled results j).
  - assert (forall i0, i0 ∈ idxs ->
              exists t, tokens !! i0 = Some t /\ pick t <> Thrown) as Hin'.
    { intros i0 Hi0. apply Hin. by right. }
    destruct (Hin i) as (t & Ht & Hpick); [by left|].
    destruct (filled results i) eqn:Hfi.
    + eapply returns_mono; [|apply (IH results Hin' Hlen)].
      intros r' [Hl Hs]. split; [done|]. intros j.
      apply slot_after_skip; [|apply Hs]. intros _. by left.
    + unfold token_at. rewrite Ht.
      eapply returns_bind; [by apply (returns_ret (fun t' => t' = t))|].
      intros ? ->. destruct (pick t) as [[[p s]|]|] eqn:Hp; [| |done].
      * eapply returns_bind; [apply toPriceResult_returns|].
        intros r (ts & ->).
        assert (i < length results)%nat as Hi.
        { rewrite Hlen. by apply lookup_lt_Some in Ht. }
        eapply returns_mono;
          [|apply (IH (<[i := Some (mkResult t p s ts)]> results) Hin')];
          [|by rewrite length_insert].
        intros r' [Hl Hs]. rewrite length_insert in Hl. split; [done|].
        intros j. specialize (Hs j). unfold slot_after in *.
        destruct (tokens !! j) as [tj|] eqn:Htj.
        -- destruct (decide (i = j)) as [->|Hne].
           ++ rewrite filled_insert_eq in Hs by done.
              rewrite list_lookup_insert_eq in Hs by done.
              rewrite Hfi.
              rewrite (bool_decide_eq_true_2 (j ∈ j :: idxs)) by (by left).
              assert (tj = t) as -> by congruence. rewrite Hp. by exists ts.
           ++ rewrite filled_insert_ne in Hs by done.
              rewrite list_lookup_insert_ne in Hs by done.
              by rewrite bool_decide_cons_ne.
        -- destruct (decide (i = j)) as [->|Hne]; [congruence|].
           by rewrite list_lookup_insert_ne in Hs.
      * eapply returns_mono; [|apply (IH results Hin' Hlen)].
        intros r' [Hl Hs]. split; [done|]. intros j.
        apply slot_after_skip; [|apply Hs]. intros _. right. by exists t.
Qed.

Lemma visit_runs E tokens pick idxs results :
  (forall i, i ∈ idxs -> exists t, tokens !! i = Some t /\ pick t <> Thrown) ->
  length results = length tokens ->
  runs (fun r' i => stage tokens pick idxs results r' /\ i = [])
       (visit E tokens pick idxs results).
Proof.
  intros Hin Hlen. eapply runs_quiet.
  - apply invocations_clock.
  - by apply visit_stage.
  - apply visit_clock.
Qed.

Lemma applyMap_visit E tokens m src idxs results w :
  applyMap E tokens m src idxs results w
  = visit E tokens (pick_map m src) idxs results w.
Proof.
  revert results w. induction idxs as [|i idxs IH]; intros results w; simpl; [done|].
  destruct (filled results i); [apply IH|].
  unfold bind. destruct (token_at tokens i w) as [[t|] w1]; [|done].
  unfold pick_map, pick_price, dex_price, price_in.
  destruct (m !! toLowerCase (contract_address t)) as [[v|]|]; [|apply IH..].
  destruct (toPriceResult _ _ _ _ _ _ w1) as [[r|] w2]; [apply IH|done].
Qed.

Lemma apply_slugs_visit E slug tokens m src idxs results w :
  apply_slugs E slug tokens m src idxs results w
  = visit E tokens (pick_slug slug m src) idxs results w.
Proof.
  revert results w. induction idxs as [|i idxs IH]; intros results w; simpl; [done|].
  destruct (filled results i); [apply IH|].
  unfold bind. destruct (token_at tokens i w) as [[t|] w1]; [|done].
  unfold pick_slug, price_in. destruct (slug t) as [s|]; [|done].
  destruct (m !! toLowerCase s) as [[v|]|]; [|apply IH..].
  destruct (toPriceResult _ _ _ _ _ _ w1) as [[r|] w2]; [apply IH|done].
Qed.

Lemma fill_remaining_visit E tokens idxs results w :
  fill_remaining E tokens idxs results w
  = visit E tokens pick_null idxs results w.
Proof.
  revert results w. induction idxs as [|i idxs IH]; intros results w; simpl; [done|].
  destruct (filled results i); [apply IH|].
  unfold bind. destruct (token_at tokens i w) as [[t|] w1]; [|done].
  unfold pick_null.
  destruct (toPriceResult _ _ _ _ _ _ w1) as [[r|] w2]; [apply IH|done].
Qed.

Lemma runs_ext {A} (Q : A -> list (Source * list string) -> Prop) (m m' : Run A) :
  (forall w, m w = m' w) -> runs Q m' -> runs Q m.
Proof. intros Heq Hm w. rewrite Heq. apply Hm. Qed.

(** ** The cache pass *)

Lemma cache_loop_snd E ts i results need :
  snd (cache_loop E ts i results need) = need ++ misses E ts i.
Proof.
  revert i results need. induction ts as [|t ts IH]; intros i results need; simpl.
  - by rewrite app_nil_r.
  - unfold cached. destruct (cacheGet E _); rewrite IH; [done|].
    by rewrite <- app_assoc.
Qed.

Lemma cache_loop_length E ts i results need :
  length (fst (cache_loop E ts i results need)) = length results.
Proof.
  revert i results need. induction ts as [|t ts IH]; intros i results need; simpl.
  - done.
  - destruct (cacheGet E _); rewrite IH; [apply length_insert|done].
Qed.

Lemma cache_loop_lookup E ts i results need j :
  (i + length ts <= length results)%nat ->
  fst (cache_loop E ts i results need) !! j
  = match (if decide (i <= j)%nat then ts !! (j - i)%nat else None) with
    | Some t =>
        match cached E t with
        | Some c => Some (Some c)
        | None => results !! j
        end
    | None => results !! j
    end.
Proof.
  revert i results need. induction ts as [|t ts IH]; intros i results need Hlen.
  - simpl. by destruct (decide (i <= j)%nat).
  - simpl in Hlen. simpl cache_loop.
    destruct (cacheGet E (cacheKey (tok_chain t) (contract_address t)))
      as [c|] eqn:Hc.
    + rewrite IH by (rewrite length_insert; lia).
      destruct (decide (S i <= j)%nat) as [Hle|Hnle].
      * destruct (decide (i <= j)%nat); [|lia].
        replace (j - i)%nat with (S (j - S i)) by lia. simpl.
        rewrite list_lookup_insert_ne by lia. done.
      * destruct (decide (i <= j)%nat) as [Hle'|Hnle'].
        -- assert (j = i) as -> by lia. rewrite Nat.sub_diag. simpl.
           unfold cached. rewrite Hc. apply list_lookup_insert_eq. lia.
        -- rewrite list_lookup_insert_ne by lia. done.
    + rewrite IH by lia.
      destruct (decide (S i <= j)%nat) as [Hle|Hnle].
      * destruct (decide (i <= j)%nat); [|lia].
        replace (j - i)%nat with (S (j - S i)) by lia. done.
      * destruct (decide (i <= j)%nat) as [Hle'|Hnle']; [|done].
        assert (j = i) as -> by lia. rewrite Nat.sub_diag. simpl.
        unfold cached. by rewrite Hc.
Qed.

Lemma misses_elem E ts i j :
  j ∈ misses E ts i <->
  (i <= j)%nat /\ exists t, ts !! (j - i)%nat = Some t /\ cached E t = None.
Proof.
  revert i. induction ts as [|t ts IH]; intros i; simpl.
  - rewrite elem_of_nil. split; [done|]. by intros [_ (t & [=] & _)].
  - destruct (cached E t) as [c|] eqn:Hc.
    + rewrite IH. split.
      * intros [Hle (t' & Ht' & Hc')]. split; [lia|]. exists t'.
        replace (j - i)%nat with (S (j - S i)) by lia. done.
      * intros [Hle (t' & Ht' & Hc')].
        destruct (decide (j = i)) as [->|Hne].
        -- rewrite Nat.sub_diag in Ht'. simpl in Ht'. congruence.
        -- split; [lia|]. exists t'.
           replace (j - i)%nat with (S (j - S i)) in Ht' by lia. done.
    + rewrite elem_of_cons, IH. split.
      * intros [->|[Hle (t' & Ht' & Hc')]].
        -- split; [lia|]. exists t. rewrite Nat.sub_diag. done.
        -- split; [lia|]. exists t'.
           replace (j - i)%nat with (S (j - S i)) by lia. done.
      * intros [Hle (t' & Ht' & Hc')].
        destruct (decide (j = i)) as [->|Hne]; [by left|]. right.
        split; [lia|]. exists t'.
        replace (j - i)%nat with (S (j - S i)) in Ht' by lia. done.
Qed.

Lemma cache_pass_need E tokens : snd (cache_pass E tokens) = misses E tokens 0.
Proof. unfold cache_pass. by rewrite cache_loop_snd. Qed.

Lemma cache_pass_length E tokens :
  length (fst (cache_pass E tokens)) = length tokens.
Proof. unfold cache_pass. by rewrite cache_loop_length, length_replicate. Qed.

Lemma cache_pass_lookup E tokens j t :
  tokens !! j = Some t -> fst (cache_pass E tokens) !! j = Some (cached E t).
Proof.
  intros Ht. unfold cache_pass.
  rewrite cache_loop_lookup by (rewrite length_replicate; lia).
  destruct (decide (0 <= j)%nat); [|lia]. rewrite Nat.sub_0_r, Ht.
  destruct (cached E t); [done|].
  apply lookup_replicate_2. by apply lookup_lt_Some in Ht.
Qed.

Lemma misses_need E tokens j :
  j ∈ misses E tokens 0 <-> exists t, tokens !! j = Some t /\ cached E t = None.
Proof.
  rewrite misses_elem, Nat.sub_0_r. split; [by intros [_ H]|].
  intros H. split; [lia|done].
Qed.

(** ** Key lists *)

Lemma token_at_some tokens i t w :
  tokens !! i = Some t -> token_at tokens i w = (Ok t, w).
Proof. intros Ht. unfold token_at. by rewrite Ht. Qed.

Lemma mapM_pure {A B} (f : A -> Run B) (h : A -> option B) l w :
  (forall x, x ∈ l -> exists y, h x = Some y /\ forall w, f x w = (Ok y, w)) ->
  mapM f l w = (Ok (omap h l), w).
Proof.
  revert w. induction l as [|x l IH]; intros w Hf; simpl; [done|].
  destruct (Hf x) as (y & Hy & Hfx); [by left|].
  unfold bind. rewrite Hfx, IH by (intros x0 Hx0; apply Hf; by right).
  by rewrite Hy.
Qed.

Lemma dex_addresses_run tokens idxs w :
  (forall i, i ∈ idxs -> is_Some (tokens !! i)) ->
  mapM (fun i => t <- token_at tokens i ;; ret (contract_address t)) idxs w
  = (Ok (keys_for Dexscreener tokens idxs), w).
Proof.
  intros Hin. apply mapM_pure. intros i Hi. destruct (Hin i Hi) as [t Ht].
  exists (contract_address t). split.
  - unfold key_at. by rewrite Ht.
  - intros w0. unfold bind. by rewrite (token_at_some _ _ _ _ Ht).
Qed.

Lemma collect_keys_run slug tokens idxs results w :
  (forall i, i ∈ idxs -> is_Some (tokens !! i)) ->
  collect_keys slug tokens idxs results w
  = (Ok (omap (key_at (slug_key slug) tokens) (unfilled results idxs),
         List.filter (has_key slug tokens) (unfilled results idxs)), w).
Proof.
  revert w. induction idxs as [|i idxs IH]; intros w Hin; simpl; [done|].
  assert (forall i0, i0 ∈ idxs -> is_Some (tokens !! i0)) as Hin'.
  { intros i0 Hi0. apply Hin. by right. }
  unfold unfilled in *. simpl.
  destruct (filled results i) eqn:Hf; simpl; [by apply IH|].
  destruct (Hin i) as [t Ht]; [by left|].
  unfold bind at 1. rewrite (token_at_some _ _ _ _ Ht).
  unfold bind at 1. rewrite (IH w Hin'). simpl.
  assert (key_at (slug_key slug) tokens i = slug_key slug t) as Hk.
  { unfold key_at. by rewrite Ht. }
  unfold has_key. rewrite Hk. unfold slug_key.
  destruct (slug t) as [s|]; [|done].
  by destruct (nonempty (toLowerCase s)).
Qed.

(** ** The provider passes *)

Lemma pick_price_total price_of src (tokens : list SheetTokenRow)
    (idxs : list nat) :
  (forall i, i ∈ idxs -> is_Some (tokens !! i)) ->
  forall i, i ∈ idxs ->
    exists t, tokens !! i = Some t /\ pick_price price_of src t <> Thrown.
Proof. intros Hin i Hi. destruct (Hin i Hi) as [t Ht]. by exists t. Qed.

Lemma dex_pass_runs E tokens need results :
  (forall i, i ∈ need -> is_Some (tokens !! i)) ->
  length results = length tokens ->
  runs (fun r1 inv =>
          exists dm,
            map_from (fetchDexscreenerBatchByTokens E
                        (keys_for Dexscreener tokens need) dexOpts) dm /\
            stage tokens (pick_price (dex_price dm) (Some Dexscreener))
                  need results r1 /\
            inv = [(Dexscreener, keys_for Dexscreener tokens need)])
       (dex_pass E tokens need results).
Proof.
  intros Hin Hlen. unfold dex_pass.
  eapply runs_bind
    with (Q1 := fun a i => a = keys_for Dexscreener tokens need /\ i = []).
  { intros w. exists (keys_for Dexscreener tokens need), [].
    rewrite app_nil_r, dex_addresses_run by done. done. }
  intros ? ? [-> ->].
  eapply runs_bind
    with (Q1 := fun _ i => i = [(Dexscreener, keys_for Dexscreener tokens need)]).
  { by apply runs_emit_invoke. }
  intros [] ? ->.
  eapply runs_bind.
  { apply runs_adapter_catch, fetchDexscreenerBatchByTokens_http. }
  intros dm ? [Hfrom ->].
  eapply runs_ext; [apply applyMap_visit|].
  eapply runs_mono; [|apply visit_runs; [by apply pick_price_total|done]].
  intros r1 i [Hst ->]. exists dm. by rewrite !app_nil_r.
Qed.

Lemma price_in_empty k : price_in ∅ k = None.
Proof. unfold price_in. by rewrite lookup_empty. Qed.

Lemma slug_price_empty slug t : slug_price slug ∅ t = None.
Proof.
  unfold slug_price. destruct (slug_key slug t); simpl; [apply price_in_empty|done].
Qed.

Lemma stage_idle tokens price_of src need results :
  (forall t, price_of t = None) ->
  stage tokens (pick_price price_of src) need results results.
Proof.
  intros Hnone. split; [done|]. intros j. unfold slot_after, pick_price.
  destruct (tokens !! j) as [t|]; [|done]. rewrite Hnone.
  destruct (filled results j); [done|]. by destruct (bool_decide (j ∈ need)).
Qed.

Lemma elem_of_keyed slug tokens results need j :
  j ∈ List.filter (has_key slug tokens) (unfilled results need) <->
  j ∈ need /\ filled results j = false /\ has_key slug tokens j = true.
Proof.
  unfold unfilled. rewrite !list_elem_of_In, !filter_In, negb_true_iff. tauto.
Qed.

Lemma stage_slugs tokens slug m src need results r' :
  stage tokens (pick_slug slug m src)
        (List.filter (has_key slug tokens) (unfilled results need)) results r' ->
  stage tokens (pick_price (slug_price slug m) (Some src)) need results r'.
Proof.
  intros [Hlen Hs]. split; [done|]. intros j. specialize (Hs j).
  unfold slot_after in *. destruct (tokens !! j) as [t|] eqn:Ht; [|done].
  destruct (filled results j) eqn:Hf; [done|].
  assert (key_at (slug_key slug) tokens j = slug_key slug t) as Hk.
  { unfold key_at. by rewrite Ht. }
  destruct (decide (j ∈ need)) as [Hj|Hj].
  - rewrite (bool_decide_eq_true_2 _ Hj).
    destruct (has_key slug tokens j) eqn:Hh.
    + rewrite bool_decide_eq_true_2 in Hs by (by apply elem_of_keyed).
      unfold has_key in Hh. rewrite Hk in Hh.
      unfold pick_slug in Hs. unfold pick_price, slug_price.
      unfold slug_key in *. destruct (slug t) as [s|]; [|done].
      destruct (nonempty (toLowerCase s)); [|done]. exact Hs.
    + rewrite bool_decide_eq_false_2 in Hs.
      2:{ intros Hin. apply elem_of_keyed in Hin as (_ & _ & Hin). congruence. }
      unfold has_key in Hh. rewrite Hk in Hh.
      unfold pick_price, slug_price. by destruct (slug_key slug t).
  - rewrite (bool_decide_eq_false_2 _ Hj).
    rewrite bool_decide_eq_false_2 in Hs; [done|].
    intros Hin. by apply elem_of_keyed in Hin as (? & _).
Qed.

Lemma keyed_total slug m src tokens results need :
  forall i, i ∈ List.filter (has_key slug tokens) (unfilled results need) ->
    exists t, tokens !! i = Some t /\ pick_slug slug m src t <> Thrown.
Proof.
  intros i Hi. apply elem_of_keyed in Hi as (_ & _ & Hh).
  unfold has_key, key_at in Hh. destruct (tokens !! i) as [t|]; [|done].
  exists t. split; [done|]. unfold pick_slug, slug_key in *.
  by destruct (slug t).
Qed.

(** The part of steps 2 and 3 that follows the key-collecting loop. *)
Lemma slug_tail_runs E slug src tokens need results
    (adapter : list string -> Run (gmap string (option Q))) :
  length results = length tokens ->
  (forall ks, appends is_http (adapter ks)) ->
  let ks := omap (key_at (slug_key slug) tokens) (unfilled results need) in
  let idxs := List.filter (has_key slug tokens) (unfilled results need) in
  runs (fun r' inv =>
          exists m,
            map_from (adapter ks) m /\
            stage tokens (pick_price (slug_price slug m) (Some src))
                  need results r' /\
            inv = invocation src ks)
       (match ks with
        | [] => ret results
        | _ :: _ =>
            _ <- emit (Invoke src ks) ;;
            m <- catch (adapter ks) (ret ∅) ;;
            apply_slugs E slug tokens m src idxs results
        end).
Proof.
  intros Hlen Hhttp ks idxs. destruct ks as [|k0 ks0] eqn:Hks.
  - apply runs_ret. exists ∅. split; [by left|]. split; [|done].
    apply stage_idle. apply slug_price_empty.
  - rewrite <- Hks.
    eapply runs_bind with (Q1 := fun _ i => i = [(src, ks)]).
    { by apply runs_emit_invoke. }
    intros [] ? ->.
    eapply runs_bind; [apply runs_adapter_catch, Hhttp|].
    intros m ? [Hfrom ->].
    eapply runs_ext; [apply apply_slugs_visit|].
    eapply runs_mono; [|apply visit_runs; [apply keyed_total|done]].
    intros r' i [Hst ->]. exists m. split; [done|].
    split; [by apply stage_slugs|]. rewrite !app_nil_r. by rewrite Hks.
Qed.

Lemma gecko_pass_runs E tokens need results :
  (forall i, i ∈ need -> is_Some (tokens !! i)) ->
  length results = length tokens ->
  runs (fun r' inv =>
          exists m,
            map_from (fetchCoingeckoBatchByIds E
                        (keys_for Coingecko tokens (unfilled results need))
                        geckoOpts) m /\
            stage tokens (pick_price (slug_price coingecko_id m) (Some Coingecko))
                  need results r' /\
            inv = invocation Coingecko
                    (keys_for Coingecko tokens (unfilled results need)))
       (gecko_pass E tokens need results).
Proof.
  intros Hin Hlen w. unfold gecko_pass, bind at 1.
  rewrite collect_keys_run by done. simpl fst. simpl snd.
  pose proof (slug_tail_runs E coingecko_id Coingecko tokens need results
                (fun ks => fetchCoingeckoBatchByIds E ks geckoOpts) Hlen
                (fun ks => fetchCoingeckoBatchByIds_http E ks geckoOpts) w) as H.
  simpl in H. unfold keys_for, provider_key.
  destruct (omap (key_at (slug_key coingecko_id) tokens) (unfilled results need));
    exact H.
Qed.

Lemma cmc_pass_runs E tokens need results :
  (forall i, i ∈ need -> is_Some (tokens !! i)) ->
  length results = length tokens ->
  runs (fun r' inv =>
          exists m,
            map_from (fetchCmcBatchBySlugs E
                        (keys_for Cmc tokens (unfilled results need)) cmcOpts) m /\
            stage tokens (pick_price (slug_price cmc_slug m) (Some Cmc))
                  need results r' /\
            inv = invocation Cmc (keys_for Cmc tokens (unfilled results need)))
       (cmc_pass E tokens need results).
Proof.
  intros Hin Hlen w. unfold cmc_pass, bind at 1.
  rewrite collect_keys_run by done. simpl fst. simpl snd.
  pose proof (slug_tail_runs E cmc_slug Cmc tokens need results
                (fun ks => fetchCmcBatchBySlugs E ks cmcOpts) Hlen
                (fun ks => fetchCmcBatchBySlugs_http E ks cmcOpts) w) as H.
  simpl in H. unfold keys_for, provider_key.
  destruct (omap (key_at (slug_key cmc_slug) tokens) (unfilled results need));
    exact H.
Qed.

Lemma fill_remaining_runs E tokens need results :
  (forall i, i ∈ need -> is_Some (tokens !! i)) ->
  length results = length tokens ->
  runs (fun r' inv => stage tokens pick_null need results r' /\ inv = [])
       (fill_remaining E tokens need results).
Proof.
  intros Hin Hlen. eapply runs_ext; [apply fill_remaining_visit|].
  apply visit_runs; [|done]. intros i Hi. destruct (Hin i Hi) as [t Ht].
  by exists t.
Qed.

(** ** Composing the passes *)

Lemma stage_keep tokens pick idxs results r' j :
  stage tokens pick idxs results r' -> filled results j = true ->
  r' !! j = results !! j /\ filled r' j = true.
Proof.
  intros [_ Hs] Hf. specialize (Hs j). unfold slot_after in Hs. rewrite Hf in Hs.
  assert (r' !! j = results !! j) as Heq by (by destruct (tokens !! j)).
  split; [done|]. unfold filled in *. by rewrite Heq.
Qed.

Lemma stage_price tokens price_of src need results r' j t :
  stage tokens (pick_price price_of src) need results r' ->
  tokens !! j = Some t -> j ∈ need -> filled results j = false ->
  match price_of t with
  | Some v => exists ts, r' !! j = Some (Some (mkResult t (Some v) src ts))
  | None => r' !! j = results !! j
  end.
Proof.
  intros [_ Hs] Ht Hj Hf. specialize (Hs j). unfold slot_after in Hs.
  rewrite Ht, Hf, (bool_decide_eq_true_2 _ Hj) in Hs. unfold pick_price in Hs.
  by destruct (price_of t).
Qed.

Lemma stage_null tokens need results r' j t :
  stage tokens pick_null need results r' ->
  tokens !! j = Some t -> j ∈ need -> filled results j = false ->
  exists ts, r' !! j = Some (Some (mkResult t None None ts)).
Proof.
  intros [_ Hs] Ht Hj Hf. specialize (Hs j). unfold slot_after in Hs.
  by rewrite Ht, Hf, (bool_decide_eq_true_2 _ Hj) in Hs.
Qed.

Lemma filled_lookup (results : list (option PriceResult)) j x :
  results !! j = Some x -> filled results j = match x with Some _ => true | None => false end.
Proof. intros H. unfold filled. rewrite H. by destruct x. Qed.

Section Compose.
Context (tokens : list SheetTokenRow) (need : list nat).
Context (dm gm cm : gmap string (option Q)).
Context (r0 r1 r2 r3 out : list (option PriceResult)).
Hypothesis Hdex :
  stage tokens (pick_price (dex_price dm) (Some Dexscreener)) need r0 r1.
Hypothesis Hgecko :
  stage tokens (pick_price (slug_price coingecko_id gm) (Some Coingecko)) need r1 r2.
Hypothesis Hcmc :
  stage tokens (pick_price (slug_price cmc_slug cm) (Some Cmc)) need r2 r3.
Hypothesis Hfill : stage tokens pick_null need r3 out.

Lemma compose_length : length out = length r0.
Proof.
  destruct Hdex as [H1 _], Hgecko as [H2 _], Hcmc as [H3 _], Hfill as [H4 _].
  congruence.
Qed.

Lemma compose_cached j c : r0 !! j = Some (Some c) -> out !! j = Some (Some c).
Proof.
  intros H0. pose proof (filled_lookup _ _ _ H0) as F0. simpl in F0.
  destruct (stage_keep _ _ _ _ _ j Hdex F0) as [E1 F1].
  destruct (stage_keep _ _ _ _ _ j Hgecko F1) as [E2 F2].
  destruct (stage_keep _ _ _ _ _ j Hcmc F2) as [E3 F3].
  destruct (stage_keep _ _ _ _ _ j Hfill F3) as [E4 _].
  congruence.
Qed.

Lemma compose_uncached j t :
  tokens !! j = Some t -> j ∈ need -> r0 !! j = Some None ->
  (exists ts, out !! j = Some (Some (resolve t dm gm cm ts))) /\
  filled r1 j = is_priced (dex_price dm t) /\
  filled r2 j = (is_priced (dex_price dm t)
                 || is_priced (slug_price coingecko_id gm t))%bool.
Proof.
  intros Ht Hj H0. pose proof (filled_lookup _ _ _ H0) as F0. simpl in F0.
  pose proof (stage_price _ _ _ _ _ _ j t Hdex Ht Hj F0) as S1.
  unfold resolve. destruct (dex_price dm t) as [v|] eqn:Hd; simpl.
  - destruct S1 as [ts S1].
    pose proof (filled_lookup _ _ _ S1) as F1. simpl in F1.
    destruct (stage_keep _ _ _ _ _ j Hgecko F1) as [E2 F2].
    destruct (stage_keep _ _ _ _ _ j Hcmc F2) as [E3 F3].
    destruct (stage_keep _ _ _ _ _ j Hfill F3) as [E4 _].
    split; [exists ts; congruence|done].
  - rewrite H0 in S1. pose proof (filled_lookup _ _ _ S1) as F1. simpl in F1.
    pose proof (stage_price _ _ _ _ _ _ j t Hgecko Ht Hj F1) as S2.
    destruct (slug_price coingecko_id gm t) as [v|] eqn:Hg; simpl.
    + destruct S2 as [ts S2].
      pose proof (filled_lookup _ _ _ S2) as F2. simpl in F2.
      destruct (stage_keep _ _ _ _ _ j Hcmc F2) as [E3 F3].
      destruct (stage_keep _ _ _ _ _ j Hfill F3) as [E4 _].
      split; [exists ts; congruence|done].
    + rewrite S1 in S2. pose proof (filled_lookup _ _ _ S2) as F2. simpl in F2.
      split; [|done].
      pose proof (stage_price _ _ _ _ _ _ j t Hcmc Ht Hj F2) as S3.
      destruct (slug_price cmc_slug cm t) as [v|] eqn:Hc.
      * destruct S3 as [ts S3].
        pose proof (filled_lookup _ _ _ S3) as F3. simpl in F3.
        destruct (stage_keep _ _ _ _ _ j Hfill F3) as [E4 _].
        exists ts. congruence.
      * rewrite S2 in S3. pose proof (filled_lookup _ _ _ S3) as F3. simpl in F3.
        exact (stage_null _ _ _ _ j t Hfill Ht Hj F3).
Qed.
End Compose.

Lemma resolved_by_resolve out j t dm gm cm ts :
  out !! j = Some (Some (resolve t dm gm cm ts)) ->
  resolved_by [Dexscreener] out j = is_priced (dex_price dm t) /\
  resolved_by [Dexscreener; Coingecko] out j
  = (is_priced (dex_price dm t) || is_priced (slug_price coingecko_id gm t))%bool.
Proof.
  intros Ho. unfold resolved_by. rewrite Ho. unfold resolve.
  destruct (dex_price dm t); [done|].
  destruct (slug_price coingecko_id gm t); [done|].
  by destruct (slug_price cmc_slug cm t).
Qed.

Lemma pipeline_body_runs E tokens need r0 :
  (forall i, i ∈ need -> is_Some (tokens !! i)) ->
  length r0 = length tokens ->
  runs (fun out inv =>
          exists dm gm cm r1 r2 r3,
            map_from (fetchDexscreenerBatchByTokens E
                        (keys_for Dexscreener tokens need) dexOpts) dm /\
            map_from (fetchCoingeckoBatchByIds E
                        (keys_for Coingecko tokens (unfilled r1 need)) geckoOpts) gm /\
            map_from (fetchCmcBatchBySlugs E
                        (keys_for Cmc tokens (unfilled r2 need)) cmcOpts) cm /\
            stage tokens (pick_price (dex_price dm) (Some Dexscreener)) need r0 r1 /\
            stage tokens (pick_price (slug_price coingecko_id gm) (Some Coingecko))
                  need r1 r2 /\
            stage tokens (pick_price (slug_price cmc_slug cm) (Some Cmc)) need r2 r3 /\
            stage tokens pick_null need r3 out /\
            inv = (Dexscreener, keys_for Dexscreener tokens need)
                  :: invocation Coingecko (keys_for Coingecko tokens (unfilled r1 need))
                  ++ invocation Cmc (keys_for Cmc tokens (unfilled r2 need)))
       (results1 <- dex_pass E tokens need r0 ;;
        results2 <- gecko_pass E tokens need results1 ;;
        results3 <- cmc_pass E tokens need results2 ;;
        fill_remaining E tokens need results3).
Proof.
  intros Hin Hlen.
  eapply runs_bind; [by apply dex_pass_runs|].
  intros r1 ? (dm & Hdm & S1 & ->).
  assert (length r1 = length tokens) as L1 by (destruct S1; congruence).
  eapply runs_bind; [by apply gecko_pass_runs|].
  intros r2 ? (gm & Hgm & S2 & ->).
  assert (length r2 = length tokens) as L2 by (destruct S2; congruence).
  eapply runs_bind; [by apply cmc_pass_runs|].
  intros r3 ? (cm & Hcm & S3 & ->).
  assert (length r3 = length tokens) as L3 by (destruct S3; congruence).
  eapply runs_mono; [|by apply fill_remaining_runs].
  intros out ? [S4 ->]. exists dm, gm, cm, r1, r2, r3.
  repeat (split; [done|]). by rewrite app_nil_r.
Qed.

Lemma fetchAllPrices_runs E tokens :
  runs (pipeline_outcome E tokens) (fetchAllPrices E tokens).
Proof.
  unfold fetchAllPrices.
  pose proof (cache_pass_need E tokens) as Hn.
  pose proof (cache_pass_length E tokens) as Hl.
  pose proof (cache_pass_lookup E tokens) as Hlk.
  destruct (cache_pass E tokens) as [r0 need]. simpl in Hn, Hl, Hlk. subst need.
  assert (forall i, i ∈ misses E tokens 0 -> is_Some (tokens !! i)) as Hin.
  { intros i Hi. apply misses_need in Hi as (t & Ht & _). by exists t. }
  destruct (misses E tokens 0) as [|n0 rest] eqn:Hm.
  - apply runs_ret. unfold pipeline_outcome. rewrite Hm.
    exists ∅, ∅, ∅. repeat (split; [by left|]). split; [done|]. split; [|done].
    intros j t Ht. destruct (cached E t) as [c|] eqn:Hc.
    + by rewrite (Hlk j t Ht), Hc.
    + assert (j ∈ misses E tokens 0) as Hj by (apply misses_need; by exists t).
      rewrite Hm in Hj. by apply elem_of_nil in Hj.
  - rewrite <- Hm in *.
    eapply runs_mono; [|apply (pipeline_body_runs E tokens _ r0 Hin Hl)].
    intros out inv (dm & gm & cm & r1 & r2 & r3 & Hdm & Hgm & Hcm
                    & S1 & S2 & S3 & S4 & ->).
    assert (forall j t, tokens !! j = Some t -> cached E t = None ->
              (exists ts, out !! j = Some (Some (resolve t dm gm cm ts))) /\
              filled r1 j = is_priced (dex_price dm t) /\
              filled r2 j = (is_priced (dex_price dm t)
                             || is_priced (slug_price coingecko_id gm t))%bool)
      as Hun.
    { intros j t Ht Hc.
      apply (compose_uncached tokens (misses E tokens 0) dm gm cm r0 r1 r2 r3 out
               S1 S2 S3 S4 j t Ht).
      - apply misses_need. by exists t.
      - by rewrite (Hlk j t Ht), Hc. }
    assert (unfilled r1 (misses E tokens 0)
            = still_pending [Dexscreener] out (misses E tokens 0)) as Hp1.
    { unfold unfilled, still_pending. apply filter_ext_in. intros j Hj.
      apply list_elem_of_In, misses_need in Hj as (t & Ht & Hc).
      destruct (Hun j t Ht Hc) as ([ts Ho] & F1 & _).
      destruct (resolved_by_resolve out j t dm gm cm ts Ho) as [R1 _].
      by rewrite F1, R1. }
    assert (unfilled r2 (misses E tokens 0)
            = still_pending [Dexscreener; Coingecko] out (misses E tokens 0)) as Hp2.
    { unfold unfilled, still_pending. apply filter_ext_in. intros j Hj.
      apply list_elem_of_In, misses_need in Hj as (t & Ht & Hc).
      destruct (Hun j t Ht Hc) as ([ts Ho] & _ & F2).
      destruct (resolved_by_resolve out j t dm gm cm ts Ho) as [_ R2].
      by rewrite F2, R2. }
    unfold pipeline_outcome. rewrite <- Hp1, <- Hp2.
    exists dm, gm, cm. repeat (split; [done|]).
    split; [by rewrite (compose_length tokens _ dm gm cm r0 r1 r2 r3 out S1 S2 S3 S4)|].
    split.
    + intros j t Ht. destruct (cached E t) as [c|] eqn:Hc.
      * apply (compose_cached tokens (misses E tokens 0) dm gm cm r0 r1 r2 r3 out
                 S1 S2 S3 S4).
        by rewrite (Hlk j t Ht), Hc.
      * apply (Hun j t Ht Hc).
    + by rewrite Hm.
Qed.

(** ** An unreachable upstream *)

Section Outage.
Context (E : Env).
Hypothesis Hdown : forall h r, net E h r = Failed.

Lemma request_fails r w : request E r w = (Thrown, w ++ [Http r]).
Proof. unfold request. by rewrite Hdown. Qed.

Lemma pRetry_request_fails n r w : fst (pRetry n (request E r) w) = Thrown.
Proof.
  revert w. induction n as [|n IH]; intros w; cbn [pRetry];
    rewrite request_fails; [done|apply IH].
Qed.

Lemma pRetry_request_never n r : on_ok (fun _ => False) (pRetry n (request E r)).
Proof.
  intros w a w' Hr. pose proof (pRetry_request_fails n r w) as Hf.
  rewrite Hr in Hf. discriminate.
Qed.

Lemma on_ok_bind_never {A B} (Q : B -> Prop) (m : Run A) (k : A -> Run B) :
  on_ok (fun _ => False) m -> on_ok Q (bind m k).
Proof. intros Hm. eapply on_ok_bind; [exact Hm|]. by intros a []. Qed.

Lemma prefill_unpriced {A} (key : A -> string) (u : list A) k :
  price_in (prefill key u) k = None.
Proof.
  unfold prefill.
  assert (forall out : gmap string (option Q),
            price_in out k = None ->
            price_in (fold_left (fun out r => <[key r := None]> out) u out) k
            = None) as Hgen.
  { induction u as [|r u IH]; intros out Hout; simpl; [done|].
    apply IH. unfold price_in in *.
    destruct (decide (key r = k)) as [->|Hne].
    - by rewrite lookup_insert_eq.
    - by rewrite lookup_insert_ne. }
  apply Hgen, price_in_empty.
Qed.

Lemma dex_outage ks opts w m w' :
  fetchDexscreenerBatchByTokens E ks opts w = (Ok m, w') ->
  forall k, price_in m k = None.
Proof.
  unfold fetchDexscreenerBatchByTokens.
  destruct (chunk (dex_uniq ks) (dex_batchSize opts)) as [|c cs]; simpl.
  - intros [= <- <-] k. apply prefill_unpriced.
  - intros Hr. exfalso.
    eapply (on_ok_bind_never (fun _ => False)); [|exact Hr].
    apply pRetry_request_never.
Qed.

Lemma gecko_loop_outage n parts (out : gmap string (option Q)) :
  (forall k, price_in out k = None) ->
  on_ok (fun m => forall k, price_in m k = None) (gecko_loop E n parts out).
Proof.
  revert out. induction parts as [|part parts IH]; intros out Hout; simpl.
  - by apply on_ok_ret.
  - eapply on_ok_bind with (Q1 := fun res => res = None).
    + apply on_ok_catch; [|by apply on_ok_ret].
      apply on_ok_bind_never, pRetry_request_never.
    + intros ? ->. apply IH. clear IH. revert out Hout.
      induction part as [|id part IHp]; intros out Hout; simpl; [done|].
      apply IHp. intros k. unfold price_in in *.
      destruct (decide (id = k)) as [->|Hne].
      * rewrite lookup_insert_eq. specialize (Hout k).
        by destruct (out !! k) as [[v|]|].
      * rewrite lookup_insert_ne by done. apply Hout.
Qed.

Lemma gecko_outage ks opts w m w' :
  fetchCoingeckoBatchByIds E ks opts w = (Ok m, w') ->
  forall k, price_in m k = None.
Proof.
  unfold fetchCoingeckoBatchByIds. intros Hr.
  eapply gecko_loop_outage; [|exact Hr]. intros k. apply prefill_unpriced.
Qed.

Lemma fetchCmcPriceBySlug_outage slug :
  on_ok (fun p => p = None) (fetchCmcPriceBySlug E slug).
Proof.
  unfold fetchCmcPriceBySlug, cmcDataApiQuoteBySlug, fetchHtml.
  destruct (negb (nonempty slug)); [by apply on_ok_ret|].
  eapply on_ok_bind with (Q1 := fun p => p = None).
  - apply on_ok_catch; [|by apply on_ok_ret].
    apply on_ok_bind_never, pRetry_request_never.
  - intros ? ->. apply on_ok_catch; [|by apply on_ok_ret].
    apply on_ok_bind_never, pRetry_request_never.
Qed.

Lemma on_ok_mapM {A B} (Q : B -> Prop) (f : A -> Run B) l :
  (forall x, on_ok Q (f x)) -> on_ok (Forall Q) (mapM f l).
Proof.
  intros Hf. induction l as [|x l IH]; simpl; [by apply on_ok_ret|].
  eapply on_ok_bind; [apply Hf|]. intros y Hy.
  eapply on_ok_bind; [apply IH|]. intros ys Hys.
  apply on_ok_ret. by constructor.
Qed.

Lemma cmc_fold_unpriced (part : list string) (results : list (option Q))
    (out : gmap string (option Q)) :
  Forall (fun p => p = None) results ->
  (forall k, price_in out k = None) ->
  forall k,
    price_in (fold_left (fun out jr => <[fst jr := snd jr]> out)
                        (zip part results) out) k = None.
Proof.
  intros Hres. revert part out.
  induction Hres as [|p results -> _ IH]; intros part out Hout k.
  - by destruct part.
  - destruct part as [|s part]; simpl; [done|]. apply IH.
    intros k'. unfold price_in in *.
    destruct (decide (s = k')) as [->|Hne].
    + by rewrite lookup_insert_eq.
    + rewrite lookup_insert_ne by done. apply Hout.
Qed.

Lemma cmc_loop_outage n parts (out : gmap string (option Q)) :
  (forall k, price_in out k = None) ->
  on_ok (fun m => forall k, price_in m k = None) (cmc_loop E n parts out).
Proof.
  revert out. induction parts as [|part parts IH]; intros out Hout; simpl.
  - by apply on_ok_ret.
  - eapply on_ok_bind.
    + apply (on_ok_mapM (fun p => p = None)). intros slug.
      apply on_ok_pRetry, fetchCmcPriceBySlug_outage.
    + intros results Hres. apply IH. by apply cmc_fold_unpriced.
Qed.

Lemma cmc_outage ks opts w m w' :
  fetchCmcBatchBySlugs E ks opts w = (Ok m, w') ->
  forall k, price_in m k = None.
Proof.
  unfold fetchCmcBatchBySlugs. intros Hr.
  eapply cmc_loop_outage; [|exact Hr]. intros k. apply prefill_unpriced.
Qed.

Lemma outage_knows_nothing : adapters_know_nothing E.
Proof.
  split; [|split].
  - apply dex_outage.
  - apply gecko_outage.
  - apply cmc_outage.
Qed.
End Outage.

(** ** Claims about the pipeline *)

Lemma map_from_unpriced (adapter : Run (gmap string (option Q))) m :
  (forall w m w', adapter w = (Ok m, w') -> forall k, price_in m k = None) ->
  map_from adapter m -> forall k, price_in m k = None.
Proof.
  intros Hnone [->|(w0 & w1 & Hr)] k; [apply price_in_empty|by eapply Hnone].
Qed.

Lemma slug_price_unpriced slug m t :
  (forall k, price_in m k = None) -> slug_price slug m t = None.
Proof.
  intros Hm. unfold slug_price. destruct (slug_key slug t); simpl; [apply Hm|done].
Qed.

Lemma resolve_consistent t dm gm cm ts : consistent (resolve t dm gm cm ts).
Proof.
  unfold resolve, consistent.
  destruct (dex_price dm t); [done|].
  destruct (slug_price coingecko_id gm t); [done|].
  by destruct (slug_price cmc_slug cm t).
Qed.

Lemma resolve_identity t dm gm cm ts :
  chain (resolve t dm gm cm ts) = tok_chain t /\
  address (resolve t dm gm cm ts) = toLowerCase (contract_address t).
Proof.
  unfold resolve.
  destruct (dex_price dm t); [done|].
  destruct (slug_price coingecko_id gm t); [done|].
  by destruct (slug_price cmc_slug cm t).
Qed.

Lemma keys_for_elem p tokens idxs k :
  k ∈ keys_for p tokens idxs ->
  exists j t, j ∈ idxs /\ tokens !! j = Some t /\ provider_key p t = Some k.
Proof.
  unfold keys_for. intros Hk. apply list_elem_of_omap in Hk as (j & Hj & Hkey).
  unfold key_at in Hkey. destruct (tokens !! j) as [t|] eqn:Ht; [|done].
  by exists j, t.
Qed.

Lemma still_pending_elem ps out idxs j :
  j ∈ still_pending ps out idxs <-> j ∈ idxs /\ resolved_by ps out j = false.
Proof.
  unfold still_pending.
  by rewrite !list_elem_of_In, filter_In, negb_true_iff.
Qed.

Lemma resolved_by_weaken out j :
  resolved_by [Dexscreener; Coingecko] out j = false ->
  resolved_by [Dexscreener] out j = false.
Proof.
  unfold resolved_by. destruct (out !! j) as [[r|]|]; [|done..].
  by destruct (source r) as [[]|].
Qed.

Lemma invocation_elem p ks x : x ∈ invocation p ks -> x = (p, ks).
Proof.
  unfold invocation. destruct ks; [by intros H%elem_of_nil|].
  by intros H%list_elem_of_singleton.
Qed.

(** Every key of every key list of a run comes from an uncached token; a key
    handed to CoinGecko or CMC comes from a token that Dexscreener did not
    resolve. *)
Lemma pipeline_keys E tokens out inv p ks k :
  pipeline_outcome E tokens out inv -> (p, ks) ∈ inv -> k ∈ ks ->
  exists j t, tokens !! j = Some t /\ cached E t = None /\
              provider_key p t = Some k /\
              (p <> Dexscreener -> resolved_by [Dexscreener] out j = false).
Proof.
  intros (dm & gm & cm & _ & _ & _ & _ & _ & ->) Hin Hk.
  destruct (misses E tokens 0) as [|n0 rest] eqn:Hm; [by apply elem_of_nil in Hin|].
  rewrite <- Hm in Hin.
  apply elem_of_cons in Hin as [Hin|Hin]; [|apply elem_of_app in Hin as [Hin|Hin]].
  - injection Hin as -> ->.
    apply keys_for_elem in Hk as (j & t & Hj & Ht & Hkey).
    apply misses_need in Hj as (t' & Ht' & Hc).
    assert (t' = t) as -> by congruence. exists j, t. by repeat split.
  - apply invocation_elem in Hin. injection Hin as -> ->.
    apply keys_for_elem in Hk as (j & t & Hj & Ht & Hkey).
    apply still_pending_elem in Hj as [Hj Hres].
    apply misses_need in Hj as (t' & Ht' & Hc).
    assert (t' = t) as -> by congruence. exists j, t. by repeat split.
  - apply invocation_elem in Hin. injection Hin as -> ->.
    apply keys_for_elem in Hk as (j & t & Hj & Ht & Hkey).
    apply still_pending_elem in Hj as [Hj Hres].
    apply misses_need in Hj as (t' & Ht' & Hc).
    assert (t' = t) as -> by congruence. exists j, t.
    repeat split; try done. intros _. by apply resolved_by_weaken.
Qed.

(** The example of the specification: Dexscreener returns unknown, the
    CoinGecko adapter knows [pepe]. *)
Example pepe_from_coingecko :
  fst (fetchAllPrices env_pepe [tok_pepe] [])
  = Ok [Some {| chain := "eth"; address := "0xaa"; symbol := None;
                priceUsd := Some (1 # 100000); source := Some Coingecko;
                at_ := "2025-01-01T00:00:00.000Z" |}].
Proof. vm_compute. reflexivity. Qed.

(** C1, as stated, fails: with every adapter returning only unknown, the
    slot of a token whose cache entry carries a price holds that price. *)
Lemma cached_price_survives_outage :
  adapters_know_nothing env_cached /\
  exists w',
    fetchAllPrices env_cached [tok_pepe] [] = (Ok [Some cached_pepe], w') /\
    priceUsd cached_pepe = Some 1%Q.
Proof.
  split; [by apply outage_knows_nothing|]. by eexists.
Qed.

(** C1 (amended). For every list of N tokens [fetchAllPrices] returns a list
    of exactly N results with every slot populated; the result at index i is
    the record cached under the key of token i when there is one, and
    otherwise a fresh record with the chain and the lower-cased address of
    token i; when every adapter returns only unknown, every slot that is not
    served from the cache holds unknown price and unknown source. *)
Theorem fetchAllPrices_populated (E : Env) (tokens : list SheetTokenRow)
    (w : World) :
  exists out evs,
    fetchAllPrices E tokens w = (Ok out, w ++ evs) /\
    length out = length tokens /\
    (forall i t, tokens !! i = Some t ->
       exists r, out !! i = Some (Some r) /\
                 match cached E t with
                 | Some c => r = c
                 | None => chain r = tok_chain t /\
                           address r = toLowerCase (contract_address t)
                 end) /\
    (adapters_know_nothing E ->
     forall i t r, tokens !! i = Some t -> cached E t = None ->
                   out !! i = Some (Some r) ->
                   priceUsd r = None /\ source r = None).
Proof.
  destruct (fetchAllPrices_runs E tokens w)
    as (out & evs & Hr & dm & gm & cm & Hdm & Hgm & Hcm & Hlen & Hslot & _).
  exists out, evs. split; [done|]. split; [done|]. split.
  - intros i t Ht. specialize (Hslot i t Ht).
    destruct (cached E t) as [c|]; [by exists c|].
    destruct Hslot as [ts Ho]. eexists. split; [exact Ho|]. apply resolve_identity.
  - intros (Hd & Hg & Hc) i t r Ht Hcache Ho. specialize (Hslot i t Ht).
    rewrite Hcache in Hslot. destruct Hslot as [ts Ho'].
    assert (r = resolve t dm gm cm ts) as -> by congruence.
    unfold resolve, dex_price.
    rewrite (map_from_unpriced _ dm (Hd _ _) Hdm).
    rewrite (slug_price_unpriced _ gm t (map_from_unpriced _ gm (Hg _ _) Hgm)).
    rewrite (slug_price_unpriced _ cm t (map_from_unpriced _ cm (Hc _ _) Hcm)).
    done.
Qed.

Lemma fetchAllPrices_populated_witness :
  exists out evs,
    fetchAllPrices env_down [tok_pepe] [] = (Ok out, [] ++ evs) /\
    exists r, out !! 0%nat = Some (Some r) /\
              priceUsd r = None /\ source r = None.
Proof.
  destruct (fetchAllPrices_populated env_down [tok_pepe] [])
    as (out & evs & Hr & Hlen & Hslot & Hdeg).
  destruct (Hslot 0%nat tok_pepe eq_refl) as (r & Ho & _).
  exists out, evs. split; [exact Hr|]. exists r. split; [exact Ho|].
  apply (Hdeg (outage_knows_nothing env_down (fun _ _ => eq_refl))
              0%nat tok_pepe r eq_refl eq_refl Ho).
Defined.

(** C2, as stated, fails: the normalizer keeps a null source next to a
    non-null price. *)
Lemma null_source_with_price :
  exists r w',
    toPriceResult env_silent "eth" "0xAA" (Some 1%Q) None None [] = (Ok r, w') /\
    source r = None /\ priceUsd r = Some 1%Q.
Proof. by eexists _, _. Qed.

(** C2 (amended). The normalizer sets [source] to unknown whenever the price
    is unknown, and for a non-null source passed in the result has unknown
    source exactly when it has unknown price; every freshly computed entry
    of the output of [fetchAllPrices] has unknown source exactly when it has
    unknown price. *)
Theorem source_price_consistency (E : Env) :
  (forall c a p s sym w,
     exists r w',
       toPriceResult E c a p s sym w = (Ok r, w') /\
       priceUsd r = p /\
       (priceUsd r = None -> source r = None) /\
       (s <> None -> consistent r)) /\
  (forall tokens w,
     exists out evs,
       fetchAllPrices E tokens w = (Ok out, w ++ evs) /\
       forall i t r, tokens !! i = Some t -> cached E t = None ->
                     out !! i = Some (Some r) -> consistent r).
Proof.
  split.
  - intros c a p s sym w. eexists _, _. split; [reflexivity|]. simpl.
    split; [done|]. unfold consistent. simpl.
    destruct p, s; split; try done; intros ?; try done.
  - intros tokens w.
    destruct (fetchAllPrices_runs E tokens w)
      as (out & evs & Hr & dm & gm & cm & _ & _ & _ & _ & Hslot & _).
    exists out, evs. split; [done|]. intros i t r Ht Hcache Ho.
    specialize (Hslot i t Ht). rewrite Hcache in Hslot. destruct Hslot as [ts Ho'].
    assert (r = resolve t dm gm cm ts) as -> by congruence.
    apply resolve_consistent.
Qed.

Lemma source_price_consistency_witness :
  exists out evs,
    fetchAllPrices env_pepe [tok_pepe] [] = (Ok out, [] ++ evs) /\
    exists r, out !! 0%nat = Some (Some r) /\ consistent r.
Proof.
  destruct (proj2 (source_price_consistency env_pepe) [tok_pepe] [])
    as (out & evs & Hr & Hcons).
  exists out, evs. split; [exact Hr|].
  assert (fst (fetchAllPrices env_pepe [tok_pepe] []) = Ok out) as Hout
    by (by rewrite Hr).
  vm_compute in Hout. injection Hout as <-.
  eexists. split; [reflexivity|].
  exact (Hcons 0%nat tok_pepe _ eq_refl eq_refl eq_refl).
Defined.

(** C3, as stated, fails: Dexscreener resolves the first token, and its
    CoinGecko id is nevertheless in the key list of the CoinGecko adapter,
    because the second, unresolved token carries the same id. *)
Lemma shared_id_is_consulted :
  exists out evs,
    fetchAllPrices env_usdc [tok_usdc_eth; tok_usdc_bsc] [] = (Ok out, evs) /\
    resolved_by [Dexscreener] out 0 = true /\
    provider_key Coingecko tok_usdc_eth = Some "usd-coin" /\
    invocations evs
    = [(Dexscreener, ["0xaa"; "0xbb"]); (Coingecko, ["usd-coin"])].
Proof. eexists _, _. split; [vm_compute; reflexivity|]. by vm_compute. Qed.

(** C3 (amended). The adapters are invoked in the order Dexscreener,
    CoinGecko, CMC, each at most once; the CoinGecko key list is built from
    the uncached indices that Dexscreener did not resolve and the CMC key
    list from those that neither Dexscreener nor CoinGecko resolved.  So a
    token that the Dexscreener pass resolves contributes no key to a later
    pass: its id or slug is in a later key list only when another token,
    not resolved by Dexscreener, carries the same id or slug. *)
Theorem later_passes_only_on_unresolved (E : Env) (tokens : list SheetTokenRow)
    (w : World) :
  exists out evs,
    fetchAllPrices E tokens w = (Ok out, w ++ evs) /\
    invocations evs
    = match misses E tokens 0 with
      | [] => []
      | need =>
          (Dexscreener, keys_for Dexscreener tokens need)
          :: invocation Coingecko
               (keys_for Coingecko tokens (still_pending [Dexscreener] out need))
          ++ invocation Cmc
               (keys_for Cmc tokens
                  (still_pending [Dexscreener; Coingecko] out need))
      end /\
    (forall i t, tokens !! i = Some t -> cached E t = None ->
       resolved_by [Dexscreener] out i = true ->
       (i ∉ still_pending [Dexscreener] out (misses E tokens 0)) /\
       (i ∉ still_pending [Dexscreener; Coingecko] out (misses E tokens 0)) /\
       forall p ks k, p <> Dexscreener -> (p, ks) ∈ invocations evs -> k ∈ ks ->
         exists j t', j <> i /\ tokens !! j = Some t' /\
                      provider_key p t' = Some k /\
                      resolved_by [Dexscreener] out j = false).
Proof.
  destruct (fetchAllPrices_runs E tokens w) as (out & evs & Hr & Hout).
  exists out, evs. split; [done|]. split.
  - destruct Hout as (dm & gm & cm & _ & _ & _ & _ & _ & ->).
    by destruct (misses E tokens 0).
  - intros i t Ht Hcache Hres. split; [|split].
    + intros Hin. apply still_pending_elem in Hin as [_ Hin]. congruence.
    + intros Hin. apply still_pending_elem in Hin as [_ Hin].
      apply resolved_by_weaken in Hin. congruence.
    + intros p ks k Hp Hin Hk.
      destruct (pipeline_keys E tokens out _ p ks k Hout Hin Hk)
        as (j & t' & Ht' & _ & Hkey & Hnot).
      exists j, t'. repeat split; try done; [|by apply Hnot].
      intros ->. specialize (Hnot Hp). congruence.
Qed.

Lemma later_passes_only_on_unresolved_witness :
  exists out evs,
    fetchAllPrices env_usdc [tok_usdc_eth; tok_usdc_bsc] [] = (Ok out, [] ++ evs) /\
    0%nat ∉ still_pending [Dexscreener] out (misses env_usdc [tok_usdc_eth; tok_usdc_bsc] 0).
Proof.
  destruct (later_passes_only_on_unresolved env_usdc [tok_usdc_eth; tok_usdc_bsc] [])
    as (out & evs & Hr & _ & Hres).
  exists out, evs. split; [exact Hr|].
  apply (Hres 0%nat tok_usdc_eth eq_refl eq_refl).
  assert (fst (fetchAllPrices env_usdc [tok_usdc_eth; tok_usdc_bsc] []) = Ok out)
    as Hout by (by rewrite Hr).
  vm_compute in Hout. injection Hout as <-. reflexivity.
Defined.

(** C4, as stated, fails: the first token is served from the cache, and its
    address is nevertheless in the key list of the Dexscreener adapter,
    because the second token, on another chain and not cached, has the same
    address. *)
Lemma cached_address_is_consulted :
  exists out evs,
    fetchAllPrices env_cached [tok_pepe; tok_pepe_bsc] [] = (Ok out, evs) /\
    cached env_cached tok_pepe = Some cached_pepe /\
    out !! 0%nat = Some (Some cached_pepe) /\
    invocations evs = [(Dexscreener, [contract_address tok_pepe])].
Proof. eexists _, _. split; [vm_compute; reflexivity|]. by vm_compute. Qed.

(** C4 (amended). A token whose key has a cache entry at the start of the
    run gets that record, unchanged (its [at] included), as its output
    slot, and its index is not among those handed to the provider passes:
    every key of every adapter key list comes from a token without a cache
    entry, so the address or slug of a cached token is in a key list only
    when an uncached token carries the same address or slug. *)
Theorem cache_hits_short_circuit (E : Env) (tokens : list SheetTokenRow)
    (w : World) :
  exists out evs,
    fetchAllPrices E tokens w = (Ok out, w ++ evs) /\
    forall i t c, tokens !! i = Some t -> cached E t = Some c ->
      out !! i = Some (Some c) /\
      (i ∉ misses E tokens 0) /\
      forall p ks k, (p, ks) ∈ invocations evs -> k ∈ ks ->
        exists j t', j <> i /\ tokens !! j = Some t' /\ cached E t' = None /\
                     provider_key p t' = Some k.
Proof.
  destruct (fetchAllPrices_runs E tokens w) as (out & evs & Hr & Hout).
  exists out, evs. split; [done|]. intros i t c Ht Hcache. split; [|split].
  - destruct Hout as (dm & gm & cm & _ & _ & _ & _ & Hslot & _).
    specialize (Hslot i t Ht). by rewrite Hcache in Hslot.
  - intros Hin. apply misses_need in Hin as (t' & Ht' & Hc). congruence.
  - intros p ks k Hin Hk.
    destruct (pipeline_keys E tokens out _ p ks k Hout Hin Hk)
      as (j & t' & Ht' & Hc & Hkey & _).
    exists j, t'. repeat split; try done. intros ->. congruence.
Qed.

Lemma cache_hits_short_circuit_witness :
  exists out evs,
    fetchAllPrices env_cached [tok_pepe; tok_pepe_bsc] [] = (Ok out, [] ++ evs) /\
    out !! 0%nat = Some (Some cached_pepe).
Proof.
  destruct (cache_hits_short_circuit env_cached [tok_pepe; tok_pepe_bsc] [])
    as (out & evs & Hr & Hhit).
  exists out, evs. split; [exact Hr|].
  apply (Hhit 0%nat tok_pepe cached_pepe eq_refl eq_refl).
Defined.

(** * Further properties *)

(** ** chunk *)

Lemma chunk_rounds_nonempty {A} rounds size (arr : list A) :
  (1 <= size)%nat ->
  Forall (fun c => c <> []) (chunk_rounds rounds size arr).
Proof.
  intros Hsize. revert arr. induction rounds as [|n IH]; intros arr; simpl.
  - constructor.
  - destruct arr as [|x arr]; [constructor|]. constructor; [|apply IH].
    destruct size; [lia|]. discriminate.
Qed.

Lemma chunk_rounds_count {A} rounds size (arr : list A) :
  (1 <= size)%nat -> (length arr <= rounds)%nat ->
  length (chunk_rounds rounds size arr) = ((length arr + size - 1) / size)%nat.
Proof.
  intros Hsize. revert arr. induction rounds as [|n IH]; intros arr Hlen.
  - destruct arr; [|simpl in Hlen; lia]. simpl.
    symmetry. apply Nat.div_small. lia.
  - destruct arr as [|x arr].
    + simpl. symmetry. apply Nat.div_small. lia.
    + simpl chunk_rounds. simpl length at 1.
      rewrite IH by (rewrite length_drop; simpl in *; lia).
      rewrite length_drop. simpl length.
      destruct (decide (S (length arr) <= size)%nat) as [Hle|Hgt].
      * replace (S (length arr) - size)%nat with 0%nat by lia.
        rewrite (Nat.div_small (0 + size - 1) size) by lia.
        simpl. apply (Nat.div_unique _ _ 1%nat (length arr)); lia.
      * replace (S (length arr) + size - 1)%nat
          with ((S (length arr) - size + size - 1) + 1 * size)%nat by lia.
        rewrite Nat.div_add by lia. lia.
Qed.

(** X1. [chunk] cuts an array into consecutive pieces: their concatenation
    is the array, every piece is non-empty and holds at most [size]
    elements, and there are ceil(length / size) of them. *)
Theorem chunk_partition {A} (arr : list A) (size : nat) :
  (1 <= size)%nat ->
  concat (chunk arr size) = arr /\
  Forall (fun c => c <> [] /\ (length c <= size)%nat) (chunk arr size) /\
  length (chunk arr size) = ((length arr + size - 1) / size)%nat.
Proof.
  intros Hsize. split; [by apply chunk_concat|]. split.
  - apply Forall_and. split.
    + by apply chunk_rounds_nonempty.
    + apply chunk_rounds_sizes.
  - by apply chunk_rounds_count.
Qed.

Lemma chunk_partition_witness :
  concat (chunk [1; 2; 3; 4; 5; 6; 7]%nat 3) = [1; 2; 3; 4; 5; 6; 7]%nat /\
  length (chunk [1; 2; 3; 4; 5; 6; 7]%nat 3) = 3%nat.
Proof.
  destruct (chunk_partition [1; 2; 3; 4; 5; 6; 7]%nat 3) as (Hc & _ & Hn); [lia|].
  split; [exact Hc|exact Hn].
Defined.

(** ** pickBestPair: ties *)

Lemma sort_head_stable {A} (cmp : A -> A -> Q) l b :
  head (sort cmp l) = Some b ->
  exists l1 l2, l = l1 ++ b :: l2 /\ forall p, p ∈ l1 -> (0 < cmp p b)%Q.
Proof.
  revert b. induction l as [|x l IH]; intros b; simpl; [discriminate|].
  destruct (sort cmp l) as [|h s] eqn:Hs; simpl.
  - intros [= <-]. exists [], l. split; [done|]. intros p Hp.
    by apply elem_of_nil in Hp.
  - destruct (IH h eq_refl) as (l1 & l2 & -> & Hl1).
    destruct (Qltb 0 (cmp x h)) eqn:Hc; simpl; intros [= <-].
    + apply Qltb_true in Hc. exists (x :: l1), l2. split; [done|].
      intros p Hp. apply elem_of_cons in Hp as [->|Hp]; [done|by apply Hl1].
    + exists [], (l1 ++ h :: l2). split; [done|]. intros p Hp.
      by apply elem_of_nil in Hp.
Qed.

(** X2. Among priced pairs that are equally good, [pickBestPair] returns the
    one that comes first in the response: every priced pair in front of the
    selected one is strictly worse. *)
Theorem pickBestPair_first_among_ties (pairs : list DexPair) (best : DexPair) :
  pickBestPair pairs = Some best ->
  exists before after,
    List.filter has_price pairs = before ++ best :: after /\
    forall p, p ∈ before -> ~ at_least_as_good p best.
Proof.
  unfold pickBestPair. intros Hbest.
  destruct (sort_head_stable comparePairs _ _ Hbest) as (l1 & l2 & Hl & Hl1).
  exists l1, l2. split; [done|]. intros p Hp Hgood.
  apply comparePairs_le in Hgood. specialize (Hl1 p Hp). lra.
Qed.

Lemma pickBestPair_first_among_ties_witness :
  exists before after,
    List.filter has_price [pair_thin; pair_deep; pair_deep]
    = before ++ pair_deep :: after /\
    forall p, p ∈ before -> ~ at_least_as_good p pair_deep.
Proof.
  apply (pickBestPair_first_among_ties [pair_thin; pair_deep; pair_deep]).
  reflexivity.
Defined.

(** ** summarize: the counters one by one *)

Lemma summarize_step_counter acc p :
  n_dexscreener (fst (summarize_step acc p))
  = (n_dexscreener (fst acc) + if priced_by Dexscreener p then 1 else 0)%Z /\
  n_coingecko (fst (summarize_step acc p))
  = (n_coingecko (fst acc) + if priced_by Coingecko p then 1 else 0)%Z /\
  n_cmc (fst (summarize_step acc p))
  = (n_cmc (fst acc) + if priced_by Cmc p then 1 else 0)%Z.
Proof.
  destruct acc as [bs wp]; destruct p as [r|]; simpl; [|lia].
  destruct (priceUsd r); simpl; [|lia].
  destruct (source r) as [[]|]; simpl; lia.
Qed.

Lemma fold_summarize_counter prices acc :
  n_dexscreener (fst (fold_left summarize_step prices acc))
  = (n_dexscreener (fst acc) + count_by Dexscreener prices)%Z /\
  n_coingecko (fst (fold_left summarize_step prices acc))
  = (n_coingecko (fst acc) + count_by Coingecko prices)%Z /\
  n_cmc (fst (fold_left summarize_step prices acc))
  = (n_cmc (fst acc) + count_by Cmc prices)%Z.
Proof.
  revert acc. unfold count_by.
  induction prices as [|p prices IH]; intros acc; simpl; [lia|].
  destruct (IH (summarize_step acc p)) as (H1 & H2 & H3).
  destruct (summarize_step_counter acc p) as (S1 & S2 & S3).
  rewrite H1, H2, H3, S1, S2, S3.
  destruct (priced_by Dexscreener p), (priced_by Coingecko p),
    (priced_by Cmc p); simpl; lia.
Qed.

Lemma priced_by_priced s p : priced_by s p = true -> priced p = true.
Proof.
  destruct p as [r|]; simpl; [|done]. by destruct (priceUsd r).
Qed.

Lemma priced_by_exclusive s1 s2 p :
  priced_by s1 p = true -> priced_by s2 p = true -> s1 = s2.
Proof.
  destruct p as [r|]; simpl; [|done].
  destruct (priceUsd r); [|done]. destruct (source r) as [s|]; [|done].
  intros H1%bool_decide_eq_true H2%bool_decide_eq_true. congruence.
Qed.

Lemma count_by_le_priced prices :
  (count_by Dexscreener prices + count_by Coingecko prices + count_by Cmc prices
   <= count_priced prices)%Z.
Proof.
  unfold count_by, count_priced. induction prices as [|p prices IH]; simpl; [lia|].
  destruct (priced_by Dexscreener p) eqn:Hd, (priced_by Coingecko p) eqn:Hg,
    (priced_by Cmc p) eqn:Hc, (priced p) eqn:Hp; simpl; try lia;
    try (pose proof (priced_by_exclusive _ _ _ Hd Hg); discriminate);
    try (pose proof (priced_by_exclusive _ _ _ Hd Hc); discriminate);
    try (pose proof (priced_by_exclusive _ _ _ Hg Hc); discriminate);
    try (apply priced_by_priced in Hd; congruence);
    try (apply priced_by_priced in Hg; congruence);
    try (apply priced_by_priced in Hc; congruence).
Qed.

Lemma summarize_fields (prices : list (option PriceResult)) :
  total (totals (summarize prices)) = Z.of_nat (length prices) /\
  withPrice (totals (summarize prices)) = count_priced prices /\
  nulls (totals (summarize prices))
  = (Z.of_nat (length prices) - count_priced prices)%Z /\
  n_dexscreener (bySource (summarize prices)) = count_by Dexscreener prices /\
  n_coingecko (bySource (summarize prices)) = count_by Coingecko prices /\
  n_cmc (bySource (summarize prices)) = count_by Cmc prices.
Proof.
  unfold summarize.
  pose proof (fold_summarize_withPrice prices
    ({| n_dexscreener := 0; n_coingecko := 0; n_cmc := 0 |}, 0%Z)) as Hw.
  pose proof (fold_summarize_counter prices
    ({| n_dexscreener := 0; n_coingecko := 0; n_cmc := 0 |}, 0%Z))
    as (H1 & H2 & H3).
  destruct (fold_left summarize_step prices _) as [bs wp]; simpl in *.
  repeat split; lia.
Qed.

(** X3. Each [bySource] counter of [summarize] is the number of entries that
    carry a price and name that provider; the counters never add up to more
    than [withPrice], and [withPrice] and [nulls] lie between 0 and
    [total]. *)
Theorem summarize_counters (prices : list (option PriceResult)) :
  let s := summarize prices in
  n_dexscreener (bySource s) = count_by Dexscreener prices /\
  n_coingecko (bySource s) = count_by Coingecko prices /\
  n_cmc (bySource s) = count_by Cmc prices /\
  (bySource_sum (bySource s) <= withPrice (totals s))%Z /\
  (0 <= withPrice (totals s) <= total (totals s))%Z /\
  (0 <= nulls (totals s) <= total (totals s))%Z.
Proof.
  cbv zeta. destruct (summarize_fields prices) as (T & W & N & D & G & C).
  pose proof (count_by_le_priced prices) as Hle.
  assert (0 <= count_priced prices <= Z.of_nat (length prices))%Z as Hb.
  { unfold count_priced. pose proof (filter_length_le priced prices). lia. }
  unfold bySource_sum. rewrite T, W, N, D, G, C. repeat split; lia.
Qed.

Lemma count_by_app s l1 l2 :
  count_by s (l1 ++ l2) = (count_by s l1 + count_by s l2)%Z.
Proof. unfold count_by. rewrite List.filter_app, length_app. lia. Qed.

Lemma count_priced_app l1 l2 :
  count_priced (l1 ++ l2) = (count_priced l1 + count_priced l2)%Z.
Proof. unfold count_priced. rewrite List.filter_app, length_app. lia. Qed.

(** X4. [summarize] is additive: the summary of two lists put together is
    the field-by-field sum of their summaries. *)
Theorem summarize_app (l1 l2 : list (option PriceResult)) :
  let s := summarize (l1 ++ l2) in
  let s1 := summarize l1 in
  let s2 := summarize l2 in
  total (totals s) = (total (totals s1) + total (totals s2))%Z /\
  withPrice (totals s) = (withPrice (totals s1) + withPrice (totals s2))%Z /\
  nulls (totals s) = (nulls (totals s1) + nulls (totals s2))%Z /\
  n_dexscreener (bySource s)
  = (n_dexscreener (bySource s1) + n_dexscreener (bySource s2))%Z /\
  n_coingecko (bySource s)
  = (n_coingecko (bySource s1) + n_coingecko (bySource s2))%Z /\
  n_cmc (bySource s) = (n_cmc (bySource s1) + n_cmc (bySource s2))%Z.
Proof.
  cbv zeta.
  destruct (summarize_fields (l1 ++ l2)) as (T & W & N & D & G & C).
  destruct (summarize_fields l1) as (T1 & W1 & N1 & D1 & G1 & C1).
  destruct (summarize_fields l2) as (T2 & W2 & N2 & D2 & G2 & C2).
  rewrite T, W, N, T1, W1, N1, T2, W2, N2, D, G, C, D1, G1, C1, D2, G2, C2.
  rewrite !count_by_app, count_priced_app, length_app. lia.
Qed.

(** ** cacheKey *)

Lemma colon_split c1 c2 x1 x2 :
  colon_free c1 = true -> colon_free c2 = true ->
  (c1 ++ ":" ++ x1)%string = (c2 ++ ":" ++ x2)%string -> c1 = c2 /\ x1 = x2.
Proof.
  revert c2. induction c1 as [|a c1 IH]; intros c2 H1 H2 Heq.
  - destruct c2 as [|b c2]; simpl in *; [by injection Heq|].
    injection Heq as Hb _. subst b. simpl in H2. discriminate.
  - destruct c2 as [|b c2]; simpl in *.
    + injection Heq as Ha _. subst a. simpl in H1. discriminate.
    + injection Heq as -> Heq.
      apply andb_true_iff in H1 as [_ H1]. apply andb_true_iff in H2 as [_ H2].
      destruct (IH c2 H1 H2 Heq) as [-> ->]. done.
Qed.

(** X5. Cache keys do not collide: for chain tags without a colon, two
    (chain, address) pairs have the same cache key exactly when the chains
    are equal and the addresses are equal up to case. *)
Theorem cacheKey_injective (c1 a1 c2 a2 : string) :
  colon_free c1 = true -> colon_free c2 = true ->
  (cacheKey c1 a1 = cacheKey c2 a2 <->
   c1 = c2 /\ toLowerCase a1 = toLowerCase a2).
Proof.
  intros H1 H2. unfold cacheKey. split.
  - simpl. intros Heq. injection Heq as Heq. by apply colon_split.
  - by intros [-> ->].
Qed.

Lemma cacheKey_injective_witness :
  cacheKey "eth" "0xAA" = cacheKey "eth" "0xaa" <->
  "eth" = "eth" /\ toLowerCase "0xAA" = toLowerCase "0xaa".
Proof. apply cacheKey_injective; reflexivity. Defined.

(** With a colon in the chain tag two different pairs can share a key. *)
Example cacheKey_collision : cacheKey "a:b" "c" = cacheKey "a" "b:c".
Proof. reflexivity. Qed.

(** X6. The key under which a fresh result of [fetchAllPrices] is stored,
    [cacheKey(r.chain, r.address)], is the key under which the next run
    looks its token up, [cacheKey(t.chain, t.contract_address)]. *)
Theorem fresh_results_keyed_like_tokens (E : Env) (tokens : list SheetTokenRow)
    (w : World) :
  exists out evs,
    fetchAllPrices E tokens w = (Ok out, w ++ evs) /\
    forall i t r, tokens !! i = Some t -> cached E t = None ->
                  out !! i = Some (Some r) ->
                  cacheKey (chain r) (address r)
                  = cacheKey (tok_chain t) (contract_address t).
Proof.
  destruct (fetchAllPrices_runs E tokens w)
    as (out & evs & Hr & dm & gm & cm & _ & _ & _ & _ & Hslot & _).
  exists out, evs. split; [done|]. intros i t r Ht Hc Ho.
  specialize (Hslot i t Ht). rewrite Hc in Hslot. destruct Hslot as [ts Ho'].
  assert (r = resolve t dm gm cm ts) as -> by congruence.
  destruct (resolve_identity t dm gm cm ts) as [-> ->].
  unfold cacheKey. by rewrite toLowerCase_idem.
Qed.

Lemma fresh_results_keyed_like_tokens_witness :
  exists out evs,
    fetchAllPrices env_pepe [tok_pepe] [] = (Ok out, [] ++ evs) /\
    exists r, out !! 0%nat = Some (Some r) /\
              cacheKey (chain r) (address r) = cacheKey "eth" "0xAA".
Proof.
  destruct (fresh_results_keyed_like_tokens env_pepe [tok_pepe] [])
    as (out & evs & Hr & Hkey).
  exists out, evs. split; [exact Hr|].
  assert (fst (fetchAllPrices env_pepe [tok_pepe] []) = Ok out) as Hout
    by (by rewrite Hr).
  vm_compute in Hout. injection Hout as <-.
  eexists. split; [reflexivity|].
  exact (Hkey 0%nat tok_pepe _ eq_refl eq_refl eq_refl).
Defined.

(** ** normalizeToken *)

Lemma is_ws_lower c : is_ws (lower_ascii c) = is_ws c.
Proof. destruct c as [[] [] [] [] [] [] [] []]; reflexivity. Qed.

Lemma trimStart_lower s : trimStart (toLowerCase s) = toLowerCase (trimStart s).
Proof.
  induction s as [|c s IH]; simpl; [done|]. rewrite is_ws_lower.
  by destruct (is_ws c).
Qed.

Lemma trimEnd_lower s : trimEnd (toLowerCase s) = toLowerCase (trimEnd s).
Proof.
  induction s as [|c s IH]; simpl; [done|]. rewrite IH, is_ws_lower.
  destruct (trimEnd s); simpl; [by destruct (is_ws c)|done].
Qed.

Lemma trim_lower s : trim (toLowerCase s) = toLowerCase (trim s).
Proof. unfold trim. by rewrite trimStart_lower, trimEnd_lower. Qed.

Lemma lower_slug_normal f s :
  lower_slug f = Some s -> nonempty s = true /\ toLowerCase s = s.
Proof.
  unfold lower_slug. destruct f as [x|]; [|done].
  destruct (nonempty x) eqn:Hx; [|done]. intros [= <-].
  by rewrite nonempty_toLowerCase, toLowerCase_idem.
Qed.

Lemma slug_key_of_lower_slug (slug : SheetTokenRow -> option string) t f :
  slug t = lower_slug f -> slug_key slug t = slug t.
Proof.
  intros Hs. unfold slug_key. destruct (slug t) as [s|] eqn:Hst; [|done].
  symmetry in Hs. apply lower_slug_normal in Hs as [Hne Hl].
  by rewrite Hl, Hne.
Qed.

Lemma server_token_well_formed x t :
  Server.normalizeToken x = Some t -> well_formed_token t.
Proof.
  unfold Server.normalizeToken.
  destruct (nonempty (row_chain x)) eqn:Hc; [|done].
  destruct (nonempty (trim _)) eqn:Ha; [|done]. simpl. intros [= <-].
  unfold well_formed_token; simpl. split_and!; try done.
  - unfold row_chain. apply toLowerCase_idem.
  - unfold row_chain. by rewrite trim_lower, trim_idem.
  - apply trim_idem.
  - intros s. apply lower_slug_normal.
  - intros s. apply lower_slug_normal.
Qed.

Lemma Cron_of_Server x :
  Cron.normalizeToken x = with_lower_address <$> Server.normalizeToken x.
Proof.
  unfold Cron.normalizeToken, Server.normalizeToken.
  rewrite nonempty_toLowerCase.
  by destruct (negb (nonempty (row_chain x)) || negb (nonempty (trim _)))%bool.
Qed.

Lemma with_lower_address_well_formed t :
  well_formed_token t -> well_formed_token (with_lower_address t).
Proof.
  intros (H1 & H2 & H3 & H4 & H5 & H6 & H7).
  unfold well_formed_token; simpl. split_and!; try done.
  - by rewrite nonempty_toLowerCase.
  - by rewrite trim_lower, H5.
Qed.

Lemma accepted_well_formed x t :
  Cron.normalizeToken x = Some t \/ Server.normalizeToken x = Some t ->
  well_formed_token t.
Proof.
  intros [H|H]; [|by eapply server_token_well_formed].
  rewrite Cron_of_Server in H.
  destruct (Server.normalizeToken x) as [t'|] eqn:Hs; [|done].
  injection H as <-.
  by eapply with_lower_address_well_formed, server_token_well_formed.
Qed.

(** X7. A row that either variant of [normalizeToken] accepts gives a token
    with a non-empty, trimmed, lower-case chain, a non-empty, trimmed address
    and slugs that are, when present, non-empty and lower-case. *)
Theorem normalizeToken_well_formed (x : RawRow) (t : SheetTokenRow) :
  Cron.normalizeToken x = Some t \/ Server.normalizeToken x = Some t ->
  well_formed_token t.
Proof. apply accepted_well_formed. Qed.

Lemma normalizeToken_well_formed_witness :
  exists t, Server.normalizeToken row_pepe = Some t /\
            tok_chain t = "eth" /\ contract_address t = "0xAA" /\
            coingecko_id t = Some "pepe" /\ well_formed_token t.
Proof.
  eexists. split; [reflexivity|]. split; [reflexivity|].
  split; [reflexivity|]. split; [reflexivity|].
  apply (normalizeToken_well_formed row_pepe). right. reflexivity.
Defined.


(** X9. A token accepted by [normalizeToken] reaches the adapters under the
    keys the pipeline reads back: its slugs are submitted unchanged, and the
    map of the Dexscreener adapter has an entry under its lower-cased
    address whenever the address was among those submitted. *)
Theorem accepted_token_keys (x : RawRow) (t : SheetTokenRow) :
  Cron.normalizeToken x = Some t \/ Server.normalizeToken x = Some t ->
  provider_key Coingecko t = coingecko_id t /\
  provider_key Cmc t = cmc_slug t /\
  forall E addresses opts w m w',
    contract_address t ∈ addresses ->
    fetchDexscreenerBatchByTokens E addresses opts w = (Ok m, w') ->
    is_Some (m !! toLowerCase (contract_address t)).
Proof.
  intros Hx. assert (Hwf := accepted_well_formed x t Hx).
  destruct Hwf as (_ & _ & _ & Hne & Htrim & Hg & Hc).
  assert (forall slug, (forall s, slug t = Some s ->
                          nonempty s = true /\ toLowerCase s = s) ->
                       slug_key slug t = slug t) as Hkey.
  { intros slug Hs. unfold slug_key. destruct (slug t) as [s|]; [|done].
    destruct (Hs s eq_refl) as [Hn Hl]. by rewrite Hl, Hn. }
  split; [by apply Hkey|]. split; [by apply Hkey|].
  intros E addresses opts w m w' Hin Hr.
  rewrite <- Htrim.
  eapply fetchDexscreenerBatchByTokens_keys; [exact Hr|exact Hin|].
  rewrite Htrim. by apply nonempty_true.
Qed.

Lemma accepted_token_keys_witness :
  exists t, Server.normalizeToken row_pepe = Some t /\
    provider_key Coingecko t = Some "pepe" /\
    exists m w',
      fetchDexscreenerBatchByTokens env_silent ["0xAA"] dexOpts [] = (Ok m, w') /\
      is_Some (m !! "0xaa").
Proof.
  eexists. split; [reflexivity|].
  destruct (accepted_token_keys row_pepe _ (or_intror eq_refl))
    as (Hg & _ & Hdex).
  split; [exact Hg|].
  assert (exists m w',
            fetchDexscreenerBatchByTokens env_silent ["0xAA"] dexOpts []
            = (Ok m, w')) as (m & w' & Hr)
    by (eexists _, _; vm_compute; reflexivity).
  exists m, w'. split; [exact Hr|].
  exact (Hdex env_silent ["0xAA"] dexOpts [] m w' (list_elem_of_here _ _) Hr).
Defined.

(** ** Event budgets *)

Lemma bounded_mono {A} k k' (m : Run A) :
  (k <= k')%nat -> bounded k m -> bounded k' m.
Proof.
  intros Hk Hm w. destruct (Hm w) as (evs & Hw & Hlen). exists evs.
  split; [done|lia].
Qed.

Lemma bounded_ret {A} (a : A) : bounded 0 (ret a).
Proof. intros w. exists []. simpl. by rewrite app_nil_r. Qed.

Lemma bounded_request E r : bounded 1 (request E r).
Proof. intros w. by exists [Http r]. Qed.

Lemma bounded_bind {A B} k1 k2 (m : Run A) (k : A -> Run B) :
  bounded k1 m -> (forall a, bounded k2 (k a)) -> bounded (k1 + k2) (bind m k).
Proof.
  intros Hm Hk w. unfold bind. destruct (Hm w) as (evs & Hw & Hlen).
  destruct (m w) as [[a|] w1]; simpl in *; subst w1.
  - destruct (Hk a (w ++ evs)) as (evs' & Hw' & Hlen').
    exists (evs ++ evs'). rewrite Hw', app_assoc, length_app. split; [done|lia].
  - exists evs. split; [done|lia].
Qed.

Lemma bounded_catch {A} k1 k2 (m h : Run A) :
  bounded k1 m -> bounded k2 h -> bounded (k1 + k2) (catch m h).
Proof.
  intros Hm Hh w. unfold catch. destruct (Hm w) as (evs & Hw & Hlen).
  destruct (m w) as [[a|] w1]; simpl in *; subst w1.
  - exists evs. split; [done|lia].
  - destruct (Hh (w ++ evs)) as (evs' & Hw' & Hlen').
    exists (evs ++ evs'). rewrite Hw', app_assoc, length_app. split; [done|lia].
Qed.

Lemma bounded_pRetry {A} k n (action : Run A) :
  bounded k action -> bounded (S n * k) (pRetry n action).
Proof.
  intros Ha. induction n as [|n IH]; intros w; simpl;
    destruct (Ha w) as (evs & Hw & Hlen);
    destruct (action w) as [[a|] w1]; simpl in *; subst w1;
    try (exists evs; split; [done|lia]).
  destruct (IH (w ++ evs)) as (evs' & Hw' & Hlen').
  exists (evs ++ evs'). rewrite Hw', app_assoc, length_app. split; [done|].
  simpl in Hlen'. lia.
Qed.

Lemma bounded_if {A} k (b : bool) (m1 m2 : Run A) :
  bounded k m1 -> bounded k m2 -> bounded k (if b then m1 else m2).
Proof. by destruct b. Qed.

Lemma bounded_mapM {A B} k (f : A -> Run B) l :
  (forall x, bounded k (f x)) -> bounded (length l * k) (mapM f l).
Proof.
  intros Hf. induction l as [|x l IH]; simpl; [apply bounded_ret|].
  apply bounded_bind; [apply Hf|]. intros y.
  eapply bounded_mono; [|apply bounded_bind; [apply IH|intros ys; apply bounded_ret]].
  lia.
Qed.

(** ** Retries of an action that logs one event per attempt *)

Lemma pRetry_log {A} (action : Run A) (e : Event) n w :
  (forall w, snd (action w) = w ++ [e]) ->
  exists k, (1 <= k <= S n)%nat /\
    snd (pRetry n action w) = w ++ replicate k e /\
    (fst (pRetry n action w) = Thrown <->
     forall j, (j <= n)%nat -> fst (action (w ++ replicate j e)) = Thrown) /\
    (forall a, fst (pRetry n action w) = Ok a ->
               fst (action (w ++ replicate (k - 1) e)) = Ok a).
Proof.
  intros Hlog. revert w. induction n as [|n IH]; intros w; simpl.
  - specialize (Hlog w). destruct (action w) as [[a|] w1] eqn:Haw;
      simpl in *; subst w1; exists 1%nat; simpl.
    + split_and!; [lia|lia|done| |].
      * split; [done|]. intros H. specialize (H 0%nat (le_n _)).
        simpl in H. rewrite app_nil_r, Haw in H. done.
      * intros a' [= <-]. by rewrite app_nil_r, Haw.
    + split_and!; [lia|lia|done| |done].
      split; [|done]. intros _ j Hj. assert (j = 0%nat) as -> by lia.
      simpl. by rewrite app_nil_r, Haw.
  - pose proof (Hlog w) as Hw. destruct (action w) as [[a|] w1] eqn:Haw;
      simpl in *; subst w1.
    + exists 1%nat; simpl. split_and!; [lia|lia|done| |].
      * split; [done|]. intros H. specialize (H 0%nat (Nat.le_0_l _)).
        simpl in H. rewrite app_nil_r, Haw in H. done.
      * intros a' [= <-]. by rewrite app_nil_r, Haw.
    + destruct (IH (w ++ [e])) as (k & Hk & Hsnd & Hthrown & Hok).
      exists (S k). split_and!; [lia|lia| | |].
      * rewrite Hsnd, <- app_assoc. done.
      * rewrite Hthrown. split.
        -- intros H [|j] Hj; simpl.
           ++ by rewrite app_nil_r, Haw.
           ++ rewrite (cons_middle e), app_assoc. apply H. lia.
        -- intros H j Hj. specialize (H (S j)). simpl in H.
           rewrite (cons_middle e), app_assoc in H. apply H. lia.
      * intros a Ha. specialize (Hok a Ha).
        destruct k as [|k]; [lia|].
        replace (S (S k) - 1)%nat with (S k) by lia.
        replace (S k - 1)%nat with k in Hok by lia.
        simpl. by rewrite (cons_middle e), app_assoc.
Qed.

Lemma Forall_replicate_eq {A} (x : A) k : Forall (eq x) (replicate k x).
Proof. induction k; simpl; by constructor. Qed.

(** ** dexscreener.ts: the single-address lookups *)

Lemma pickBestPair_none pairs :
  pickBestPair pairs = None <-> forall p, p ∈ pairs -> pair_priceUsd p = None.
Proof.
  unfold pickBestPair. split.
  - intros Hnone p Hin. destruct (pair_priceUsd p) as [v|] eqn:Hp; [|done].
    assert (In p (List.filter has_price pairs)) as Hf.
    { apply filter_In. split; [by apply list_elem_of_In|].
      unfold has_price. by rewrite Hp. }
    destruct (List.filter has_price pairs) as [|c cs] eqn:Hcs; [destruct Hf|].
    exfalso. revert Hnone. clear. simpl.
    generalize (sort comparePairs cs). intros l.
    destruct l as [|y r]; simpl; [done|].
    by destruct (Qltb 0 (comparePairs c y)).
  - intros Hall.
    assert (List.filter has_price pairs = []) as ->; [|done].
    induction pairs as [|p pairs IH]; simpl; [done|].
    unfold has_price at 1. rewrite (Hall p) by apply list_elem_of_here.
    apply IH. intros q Hq. apply Hall. by right.
Qed.

Lemma pickBestPair_max pairs best :
  pickBestPair pairs = Some best ->
  best ∈ pairs /\ pair_priceUsd best <> None /\
  forall p, p ∈ pairs -> pair_priceUsd p <> None -> at_least_as_good best p.
Proof.
  unfold pickBestPair. intros Hbest.
  apply (sort_head_first comparePairs) in Hbest as [Hin Hmin].
  - apply list_elem_of_In, filter_In in Hin as [Hin Hp].
    split; [by apply list_elem_of_In|]. split; [by apply has_price_true|].
    intros p Hpin Hpp. apply comparePairs_le. apply Hmin.
    apply list_elem_of_In, filter_In. split; [by apply list_elem_of_In|].
    by apply has_price_true.
  - intros a. apply comparePairs_le, at_least_as_good_refl.
  - intros a b Hab. apply comparePairs_le.
    destruct (at_least_as_good_total b a) as [H|H]; [done|].
    apply comparePairs_le in H. lra.
  - intros a b c Hab Hbc. apply comparePairs_le.
    eapply at_least_as_good_trans; by apply comparePairs_le.
Qed.

Lemma at_least_as_good_liq a b : at_least_as_good a b -> (liq_of b <= liq_of a)%Q.
Proof. intros [H|[H _]]; [lra|]. rewrite H. lra. Qed.

Lemma fetchDexscreenerPrice_log E a w :
  exists k, (1 <= k <= 3)%nat /\
    snd (fetchDexscreenerPrice E a w) = w ++ replicate k (Http (DexToken a)) /\
    (fst (fetchDexscreenerPrice E a w) = Thrown <->
     forall j, (j <= 2)%nat ->
       net E (w ++ replicate j (Http (DexToken a))) (DexToken a) = Failed).
Proof.
  unfold fetchDexscreenerPrice.
  match goal with |- context [pRetry 2 ?act] => set (action := act) end.
  assert (forall w, snd (action w) = w ++ [Http (DexToken a)]) as Hlog.
  { intros w0. unfold action, fetchDexscreenerPairsByToken, bind, request, ret.
    by destruct (net E w0 (DexToken a)). }
  destruct (pRetry_log action _ 2 w Hlog) as (k & Hk & Hsnd & Hthrown & _).
  exists k. split; [done|]. split; [done|]. rewrite Hthrown.
  assert (forall w0, fst (action w0) = Thrown <-> net E w0 (DexToken a) = Failed)
    as Hact.
  { intros w0. unfold action, fetchDexscreenerPairsByToken, bind, request, ret.
    by destruct (net E w0 (DexToken a)). }
  split; intros H j Hj; apply Hact, H, Hj.
Qed.

(** X10. [fetchDexscreenerPrice] asks Dexscreener about its address between
    one and three times and nothing else; it raises exactly when all three
    attempts fail. *)
Theorem fetchDexscreenerPrice_attempts (E : Env) (a : string) (w : World) :
  exists k, (1 <= k <= 3)%nat /\
    snd (fetchDexscreenerPrice E a w) = w ++ replicate k (Http (DexToken a)) /\
    (fst (fetchDexscreenerPrice E a w) = Thrown <->
     forall j, (j <= 2)%nat ->
       net E (w ++ replicate j (Http (DexToken a))) (DexToken a) = Failed).
Proof. apply fetchDexscreenerPrice_log. Qed.

(** X11. [fetchDexscreenerQuote] sends one request and does not retry: it
    raises exactly when that request fails.  On a reply, the quote has no
    price exactly when no pair of the reply has one; a price it has is the
    price of a pair of the reply, and its liquidity is the highest among the
    priced pairs. *)
Theorem fetchDexscreenerQuote_one_request (E : Env) (a : string) (w : World) :
  snd (fetchDexscreenerQuote E a w) = w ++ [Http (DexToken a)] /\
  (fst (fetchDexscreenerQuote E a w) = Thrown <->
   net E w (DexToken a) = Failed) /\
  forall b, net E w (DexToken a) = Replied b ->
    exists q, fst (fetchDexscreenerQuote E a w) = Ok q /\
      (quote_price q = None <->
       forall p, p ∈ pairs_of b -> pair_priceUsd p = None) /\
      (forall v, quote_price q = Some v ->
         exists p, p ∈ pairs_of b /\ pair_priceUsd p = Some v) /\
      forall p, p ∈ pairs_of b -> pair_priceUsd p <> None ->
                (liq_of p <= num_or0 (quote_liquidityUsd q))%Q.
Proof.
  unfold fetchDexscreenerQuote, fetchDexscreenerPairsByToken, bind, request, ret.
  destruct (net E w (DexToken a)) as [|b] eqn:Hnet.
  - split; [done|]. split; [done|]. intros b [=].
  - destruct (pickBestPair (pairs_of b)) as [best|] eqn:Hbest.
    + split; [done|]. split; [done|]. intros b' [= <-].
      destruct (pickBestPair_max _ _ Hbest) as (Hin & Hp & Hmax).
      eexists. split; [done|]. simpl. split_and!.
      * split; [done|]. intros Hall. exfalso. by apply Hp, Hall.
      * intros v [= <-]. exists best. split; [done|].
        by destruct (pair_priceUsd best).
      * intros p Hpin Hpp. apply (at_least_as_good_liq best p). by apply Hmax.
    + split; [done|]. split; [done|]. intros b' [= <-].
      eexists. split; [done|]. simpl. split_and!.
      * split; [|done]. intros _. by apply pickBestPair_none.
      * done.
      * intros p Hpin Hpp. exfalso. apply Hpp.
        by apply (proj1 (pickBestPair_none _) Hbest).
Qed.

Lemma fetchDexscreenerPrice_attempts_witness :
  fst (fetchDexscreenerPrice env_down "0xAA" []) = Thrown /\
  exists k, (1 <= k <= 3)%nat /\
    snd (fetchDexscreenerPrice env_down "0xAA" [])
    = [] ++ replicate k (Http (DexToken "0xAA")).
Proof.
  destruct (fetchDexscreenerPrice_attempts env_down "0xAA" [])
    as (k & Hk & Hlog & Hthrown).
  split.
  - apply Hthrown. intros j _. reflexivity.
  - exists k. exact (conj Hk Hlog).
Defined.

Lemma fetchDexscreenerQuote_one_request_witness :
  exists q, fst (fetchDexscreenerQuote env_single "0xAA" []) = Ok q /\
            (liq_of pair_deep <= num_or0 (quote_liquidityUsd q))%Q.
Proof.
  destruct (fetchDexscreenerQuote_one_request env_single "0xAA" [])
    as (_ & _ & Hq).
  destruct (Hq (DexBody pairs_sample) eq_refl) as (q & Hq1 & _ & _ & Hliq).
  exists q. split; [exact Hq1|].
  apply (Hliq pair_deep).
  - unfold pairs_sample. simpl. apply elem_of_cons. right. apply list_elem_of_here.
  - discriminate.
Defined.

(** ** coingecko.ts: the single-id lookup *)

Lemma fetchCoingeckoPriceById_log E id w :
  exists p k, (k <= 3)%nat /\
    fetchCoingeckoPriceById E id w
    = (Ok p, w ++ replicate k (Http (GeckoSimplePrice [id]))) /\
    (nonempty id = false -> k = 0%nat /\ p = None) /\
    (nonempty id = true -> (1 <= k)%nat).
Proof.
  unfold fetchCoingeckoPriceById. destruct (nonempty id); cbn [negb].
  - destruct (pRetry_log (request E (GeckoSimplePrice [id])) _ 2 w
                (fun w0 => eq_refl)) as (k & Hk & Hsnd & _).
    unfold bind, catch, ret.
    destruct (pRetry 2 (request E (GeckoSimplePrice [id])) w) as [[b|] w1];
      simpl in Hsnd; subst w1; eexists _, k;
      (split; [lia|]); (split; [reflexivity|]); (split; [done|]); intros _; lia.
  - exists None, 0%nat. unfold ret. simpl. rewrite app_nil_r. split_and!; done || lia.
Qed.

(** X12. [fetchCoingeckoPriceById] never raises; it sends at most three
    requests, each for the id alone, and none for an empty id; the wrapper
    [fetchCoingeckoPrice] is the same lookup whatever chain and address it is
    given. *)
Theorem fetchCoingeckoPriceById_lookup (E : Env) (id : string) (w : World) :
  exists p k,
    fetchCoingeckoPriceById E id w
    = (Ok p, w ++ replicate k (Http (GeckoSimplePrice [id]))) /\
    (k <= 3)%nat /\ (k = 0%nat <-> id = "") /\
    forall c a,
      fetchCoingeckoPrice E c a (Some id) w
      = (Ok p, w ++ replicate k (Http (GeckoSimplePrice [id]))).
Proof.
  destruct (fetchCoingeckoPriceById_log E id w) as (p & k & Hk & Hr & H0 & H1).
  exists p, k. split; [done|]. split; [done|]. split.
  - split.
    + intros ->. destruct id; [done|]. specialize (H1 eq_refl). lia.
    + intros ->. by destruct (H0 eq_refl).
  - intros c a. unfold fetchCoingeckoPrice. destruct (nonempty id) eqn:Hid; [done|].
    destruct (H0 eq_refl) as [-> ->]. unfold ret. simpl. by rewrite app_nil_r.
Qed.

Lemma chunk_singleton {A} (x : A) size : (1 <= size)%nat -> chunk [x] size = [[x]].
Proof.
  intros H. unfold chunk. simpl. destruct size; [lia|]. simpl.
  by rewrite take_nil.
Qed.

(** X13. For a non-empty lower-case id and the default number of retries,
    the batch function called with that one id sends the requests of the
    single lookup and maps the id to the single lookup's result. *)
Theorem coingecko_batch_of_one (E : Env) (id : string) (opts : BatchOpts)
    (w : World) :
  id <> "" -> toLowerCase id = id ->
  default 2%nat (retries opts) = 2%nat ->
  exists p w',
    fetchCoingeckoPriceById E id w = (Ok p, w') /\
    fetchCoingeckoBatchByIds E [id] opts w = (Ok {[ id := p ]}, w').
Proof.
  intros Hne Hlow Hretries.
  unfold fetchCoingeckoBatchByIds, fetchCoingeckoPriceById. rewrite Hretries.
  assert (nonempty id = true) as Hn by by apply nonempty_true.
  assert (slug_uniq [id] = [id]) as ->.
  { unfold slug_uniq. simpl. rewrite Hlow, Hn. simpl.
    destruct (decide (id ∈ (∅ : gset string))) as [H|_]; [|done].
    by apply not_elem_of_empty in H. }
  rewrite chunk_singleton by (unfold gecko_batchSize; lia).
  rewrite Hn, Hlow. cbn [negb gecko_loop]. unfold bind, catch, ret, prefill.
  cbn [fold_left].
  destruct (pRetry 2 (request E (GeckoSimplePrice [id])) w) as [[b|] w1].
  - eexists _, _. split; [reflexivity|]. f_equal. f_equal.
    rewrite lookup_insert_eq. cbn [default].
    rewrite insert_insert_eq, insert_empty.
    by destruct (gecko_usd (Some b) id).
  - eexists _, _. split; [reflexivity|]. f_equal. f_equal.
    rewrite lookup_insert_eq. cbn [default gecko_usd].
    by rewrite insert_insert_eq, insert_empty.
Qed.

Lemma coingecko_batch_of_one_witness :
  exists p w',
    fetchCoingeckoPriceById env_pepe "pepe" [] = (Ok p, w') /\
    fetchCoingeckoBatchByIds env_pepe ["pepe"] geckoOpts []
    = (Ok {[ "pepe" := p ]}, w').
Proof.
  apply (coingecko_batch_of_one env_pepe "pepe" geckoOpts []).
  - discriminate.
  - reflexivity.
  - reflexivity.
Defined.

(** ** cmc.ts: the single-slug lookup *)

Lemma fetchCmcPriceBySlug_about E slug :
  appends (cmc_about slug) (fetchCmcPriceBySlug E slug).
Proof.
  unfold fetchCmcPriceBySlug, cmcDataApiQuoteBySlug, cmcDataApiQuoteById, fetchHtml.
  apply appends_if; [apply appends_ret|].
  apply appends_bind.
  - apply appends_catch; [|apply appends_ret].
    apply appends_bind; [by apply appends_pRetry, appends_request|].
    intros b. apply appends_ret.
  - intros [v|]; [apply appends_ret|].
    apply appends_catch; [|apply appends_ret].
    apply appends_bind; [by apply appends_pRetry, appends_request|].
    intros html. apply appends_bind.
    + destruct (extractIdFromHtml html) as [id|]; [|apply appends_ret].
      apply appends_if; [|apply appends_ret].
      apply appends_bind; [by apply appends_pRetry, appends_request|].
      intros b. apply appends_ret.
    + intros [v|]; apply appends_ret.
Qed.

Lemma fetchCmcPriceBySlug_bounded E slug : bounded 8 (fetchCmcPriceBySlug E slug).
Proof.
  unfold fetchCmcPriceBySlug, cmcDataApiQuoteBySlug, cmcDataApiQuoteById, fetchHtml.
  apply bounded_if; [eapply bounded_mono; [|apply bounded_ret]; lia|].
  apply (bounded_bind 3 5).
  - apply (bounded_catch 3 0); [|apply bounded_ret].
    apply (bounded_bind 3 0); [|intros b; apply bounded_ret].
    apply (bounded_pRetry 1 2), bounded_request.
  - intros [v|]; [eapply bounded_mono; [|apply bounded_ret]; lia|].
    apply (bounded_catch 5 0); [|apply bounded_ret].
    apply (bounded_bind 2 3); [apply (bounded_pRetry 1 1), bounded_request|].
    intros html. apply (bounded_bind 3 0).
    + destruct (extractIdFromHtml html) as [id|];
        [|eapply bounded_mono; [|apply bounded_ret]; lia].
      apply bounded_if; [|eapply bounded_mono; [|apply bounded_ret]; lia].
      apply (bounded_bind 3 0); [|intros b; apply bounded_ret].
      apply (bounded_pRetry 1 2), bounded_request.
    + intros [v|]; apply bounded_ret.
Qed.

Lemma run_log {A} (Q : A -> Prop) P k (m : Run A) w :
  returns Q m -> appends P m -> bounded k m ->
  exists a evs, m w = (Ok a, w ++ evs) /\ Q a /\ Forall P evs /\
                (length evs <= k)%nat.
Proof.
  intros Hr Ha Hb. destruct (Hr w) as (a & w' & Hm & HQ).
  destruct (Ha w) as (evs & Hw & HP). destruct (Hb w) as (evs' & Hw' & Hk).
  rewrite Hm in Hw, Hw'. simpl in *. subst w'.
  apply app_inv_head in Hw' as <-. by exists a, evs.
Qed.

Lemma fetchCmcPriceBySlug_log E slug w :
  exists p evs, fetchCmcPriceBySlug E slug w = (Ok p, w ++ evs) /\
    Forall (cmc_about slug) evs /\ (length evs <= 8)%nat.
Proof.
  destruct (run_log (fun _ => True) (cmc_about slug) 8 (fetchCmcPriceBySlug E slug) w)
    as (p & evs & Hr & _ & HP & Hk).
  - apply fetchCmcPriceBySlug_returns.
  - apply fetchCmcPriceBySlug_about.
  - apply fetchCmcPriceBySlug_bounded.
  - by exists p, evs.
Qed.

(** X14. [fetchCmcPriceBySlug] never raises and sends at most eight
    requests, all of them CMC requests for its slug; for an empty slug it
    sends none; when the first data-API reply carries a price, that price is
    the result and no further request is sent. *)
Theorem fetchCmcPriceBySlug_lookup (E : Env) (slug : string) (w : World) :
  exists p evs,
    fetchCmcPriceBySlug E slug w = (Ok p, w ++ evs) /\
    Forall (cmc_about slug) evs /\ (length evs <= 8)%nat /\
    (slug = "" -> p = None /\ evs = []) /\
    (forall v, slug <> "" ->
       net E w (CmcQuoteBySlug slug) = Replied (CmcQuoteBody (Some v)) ->
       p = Some v /\ evs = [Http (CmcQuoteBySlug slug)]).
Proof.
  destruct (fetchCmcPriceBySlug_log E slug w) as (p & evs & Hr & HP & Hk).
  exists p, evs. split; [done|]. split; [done|]. split; [done|]. split.
  - intros ->. unfold fetchCmcPriceBySlug, ret in Hr. simpl in Hr.
    injection Hr as <- Hw. split; [done|].
    rewrite <- (app_nil_r w) in Hw at 1. by apply app_inv_head in Hw.
  - intros v Hne Hnet. apply nonempty_true in Hne.
    unfold fetchCmcPriceBySlug in Hr. rewrite Hne in Hr. cbn [negb] in Hr.
    unfold bind, catch, cmcDataApiQuoteBySlug in Hr. cbn [pRetry] in Hr.
    unfold request at 1 in Hr. rewrite Hnet in Hr. simpl in Hr.
    injection Hr as <- Hw. split; [done|]. by apply app_inv_head in Hw.
Qed.

Lemma fetchCmcPriceBySlug_lookup_witness :
  exists evs,
    fetchCmcPriceBySlug env_single "pepe" [] = (Ok (Some 2%Q), [] ++ evs) /\
    evs = [Http (CmcQuoteBySlug "pepe")].
Proof.
  destruct (fetchCmcPriceBySlug_lookup env_single "pepe" [])
    as (p & evs & Hr & _ & _ & _ & Hfirst).
  destruct (Hfirst 2%Q) as [Hp Hevs]; [discriminate|reflexivity|].
  exists evs. split; [|exact Hevs].
  rewrite Hr. rewrite Hp. reflexivity.
Defined.

(** ** fetchPrice.ts: fetchPriceForToken *)

Lemma dex_single_caught E a w :
  exists d k, (1 <= k <= 3)%nat /\
    catch (fetchDexscreenerPrice E a) (ret None) w
    = (Ok d, w ++ replicate k (Http (DexToken a))).
Proof.
  destruct (fetchDexscreenerPrice_log E a w) as (k & Hk & Hsnd & _).
  unfold catch. destruct (fetchDexscreenerPrice E a w) as [[d|] w1];
    simpl in Hsnd; subst w1; by eexists _, k.
Qed.

Lemma gecko_single_caught E slug w :
  exists g k, (k <= 3)%nat /\
    lookup_if_truthy slug (fun id => fetchCoingeckoPrice E "" "" (Some id)) w
    = (Ok g, w ++ replicate k (Http (GeckoSimplePrice [or_empty slug]))) /\
    (has_slug slug = false -> k = 0%nat).
Proof.
  unfold lookup_if_truthy, has_slug. destruct slug as [id|]; simpl.
  - destruct (nonempty id) eqn:Hid.
    + unfold fetchCoingeckoPrice. rewrite ?Hid.
      destruct (fetchCoingeckoPriceById_log E id w) as (p & k & Hk & Hr & _).
      unfold catch. rewrite Hr. by exists p, k.
    + exists None, 0%nat. unfold ret. simpl. rewrite app_nil_r.
      split_and!; [lia|done|done].
  - exists None, 0%nat. unfold ret. simpl. rewrite app_nil_r.
      split_and!; [lia|done|done].
Qed.

Lemma cmc_single_caught E slug w :
  exists c evs, (length evs <= 8)%nat /\
    lookup_if_truthy slug (fetchCmcPriceBySlug E) w = (Ok c, w ++ evs) /\
    Forall (cmc_about (or_empty slug)) evs /\
    (has_slug slug = false -> evs = []).
Proof.
  unfold lookup_if_truthy, has_slug. destruct slug as [s|]; simpl.
  - destruct (nonempty s) eqn:Hs.
    + destruct (fetchCmcPriceBySlug_log E s w) as (p & evs & Hr & HP & Hk).
      unfold catch. rewrite Hr. by exists p, evs.
    + exists None, []. unfold ret. simpl. rewrite app_nil_r.
      split_and!; [lia|done|done|done].
  - exists None, []. unfold ret. simpl. rewrite app_nil_r.
      split_and!; [lia|done|done|done].
Qed.

Lemma fetchPriceForToken_shape E t w :
  cached E t = None ->
  exists d g c kd kg evc,
    let evs :=
      replicate kd (Http (DexToken (contract_address t))) ++
      replicate kg (Http (GeckoSimplePrice [or_empty (coingecko_id t)])) ++
      evc in
    fetchPriceForToken E t w
    = (Ok {| chain := tok_chain t;
             address := toLowerCase (contract_address t);
             symbol := tok_symbol t;
             priceUsd := fst (first_price d g c);
             source := snd (first_price d g c);
             at_ := clock E (w ++ evs) |},
       w ++ evs ++ [ClockRead]) /\
    (1 <= kd <= 3)%nat /\ (kg <= 3)%nat /\ (length evc <= 8)%nat /\
    Forall (cmc_about (or_empty (cmc_slug t))) evc /\
    (d <> None -> kg = 0%nat /\ evc = []) /\
    (g <> None -> evc = []) /\
    (has_slug (coingecko_id t) = false -> kg = 0%nat) /\
    (has_slug (cmc_slug t) = false -> evc = []).
Proof.
  intros Hc. unfold fetchPriceForToken. unfold cached in Hc. rewrite Hc.
  destruct (dex_single_caught E (contract_address t) w) as (d & kd & Hkd & Hd).
  unfold bind. rewrite Hd. destruct d as [v|].
  - exists (Some v), None, None, kd, 0%nat, []. cbn zeta. simpl replicate.
    rewrite !app_nil_r. unfold toPriceResult. simpl.
    split_and!; try done; try lia. by rewrite app_assoc.
  - destruct (gecko_single_caught E (coingecko_id t)
                (w ++ replicate kd (Http (DexToken (contract_address t)))))
      as (g & kg & Hkg & Hg & Hg0).
    rewrite Hg. destruct g as [v|].
    + exists None, (Some v), None, kd, kg, []. cbn zeta.
      rewrite !app_nil_r. unfold toPriceResult. simpl.
      split_and!; try done; try lia. by rewrite !app_assoc.
    + destruct (cmc_single_caught E (cmc_slug t)
                  ((w ++ replicate kd (Http (DexToken (contract_address t)))) ++
                   replicate kg (Http (GeckoSimplePrice [or_empty (coingecko_id t)]))))
        as (c & evc & Hkc & Hcm & HP & Hc0).
      rewrite Hcm. exists None, None, c, kd, kg, evc. cbn zeta.
      unfold toPriceResult.
      split_and!; try done; try lia.
      destruct c as [v|]; simpl; by rewrite !app_assoc.
Qed.

Lemma asks_unique p q e : asks p e -> asks q e -> p = q.
Proof. destruct e as [[]| |]; simpl; congruence || tauto. Qed.

Lemma cmc_about_asks slug e : cmc_about slug e -> asks Cmc e.
Proof. by destruct e as [[]| |]. Qed.

Lemma cmc_about_http slug e : cmc_about slug e -> is_http e.
Proof. by destruct e as [[]| |]. Qed.

Lemma first_price_consistent d g c :
  snd (first_price d g c) = None <-> fst (first_price d g c) = None.
Proof. by destruct d, g, c. Qed.

(** X15. [fetchPriceForToken] never raises.  A cached record is returned
    as it is, with nothing sent.  Otherwise the result carries the token's
    chain, lower-cased address and symbol, has a source exactly when it has
    a price, and is stamped by one clock read after at most fourteen
    requests. *)
Theorem fetchPriceForToken_result (E : Env) (t : SheetTokenRow) (w : World) :
  exists r evs,
    fetchPriceForToken E t w = (Ok r, w ++ evs) /\
    match cached E t with
    | Some c => r = c /\ evs = []
    | None =>
        chain r = tok_chain t /\
        address r = toLowerCase (contract_address t) /\
        symbol r = tok_symbol t /\
        consistent r /\
        exists reqs, evs = reqs ++ [ClockRead] /\ Forall is_http reqs /\
                     (length reqs <= 14)%nat /\ at_ r = clock E (w ++ reqs)
    end.
Proof.
  destruct (cached E t) as [c|] eqn:Hc.
  - exists c, []. unfold fetchPriceForToken. unfold cached in Hc. rewrite Hc.
    unfold ret. by rewrite app_nil_r.
  - destruct (fetchPriceForToken_shape E t w Hc)
      as (d & g & c & kd & kg & evc & Hr & Hkd & Hkg & Hkc & HP & _).
    cbn zeta in Hr. eexists _, _. split; [exact Hr|]. simpl.
    split; [done|]. split; [done|]. split; [done|].
    split; [apply first_price_consistent|].
    eexists. split; [reflexivity|]. split; [|split; [|done]].
    + apply Forall_app. split; [by apply Forall_replicate|].
      apply Forall_app. split; [by apply Forall_replicate|].
      eapply Forall_impl; [exact HP|]. apply cmc_about_http.
    + rewrite !length_app, !length_replicate. lia.
Qed.

(** X16. [fetchPriceForToken] asks only about the token's own identifiers;
    a provider after the one that gave the price is not asked, and a
    provider whose slug the token lacks is not asked either. *)
Theorem fetchPriceForToken_priority (E : Env) (t : SheetTokenRow) (w : World) :
  exists r evs,
    fetchPriceForToken E t w = (Ok r, w ++ evs) /\
    Forall (fun e => e = ClockRead \/
                     e = Http (DexToken (contract_address t)) \/
                     e = Http (GeckoSimplePrice [or_empty (coingecko_id t)]) \/
                     cmc_about (or_empty (cmc_slug t)) e) evs /\
    (source r = Some Dexscreener ->
     Forall (fun e => ~ asks Coingecko e /\ ~ asks Cmc e) evs) /\
    (source r = Some Coingecko -> Forall (fun e => ~ asks Cmc e) evs) /\
    (has_slug (coingecko_id t) = false ->
     Forall (fun e => ~ asks Coingecko e) evs) /\
    (has_slug (cmc_slug t) = false -> Forall (fun e => ~ asks Cmc e) evs).
Proof.
  destruct (cached E t) as [c|] eqn:Hc.
  - exists c, []. unfold fetchPriceForToken. unfold cached in Hc. rewrite Hc.
    unfold ret. rewrite app_nil_r. split_and!; by auto.
  - destruct (fetchPriceForToken_shape E t w Hc)
      as (d & g & c & kd & kg & evc & Hr & Hkd & Hkg & Hkc & HP & Hd & Hg & Hg0 & Hc0).
    cbn zeta in Hr. eexists _, _. split; [exact Hr|]. simpl.
    assert (Forall (fun e => ~ asks Coingecko e) evc) as Hevc.
    { eapply Forall_impl; [exact HP|]. intros e He Ha.
      apply cmc_about_asks in He. by pose proof (asks_unique _ _ _ Ha He). }
    split_and!.
    + split_events; auto. eapply Forall_impl; [exact HP|]. auto.
    + intros Hs. destruct d as [v|]; [|by destruct g, c].
      destruct Hd as [-> ->]; [done|]. split_events; split; discriminate || tauto.
    + intros Hs. destruct d as [v|]; [done|]. destruct g as [v|]; [|by destruct c].
      rewrite Hg by done. split_events; discriminate || tauto.
    + intros Hs. rewrite (Hg0 Hs). split_events; discriminate || tauto.
    + intros Hs. rewrite (Hc0 Hs). split_events; discriminate || tauto.
Qed.

Lemma fetchPriceForToken_priority_witness :
  exists r evs,
    fetchPriceForToken env_single tok_pepe [] = (Ok r, [] ++ evs) /\
    source r = Some Dexscreener /\
    Forall (fun e => ~ asks Coingecko e /\ ~ asks Cmc e) evs.
Proof.
  destruct (fetchPriceForToken_priority env_single tok_pepe [])
    as (r & evs & Hr & _ & Hdex & _).
  assert (source r = Some Dexscreener) as Hs.
  { assert (fst (fetchPriceForToken env_single tok_pepe []) = Ok r) as H
      by (by rewrite Hr).
    vm_compute in H. injection H as <-. reflexivity. }
  exists r, evs. exact (conj Hr (conj Hs (Hdex Hs))).
Defined.

(** ** dexscreener.ts: grouping the pairs of a grouped reply *)

Lemma push_pair_elem g k' a k p :
  p ∈ default [] (push_pair g k' a !! k)
  <-> p ∈ default [] (g !! k) \/ (k = k' /\ p = a).
Proof.
  unfold push_pair. destruct (decide (k' = k)) as [->|Hne].
  - rewrite lookup_insert_eq. simpl. rewrite elem_of_app, list_elem_of_singleton.
    split; (intros [H|H]; [by left|right]); [done|by destruct H].
  - rewrite lookup_insert_ne by done. split; [by left|].
    intros [H|[H _]]; [done|congruence].
Qed.

Lemma group_pairs_elem chunk pairs k p :
  p ∈ default [] (group_pairs chunk pairs !! k)
  <-> p ∈ pairs /\ k ∈ map key chunk /\ trades k p.
Proof.
  unfold group_pairs. cbv zeta.
  assert (forall k, k ∈ (list_to_set (map key chunk) : gset string)
                    <-> k ∈ map key chunk) as Hset
    by (intros k0; apply elem_of_list_to_set).
  revert Hset. generalize (list_to_set (map key chunk) : gset string).
  intros setReq Hset.
  assert (forall g : gmap string (list DexPair),
            p ∈ default []
                  (fold_left
                     (fun grouped p =>
                        if decide (toLowerCase (default "" (quoteToken_address p))
                                   ∈ setReq)
                        then push_pair
                               (if decide (toLowerCase
                                             (default "" (baseToken_address p))
                                           ∈ setReq)
                                then push_pair grouped
                                       (toLowerCase
                                          (default "" (baseToken_address p))) p
                                else grouped)
                               (toLowerCase (default "" (quoteToken_address p))) p
                        else if decide (toLowerCase
                                          (default "" (baseToken_address p))
                                        ∈ setReq)
                             then push_pair grouped
                                    (toLowerCase
                                       (default "" (baseToken_address p))) p
                             else grouped)
                     pairs g !! k)
            <-> p ∈ default [] (g !! k) \/
                (p ∈ pairs /\ k ∈ map key chunk /\ trades k p)) as Hfold.
  { induction pairs as [|a pairs IH]; intros g; simpl.
    - split; [by left|]. intros [H|[H _]]; [done|]. by apply elem_of_nil in H.
    - rewrite IH. clear IH. rewrite elem_of_cons. unfold trades.
      destruct (decide (toLowerCase (default "" (quoteToken_address a)) ∈ setReq))
        as [Hq|Hq];
      destruct (decide (toLowerCase (default "" (baseToken_address a)) ∈ setReq))
        as [Hb|Hb];
      rewrite ?push_pair_elem; rewrite ?Hset in Hq, Hb;
      split; intros H; intuition (subst; auto); try congruence. }
  rewrite Hfold, lookup_empty. simpl. split; [|by right].
  intros [H|H]; [by apply elem_of_nil in H|done].
Qed.

(** X17. The price the grouped reply gives for a requested key is the price
    of a pair of the reply that has the key as its base or quote token
    address, and that pair is at least as good as every priced pair of the
    reply with that address; the key gets a price whenever such a pair
    exists. *)
Theorem grouped_price_sound (chunk : list ReqKey) (pairs : list DexPair)
    (k : string) :
  (forall v, best_price (group_pairs chunk pairs) k = Some v ->
     exists best, best ∈ pairs /\ pair_priceUsd best = Some v /\
       trades k best /\ k ∈ map key chunk /\
       forall p, p ∈ pairs -> trades k p -> pair_priceUsd p <> None ->
                 at_least_as_good best p) /\
  (k ∈ map key chunk ->
   (exists p, p ∈ pairs /\ trades k p /\ pair_priceUsd p <> None) ->
   best_price (group_pairs chunk pairs) k <> None).
Proof.
  pose proof (fun p => group_pairs_elem chunk pairs k p) as Helem.
  unfold best_price. destruct (group_pairs chunk pairs !! k) as [ps|]; simpl in Helem.
  - split.
    + intros v Hv. destruct (pickBestPair ps) as [best|] eqn:Hbest; [|done].
      destruct (pickBestPair_max _ _ Hbest) as (Hin & _ & Hmax).
      apply Helem in Hin as (Hin & Hk & Ht).
      exists best. split_and!; try done.
      intros p Hp Htp Hpp. apply Hmax; [|done]. by apply Helem.
    + intros Hk (p & Hp & Ht & Hpp).
      destruct (pickBestPair ps) as [best|] eqn:Hbest.
      * by destruct (pickBestPair_max _ _ Hbest) as (_ & Hprice & _).
      * exfalso. apply Hpp. apply (proj1 (pickBestPair_none ps) Hbest).
        by apply Helem.
  - split; [done|]. intros Hk (p & Hp & Ht & Hpp). exfalso.
    assert (p ∈ (@nil DexPair)) as H by by apply Helem.
    by apply elem_of_nil in H.
Qed.

Lemma grouped_price_sound_witness :
  exists best,
    best ∈ pairs_sample /\ pair_priceUsd best = Some 3%Q /\
    at_least_as_good best pair_thin.
Proof.
  destruct (proj1 (grouped_price_sound
                     [{| original := "0xAA"; key := "0xaa" |}]
                     pairs_sample "0xaa") 3%Q eq_refl)
    as (best & Hin & Hprice & _ & _ & Hmax).
  exists best. split; [exact Hin|]. split; [exact Hprice|].
  apply Hmax.
  - apply list_elem_of_here.
  - left. reflexivity.
  - discriminate.
Defined.

(** ** The key sets of the maps the adapters return *)

Lemma fold_insert_keys {B} (f : B -> string)
    (g : gmap string (option Q) -> B -> option Q) l out k :
  is_Some (fold_left (fun out x => <[f x := g out x]> out) l out !! k) ->
  is_Some (out !! k) \/ k ∈ map f l.
Proof.
  revert out. induction l as [|x l IH]; intros out H; simpl in *; [by left|].
  apply IH in H as [H|H].
  - destruct (decide (f x = k)) as [->|Hne]; [right; by left|].
    rewrite lookup_insert_ne in H by done. by left.
  - right. by right.
Qed.

Lemma dex_fallback_only E n chunk (out : gmap string (option Q)) :
  on_ok (fun m => forall k, is_Some (m !! k) ->
                            is_Some (out !! k) \/ k ∈ map key chunk)
        (dex_fallback E n chunk out).
Proof.
  revert out. induction chunk as [|c chunk IH]; intros out; simpl.
  - apply on_ok_ret. by left.
  - eapply on_ok_bind
      with (Q1 := fun m => forall k, is_Some (m !! k) ->
                                     is_Some (out !! k) \/ k = key c).
    + apply on_ok_catch; [|apply on_ok_ret; by left].
      eapply on_ok_bind; [apply on_ok_true|].
      intros [v|] _; apply on_ok_ret; [|by left].
      intros k Hk. destruct (decide (key c = k)) as [->|Hne]; [by right|].
      rewrite lookup_insert_ne in Hk by done. by left.
    + intros out' Hout' w m w' Hr k Hk.
      destruct (IH out' w m w' Hr k Hk) as [H|H].
      * destruct (Hout' k H) as [H' | ->]; [by left|]. right. by left.
      * right. by right.
Qed.

Lemma dex_loop_only E n chunks (out : gmap string (option Q)) :
  on_ok (fun m => forall k, is_Some (m !! k) ->
                            is_Some (out !! k) \/ k ∈ map key (concat chunks))
        (dex_loop E n chunks out).
Proof.
  revert out. induction chunks as [|chunk chunks IH]; intros out; simpl.
  - apply on_ok_ret. by left.
  - eapply on_ok_bind; [apply on_ok_true|]. intros res _.
    eapply on_ok_bind
      with (Q1 := fun m => forall k, is_Some (m !! k) ->
                                     is_Some (out !! k) \/ k ∈ map key chunk).
    + assert (forall k,
                is_Some (assign_chunk (group_pairs chunk (pairs_of res)) chunk out
                         !! k) ->
                is_Some (out !! k) \/ k ∈ map key chunk) as Hassign.
      { intros k. unfold assign_chunk.
        apply (fold_insert_keys key
                 (fun _ c => best_price (group_pairs chunk (pairs_of res)) (key c))). }
      destruct (needs_fallback _ _ _).
      * intros w m w' Hr k Hk.
        destruct (dex_fallback_only E n chunk _ w m w' Hr k Hk) as [H|H];
          [by apply Hassign|by right].
      * by apply on_ok_ret.
    + intros out2 Hout2 w m w' Hr k Hk. rewrite map_app, elem_of_app.
      destruct (IH out2 w m w' Hr k Hk) as [H|H]; [|by right; right].
      destruct (Hout2 k H) as [H'|H']; [by left|by right; left].
Qed.

Lemma gecko_loop_only E n parts (out : gmap string (option Q)) :
  on_ok (fun m => forall k, is_Some (m !! k) ->
                            is_Some (out !! k) \/ k ∈ concat parts)
        (gecko_loop E n parts out).
Proof.
  revert out. induction parts as [|part parts IH]; intros out; simpl.
  - apply on_ok_ret. by left.
  - eapply on_ok_bind; [apply on_ok_true|]. intros res _ w m w' Hr k Hk.
    rewrite elem_of_app.
    destruct (IH _ w m w' Hr k Hk) as [H|H]; [|by right; right].
    apply (fold_insert_keys (fun id : string => id)
             (fun out id => match gecko_usd res id with
                            | Some v => Some v
                            | None => default None (out !! id)
                            end)) in H.
    rewrite list_fmap_id in H. destruct H as [H|H]; [by left|by right; left].
Qed.

Lemma cmc_loop_only E n parts (out : gmap string (option Q)) :
  on_ok (fun m => forall k, is_Some (m !! k) ->
                            is_Some (out !! k) \/ k ∈ concat parts)
        (cmc_loop E n parts out).
Proof.
  revert out. induction parts as [|part parts IH]; intros out; simpl.
  - apply on_ok_ret. by left.
  - eapply on_ok_bind; [apply on_ok_true|]. intros results _ w m w' Hr k Hk.
    rewrite elem_of_app.
    destruct (IH _ w m w' Hr k Hk) as [H|H]; [|by right; right].
    apply (fold_insert_keys fst (fun _ jr => snd jr)) in H.
    destruct H as [H|H]; [by left|]. right; left.
    apply list_elem_of_fmap in H as ([s v] & -> & Hin).
    by apply elem_of_zip_l in Hin.
Qed.

Lemma slug_uniq_elem ids k :
  k ∈ slug_uniq ids -> exists a, a ∈ ids /\ a <> "" /\ k = toLowerCase a.
Proof.
  unfold slug_uniq. intros Hk. apply uniq_loop_elem in Hk as [Hk _].
  apply list_elem_of_In, filter_In in Hk as [Hk Hne].
  apply list_elem_of_In, list_elem_of_fmap in Hk as (a & -> & Ha).
  exists a. split; [done|]. split; [|done].
  rewrite nonempty_toLowerCase in Hne. by apply nonempty_true.
Qed.

(** X18. The map an adapter returns has no key but the normalised forms of
    the non-empty identifiers it was given: trimmed and lower-cased
    addresses for Dexscreener, lower-cased ids and slugs for CoinGecko and
    CMC. *)
Theorem adapter_maps_have_no_other_keys (E : Env) (w w' : World)
    (m : gmap string (option Q)) (k : string) :
  is_Some (m !! k) ->
  (forall addresses opts,
     fetchDexscreenerBatchByTokens E addresses opts w = (Ok m, w') ->
     exists a, a ∈ addresses /\ trim a <> "" /\ k = toLowerCase (trim a)) /\
  (forall ids opts,
     fetchCoingeckoBatchByIds E ids opts w = (Ok m, w') ->
     exists a, a ∈ ids /\ a <> "" /\ k = toLowerCase a) /\
  (forall slugs opts,
     fetchCmcBatchBySlugs E slugs opts w = (Ok m, w') ->
     exists a, a ∈ slugs /\ a <> "" /\ k = toLowerCase a).
Proof.
  intros Hk. split_and!.
  - intros addresses opts Hr. unfold fetchDexscreenerBatchByTokens in Hr.
    assert (k ∈ map key (dex_uniq addresses)) as Hin.
    { destruct (dex_loop_only E _ _ _ w m w' Hr k Hk) as [H|H].
      - by apply prefill_lookup in H.
      - rewrite chunk_concat in H; [done|]. apply dex_batchSize_bounds. }
    apply list_elem_of_fmap in Hin as (x & -> & Hx).
    unfold dex_uniq in Hx. apply uniq_loop_elem in Hx as [Hx _].
    unfold dex_req in Hx. apply list_elem_of_In, filter_In in Hx as [Hx Hne].
    apply list_elem_of_In, list_elem_of_fmap in Hx as (a & -> & Ha).
    exists a. simpl in *. split; [done|]. split; [|done]. by apply nonempty_true.
  - intros ids opts Hr. unfold fetchCoingeckoBatchByIds in Hr.
    apply slug_uniq_elem.
    destruct (gecko_loop_only E _ _ _ w m w' Hr k Hk) as [H|H].
    + apply prefill_lookup in H. by rewrite list_fmap_id in H.
    + rewrite chunk_concat in H; [done|]. unfold gecko_batchSize. lia.
  - intros slugs opts Hr. unfold fetchCmcBatchBySlugs in Hr.
    apply slug_uniq_elem.
    destruct (cmc_loop_only E _ _ _ w m w' Hr k Hk) as [H|H].
    + apply prefill_lookup in H. by rewrite list_fmap_id in H.
    + rewrite chunk_concat in H; [done|]. unfold cmc_concurrency. lia.
Qed.

Lemma adapter_maps_have_no_other_keys_witness :
  exists m w',
    fetchCoingeckoBatchByIds env_pepe ["Pepe"] geckoOpts [] = (Ok m, w') /\
    is_Some (m !! "pepe") /\
    exists a, a ∈ ["Pepe"] /\ a <> "" /\ "pepe" = toLowerCase a.
Proof.
  destruct (fetchCoingeckoBatchByIds_returns env_pepe ["Pepe"] geckoOpts [])
    as (m & w' & Hr & Hkeys).
  assert (is_Some (m !! "pepe")) as Hk.
  { apply (Hkeys "Pepe"); [apply list_elem_of_here|discriminate]. }
  exists m, w'. split; [exact Hr|]. split; [exact Hk|].
  exact (proj1 (proj2 (adapter_maps_have_no_other_keys env_pepe [] w' m "pepe" Hk))
           ["Pepe"] geckoOpts Hr).
Defined.

(** ** Upstream traffic of the CoinGecko and CMC adapters *)

Lemma gecko_loop_parts P E n parts out :
  (forall part, part ∈ parts -> P (Http (GeckoSimplePrice part))) ->
  appends P (gecko_loop E n parts out).
Proof.
  revert out. induction parts as [|part parts IH]; intros out HP; simpl.
  - apply appends_ret.
  - apply appends_bind.
    + apply appends_catch; [|apply appends_ret].
      apply appends_bind; [|intros b; apply appends_ret].
      apply appends_pRetry, appends_request, HP. by left.
    + intros res. apply IH. intros p Hp. apply HP. by right.
Qed.

Lemma gecko_loop_bounded E n parts out :
  bounded (length parts * S n) (gecko_loop E n parts out).
Proof.
  revert out. induction parts as [|part parts IH]; intros out; simpl.
  - apply bounded_ret.
  - apply (bounded_bind (S n) (length parts * S n)); [|intros res; apply IH].
    apply (bounded_mono (S n * 1 + 0 + 0)); [lia|].
    apply bounded_catch; [|apply bounded_ret].
    apply bounded_bind; [|intros b; apply bounded_ret].
    apply bounded_pRetry, bounded_request.
Qed.

(** X19. [fetchCoingeckoBatchByIds] sends only CoinGecko price requests;
    each names between one and 250 of the de-duplicated lower-case ids, at
    most the configured batch size; there are at most (retries + 1) requests
    per sub-batch, and ceil(n / batch size) sub-batches for n distinct
    ids. *)
Theorem coingecko_batch_traffic (E : Env) (ids : list string) (opts : BatchOpts)
    (w : World) :
  let n := length (slug_uniq ids) in
  let size := gecko_batchSize opts in
  exists m evs,
    fetchCoingeckoBatchByIds E ids opts w = (Ok m, w ++ evs) /\
    Forall (fun e => exists part,
              e = Http (GeckoSimplePrice part) /\
              (1 <= length part <= size)%nat /\ (size <= 250)%nat /\
              forall s, s ∈ part -> s ∈ slug_uniq ids) evs /\
    (length evs <= (n + size - 1) / size * S (default 2 (retries opts)))%nat.
Proof.
  cbv zeta. unfold fetchCoingeckoBatchByIds.
  assert (1 <= gecko_batchSize opts <= 250)%nat as Hsize
    by (unfold gecko_batchSize; lia).
  set (parts := chunk (slug_uniq ids) (gecko_batchSize opts)).
  destruct (run_log (fun _ => True)
              (fun e => exists part,
                 e = Http (GeckoSimplePrice part) /\
                 (1 <= length part <= gecko_batchSize opts)%nat /\
                 (gecko_batchSize opts <= 250)%nat /\
                 forall s, s ∈ part -> s ∈ slug_uniq ids)
              (length parts * S (default 2 (retries opts)))
              (gecko_loop E (default 2 (retries opts)) parts
                 (prefill (fun s => s) (slug_uniq ids))) w)
    as (m & evs & Hr & _ & HP & Hk).
  - eapply returns_mono; [|apply gecko_loop_returns]. done.
  - apply gecko_loop_parts. intros part Hpart. exists part.
    split; [done|]. split_and!; try lia.
    + pose proof (chunk_rounds_nonempty (length (slug_uniq ids))
                    (gecko_batchSize opts) (slug_uniq ids) (proj1 Hsize)) as Hne.
      rewrite Forall_forall in Hne. specialize (Hne part Hpart).
      destruct part; [done|simpl; lia].
    + pose proof (chunk_rounds_sizes (length (slug_uniq ids))
                    (gecko_batchSize opts) (slug_uniq ids)) as Hle.
      rewrite Forall_forall in Hle. by apply Hle.
    + intros s Hs.
      rewrite <- (chunk_concat (slug_uniq ids) (gecko_batchSize opts) (proj1 Hsize)).
      apply list_elem_of_In, in_concat. exists part.
      split; by apply list_elem_of_In.
  - apply gecko_loop_bounded.
  - exists m, evs. split; [done|]. split; [done|].
    unfold parts, chunk in Hk.
    by rewrite chunk_rounds_count in Hk by lia.
Qed.

Lemma pRetry_total {A} (Q : A -> Prop) n (m : Run A) w :
  returns Q m -> pRetry n m w = m w.
Proof.
  intros Hm. destruct (Hm w) as (a & w' & Hr & _).
  rewrite Hr. by apply pRetry_first.
Qed.

Lemma cmc_lookup_retried P E n slug :
  (forall e, cmc_about slug e -> P e) ->
  appends P (pRetry n (fetchCmcPriceBySlug E slug)) /\
  bounded 8 (pRetry n (fetchCmcPriceBySlug E slug)).
Proof.
  intros HP. split; intros w;
    rewrite (pRetry_total _ n _ w (fetchCmcPriceBySlug_returns E slug)).
  - eapply appends_mono; [exact HP|apply fetchCmcPriceBySlug_about].
  - apply fetchCmcPriceBySlug_bounded.
Qed.

Lemma appends_mapM_in {A B} P (f : A -> Run B) l :
  (forall x, x ∈ l -> appends P (f x)) -> appends P (mapM f l).
Proof.
  induction l as [|x l IH]; intros Hf; simpl; [apply appends_ret|].
  apply appends_bind; [apply Hf; by left|]. intros y.
  apply appends_bind; [|intros ys; apply appends_ret].
  apply IH. intros z Hz. apply Hf. by right.
Qed.

Lemma cmc_loop_about P E n parts out :
  (forall s e, s ∈ concat parts -> cmc_about s e -> P e) ->
  appends P (cmc_loop E n parts out).
Proof.
  revert out. induction parts as [|part parts IH]; intros out HP; simpl.
  - apply appends_ret.
  - apply appends_bind.
    + apply appends_mapM_in. intros slug Hslug.
      apply cmc_lookup_retried. intros e He. apply (HP slug); [|done].
      apply elem_of_app. by left.
    + intros res. apply IH. intros s e Hs. apply HP.
      simpl. apply elem_of_app. by right.
Qed.

Lemma cmc_loop_bounded E n parts out :
  bounded (length (concat parts) * 8) (cmc_loop E n parts out).
Proof.
  revert out. induction parts as [|part parts IH]; intros out; simpl.
  - apply bounded_ret.
  - rewrite length_app, Nat.mul_add_distr_r.
    apply bounded_bind; [|intros res; apply IH].
    apply bounded_mapM. intros slug.
    apply (cmc_lookup_retried (fun _ => True)). done.
Qed.

(** X20. [fetchCmcBatchBySlugs] sends only CMC requests, each for one of the
    de-duplicated lower-case slugs, and at most eight per distinct slug: the
    retry around a lookup never fires, because the lookup never raises. *)
Theorem cmc_batch_traffic (E : Env) (slugs : list string) (opts : CmcOpts)
    (w : World) :
  (forall n slug w0,
     pRetry n (fetchCmcPriceBySlug E slug) w0 = fetchCmcPriceBySlug E slug w0) /\
  exists m evs,
    fetchCmcBatchBySlugs E slugs opts w = (Ok m, w ++ evs) /\
    Forall (fun e => asks Cmc e /\
                     exists s, s ∈ slug_uniq slugs /\ cmc_about s e) evs /\
    (length evs <= 8 * length (slug_uniq slugs))%nat.
Proof.
  split.
  - intros n slug w0.
    apply (pRetry_total _ n _ w0 (fetchCmcPriceBySlug_returns E slug)).
  - unfold fetchCmcBatchBySlugs.
    assert (1 <= cmc_concurrency opts)%nat as Hsize
      by (unfold cmc_concurrency; lia).
    set (parts := chunk (slug_uniq slugs) (cmc_concurrency opts)).
    assert (concat parts = slug_uniq slugs) as Hparts by by apply chunk_concat.
    destruct (run_log (fun _ => True)
                (fun e => asks Cmc e /\
                          exists s, s ∈ slug_uniq slugs /\ cmc_about s e)
                (length (concat parts) * 8)
                (cmc_loop E (default 2 (cmc_retries opts)) parts
                   (prefill (fun s => s) (slug_uniq slugs))) w)
      as (m & evs & Hr & _ & HP & Hk).
    + eapply returns_mono; [|apply cmc_loop_returns]. done.
    + apply cmc_loop_about. intros s e Hs He. split.
      * by eapply cmc_about_asks.
      * exists s. by rewrite <- Hparts.
    + apply cmc_loop_bounded.
    + exists m, evs. split; [done|]. split; [done|]. rewrite Hparts in Hk. lia.
Qed.

(** ** fetchAllPrices: further properties of a run *)

Lemma misses_nil E tokens :
  misses E tokens 0 = [] <-> Forall (fun t => cached E t <> None) tokens.
Proof.
  split.
  - intros Hm. apply Forall_forall. intros t Ht Hc.
    apply list_elem_of_lookup in Ht as [j Hj].
    assert (j ∈ misses E tokens 0) as Hin by (apply misses_need; by exists t).
    rewrite Hm in Hin. by apply elem_of_nil in Hin.
  - intros Hall. destruct (misses E tokens 0) as [|j rest] eqn:Hm; [done|].
    assert (j ∈ misses E tokens 0) as Hin by (rewrite Hm; by left).
    apply misses_need in Hin as (t & Ht & Hc).
    rewrite Forall_forall in Hall. exfalso. apply (Hall t); [|done].
    by apply list_elem_of_lookup_2 in Ht.
Qed.

Lemma cache_pass_all E tokens :
  Forall (fun t => cached E t <> None) tokens ->
  fst (cache_pass E tokens) = map (cached E) tokens.
Proof.
  intros Hall. apply list_eq. intros j.
  rewrite list_lookup_fmap. destruct (tokens !! j) as [t|] eqn:Ht; simpl.
  - by apply cache_pass_lookup.
  - apply lookup_ge_None. rewrite cache_pass_length. by apply lookup_ge_None.
Qed.

(** X21. When every token has a cache entry, [fetchAllPrices] returns the
    cached records in input order and leaves the log as it was: no adapter
    is invoked, no request is sent and the clock is not read.  Conversely, a
    run that leaves the log as it was had every token cached. *)
Theorem all_cached_no_traffic (E : Env) (tokens : list SheetTokenRow)
    (w : World) :
  (Forall (fun t => cached E t <> None) tokens ->
   fetchAllPrices E tokens w = (Ok (map (cached E) tokens), w)) /\
  (snd (fetchAllPrices E tokens w) = w ->
   Forall (fun t => cached E t <> None) tokens).
Proof.
  split.
  - intros Hall. unfold fetchAllPrices.
    pose proof (cache_pass_need E tokens) as Hn.
    pose proof (cache_pass_all E tokens Hall) as Hr.
    destruct (cache_pass E tokens) as [r0 need]. simpl in Hn, Hr. subst.
    by rewrite (proj2 (misses_nil E tokens) Hall).
  - intros Hw. apply misses_nil.
    destruct (fetchAllPrices_runs E tokens w)
      as (out & evs & Hr & dm & gm & cm & _ & _ & _ & _ & _ & Hinv).
    rewrite Hr in Hw. simpl in Hw.
    rewrite <- (app_nil_r w) in Hw at 2. apply app_inv_head in Hw. subst evs.
    by destruct (misses E tokens 0).
Qed.

Lemma all_cached_no_traffic_witness :
  fetchAllPrices env_cached [tok_pepe] [] = (Ok [Some cached_pepe], []).
Proof.
  apply (proj1 (all_cached_no_traffic env_cached [tok_pepe] [])).
  repeat constructor. discriminate.
Defined.

Lemma resolve_first_price t dm gm cm ts :
  resolve t dm gm cm ts
  = mkResult t
      (fst (first_price (dex_price dm t) (slug_price coingecko_id gm t)
              (slug_price cmc_slug cm t)))
      (snd (first_price (dex_price dm t) (slug_price coingecko_id gm t)
              (slug_price cmc_slug cm t))) ts.
Proof.
  unfold resolve, first_price.
  destruct (dex_price dm t); [done|].
  destruct (slug_price coingecko_id gm t); [done|].
  by destruct (slug_price cmc_slug cm t).
Qed.



Lemma summarize_sourced prices :
  Forall sourced prices ->
  bySource_sum (bySource (summarize prices)) = withPrice (totals (summarize prices)).
Proof.
  intros Hall. unfold summarize.
  pose proof (fold_summarize_withPrice prices
    ({| n_dexscreener := 0; n_coingecko := 0; n_cmc := 0 |}, 0%Z)) as Hw.
  pose proof (fold_summarize_bySource prices
    ({| n_dexscreener := 0; n_coingecko := 0; n_cmc := 0 |}, 0%Z) Hall) as Hb.
  destruct (fold_left summarize_step prices _) as [bs wp]; simpl in *.
  unfold bySource_sum in *; simpl in *. lia.
Qed.

(** X23. The summary of a run: [total] is the number of tokens, and when
    every cached record that is served has a source whenever it has a price,
    the three [bySource] counters add up to [withPrice] -- the fresh records
    never break the balance. *)
Theorem run_summary (E : Env) (tokens : list SheetTokenRow) (w : World) :
  (forall t c, t ∈ tokens -> cached E t = Some c ->
               priceUsd c <> None -> source c <> None) ->
  exists out evs,
    fetchAllPrices E tokens w = (Ok out, w ++ evs) /\
    total (totals (summarize out)) = Z.of_nat (length tokens) /\
    bySource_sum (bySource (summarize out)) = withPrice (totals (summarize out)).
Proof.
  intros Hcache.
  destruct (fetchAllPrices_runs E tokens w)
    as (out & evs & Hr & dm & gm & cm & _ & _ & _ & Hlen & Hslot & _).
  exists out, evs. split; [done|]. split.
  - destruct (summarize_fields out) as (T & _). by rewrite T, Hlen.
  - apply summarize_sourced. apply Forall_lookup. intros j p Hp.
    assert (is_Some (tokens !! j)) as [t Ht].
    { apply lookup_lt_is_Some. rewrite <- Hlen. by eapply lookup_lt_Some. }
    specialize (Hslot j t Ht). destruct (cached E t) as [c|] eqn:Hc.
    + rewrite Hslot in Hp. injection Hp as <-. simpl.
      apply (Hcache t c); [|done]. by eapply list_elem_of_lookup_2.
    + destruct Hslot as [ts Ho]. rewrite Ho in Hp. injection Hp as <-. simpl.
      rewrite resolve_first_price. simpl.
      by destruct (dex_price dm t), (slug_price coingecko_id gm t),
        (slug_price cmc_slug cm t).
Qed.

Lemma run_summary_witness :
  exists out evs,
    fetchAllPrices env_pepe [tok_pepe] [] = (Ok out, [] ++ evs) /\
    total (totals (summarize out)) = 1%Z /\
    bySource_sum (bySource (summarize out)) = withPrice (totals (summarize out)).
Proof.
  apply (run_summary env_pepe [tok_pepe] []).
  intros t c _ Hc. discriminate Hc.
Defined.

Lemma misses_addresses E pre ts :
  omap (key_at (provider_key Dexscreener) (pre ++ ts)) (misses E ts (length pre))
  = map contract_address (List.filter (uncached E) ts).
Proof.
  revert pre. induction ts as [|t ts IH]; intros pre; simpl; [done|].
  specialize (IH (pre ++ [t])). rewrite <- app_assoc, length_app in IH.
  simpl in IH. rewrite Nat.add_1_r in IH.
  unfold uncached at 1. destruct (cached E t) as [c|]; [exact IH|].
  simpl. unfold key_at at 1.
  rewrite lookup_app_r, Nat.sub_diag by lia. simpl. f_equal. exact IH.
Qed.

(** X24. When some token has no cache entry, the first adapter invoked is
    Dexscreener, and the key list it is given is the list of the contract
    addresses of the tokens without a cache entry, in input order, repeats
    included. *)
Theorem dexscreener_gets_uncached_addresses (E : Env)
    (tokens : list SheetTokenRow) (w : World) :
  Exists (fun t => cached E t = None) tokens ->
  exists out evs,
    fetchAllPrices E tokens w = (Ok out, w ++ evs) /\
    head (invocations evs)
    = Some (Dexscreener,
            map contract_address (List.filter (uncached E) tokens)).
Proof.
  intros Hex.
  destruct (fetchAllPrices_runs E tokens w)
    as (out & evs & Hr & dm & gm & cm & _ & _ & _ & _ & _ & Hinv).
  exists out, evs. split; [done|]. rewrite Hinv.
  pose proof (misses_addresses E [] tokens) as Hkeys.
  change (keys_for Dexscreener tokens (misses E tokens 0)
          = map contract_address (List.filter (uncached E) tokens)) in Hkeys.
  destruct (misses E tokens 0) as [|j rest] eqn:Hm.
  - exfalso. apply misses_nil in Hm. apply Exists_exists in Hex as (t & Ht & Hc).
    rewrite Forall_forall in Hm. by apply (Hm t).
  - cbn [head]. by rewrite Hkeys.
Qed.

Lemma dexscreener_gets_uncached_addresses_witness :
  exists out evs,
    fetchAllPrices env_cached [tok_pepe; tok_pepe_bsc] [] = (Ok out, [] ++ evs) /\
    head (invocations evs) = Some (Dexscreener, ["0xAA"]).
Proof.
  apply (dexscreener_gets_uncached_addresses env_cached [tok_pepe; tok_pepe_bsc] []).
  apply Exists_cons_tl, Exists_cons_hd. reflexivity.
Defined.
